(** * Contiguous-region selection (GIMP, app/core/gimpimage-contiguous-region.c)

    A shallow embedding of the "select by seed" / "select by color" engine:
    the per-pixel similarity function [pixel_difference], the row scanner
    [find_contiguous_segment], the work-list driver
    [find_contiguous_region_helper] and the two public entry points.

    Numbers.  [gfloat] is IEEE-754 binary32 and the C constants [1.5], [0.5],
    [2.0], [0.0] are binary64; both are modelled by [spec_float] with the
    operations of [SpecFloat] at precision 24 / 53.  *)

From Stdlib Require Import ZArith QArith Qpower List Bool Lia.
From Stdlib Require Import SpecFloat.
Import ListNotations.
Close Scope Q_scope.
Open Scope Z_scope.

(** ** Floating-point layer *)

Module F.

Definition gfloat := spec_float.

(** binary32 arithmetic: [gfloat op gfloat]. *)
Definition sub32 : gfloat -> gfloat -> gfloat := SFsub 24 128.
Definition div32 : gfloat -> gfloat -> gfloat := SFdiv 24 128.

(** binary64 arithmetic: what C uses once a [double] constant is involved. *)
Definition sub64 : spec_float -> spec_float -> spec_float := SFsub 53 1024.
Definition mul64 : spec_float -> spec_float -> spec_float := SFmul 53 1024.

(** Conversion between the two formats: re-round the exact value. *)
Definition conv (prec emax : Z) (x : spec_float) : spec_float :=
  match x with
  | S754_finite s m e => binary_normalize prec emax (cond_Zopp s (Zpos m)) e s
  | _ => x
  end.

Definition to_double : gfloat -> spec_float := conv 53 1024.
Definition to_float : spec_float -> gfloat := conv 24 128.

(** [fabs]: the argument is promoted, the sign cleared and the result stored
    back in a [gfloat]; both conversions are exact. *)
Definition fabs : gfloat -> gfloat := SFabs.

(** Comparisons.  A [gfloat] compared with a [double] constant that is itself
    a binary32 value is compared at binary32 (promotion is exact). *)
Definition gt (a b : gfloat) : bool := SFltb b a.
Definition lt (a b : gfloat) : bool := SFltb a b.
Definition le (a b : gfloat) : bool := SFleb a b.
Definition eq (a b : gfloat) : bool := SFeqb a b.

(** Constants. *)
Definition zero : gfloat := S754_zero false.                       (* 0.0 *)
Definition one : gfloat := S754_finite false 8388608 (-23).        (* 1.0 *)
Definition half : gfloat := S754_finite false 8388608 (-24).       (* 0.5 *)
Definition d1_5 : spec_float := S754_finite false 6755399441055744 (-52).
Definition d2_0 : spec_float := S754_finite false 4503599627370496 (-51).

(** C truth value of a float: [if (diff)], [! diff], [val != 0.0]. *)
Definition nonzero (a : gfloat) : bool := negb (eq a zero).

End F.

Import F.

(** ** Colors and the selection criterion *)

(** A pixel in the comparison format: the channel values, alpha last when the
    format has one (a [gfloat[MAX_CHANNELS]] in the source). *)
Definition color := list gfloat.

(** [col[i]].  An index past the end of the list stands for a slot of the C
    array that was never filled: the arrays [start_col] (line 94) and [s]
    (line 385) are not initialised and sampling fills [n_components] slots of
    them.  C reads an indeterminate value there, the model reads 0.0; a
    statement that fixes the value of such a comparison is made for the
    criteria that read filled slots only ([criterion_sampled]). *)
Definition chan (c : color) (i : Z) : gfloat :=
  if i <? 0 then zero else nth (Z.to_nat i) c zero.

(** Modelled from the spec: the enumeration [GimpSelectCriterion] is declared
    outside the sampled file; the spec names the composite and the single
    channel members and the three members without an implementation. *)
Inductive GimpSelectCriterion :=
| GIMP_SELECT_CRITERION_COMPOSITE
| GIMP_SELECT_CRITERION_R
| GIMP_SELECT_CRITERION_G
| GIMP_SELECT_CRITERION_B
| GIMP_SELECT_CRITERION_H
| GIMP_SELECT_CRITERION_S
| GIMP_SELECT_CRITERION_V.

(** ** pixel_difference *)

(** Line 262: the guard of the early [return 0.0]. *)
Definition transparent_exit (select_transparent has_alpha : bool)
           (col2 : color) (n_components : Z) : bool :=
  negb select_transparent && has_alpha && eq (chan col2 (n_components - 1)) zero.

(** Lines 280-285: [for (b = 0; b < n_components; b++)], [k] iterations left. *)
Fixpoint composite_loop (k : nat) (b : Z) (col1 col2 : color) (max : gfloat)
  : gfloat :=
  match k with
  | O => max
  | S k' =>
      let diff := fabs (sub32 (chan col1 b) (chan col2 b)) in
      composite_loop k' (b + 1) col1 col2 (if gt diff max then diff else max)
  end.

(** Lines 265-346: the value of [max] when the early return is not taken. *)
Definition pixel_max (col1 col2 : color) (n_components : Z)
           (has_alpha select_transparent : bool)
           (select_criterion : GimpSelectCriterion) : gfloat :=
  if select_transparent && has_alpha then
    fabs (sub32 (chan col1 (n_components - 1)) (chan col2 (n_components - 1)))
  else
    let n_components := if has_alpha then n_components - 1 else n_components in
    match select_criterion with
    | GIMP_SELECT_CRITERION_COMPOSITE =>
        composite_loop (Z.to_nat n_components) 0 col1 col2 zero
    | GIMP_SELECT_CRITERION_R => fabs (sub32 (chan col1 0) (chan col2 0))
    | GIMP_SELECT_CRITERION_G => fabs (sub32 (chan col1 1) (chan col2 1))
    | GIMP_SELECT_CRITERION_B => fabs (sub32 (chan col1 2) (chan col2 2))
    | _ => zero   (* the H, S, V cases are compiled out: [max] keeps 0.0 *)
    end.

(** Line 350: [gfloat aa = 1.5 - (max / threshold);] *)
Definition aa_of (max threshold : gfloat) : gfloat :=
  to_float (sub64 d1_5 (to_double (div32 max threshold))).

(** Lines 348-365: from [max] to the returned membership value. *)
Definition pixel_result (antialias : bool) (threshold max : gfloat) : gfloat :=
  if antialias && gt threshold zero then
    let aa := aa_of max threshold in
    if le aa zero then zero
    else if lt aa half then to_float (mul64 (to_double aa) d2_0)
    else one
  else
    if gt max threshold then zero else one.

Definition pixel_difference (col1 col2 : color) (antialias : bool)
           (threshold : gfloat) (n_components : Z)
           (has_alpha select_transparent : bool)
           (select_criterion : GimpSelectCriterion) : gfloat :=
  if transparent_exit select_transparent has_alpha col2 n_components then zero
  else pixel_result antialias threshold
         (pixel_max col1 col2 n_components has_alpha select_transparent
            select_criterion).

(** The raw difference of a comparison: the value [max] has when line 348
    is reached, and none when the function returns at line 263. *)
Definition raw_difference (col1 col2 : color) (n_components : Z)
           (has_alpha select_transparent : bool)
           (select_criterion : GimpSelectCriterion) : option gfloat :=
  if transparent_exit select_transparent has_alpha col2 n_components then None
  else Some (pixel_max col1 col2 n_components has_alpha select_transparent
               select_criterion).

(** ** Pixel formats and buffers *)

(** Modelled from the spec: Babl formats are declared outside the sampled
    file; a format is reduced to what the code asks of it (palette or not, the
    base type, alpha or not, the number of components). *)
Inductive GimpImageBaseType := GIMP_RGB | GIMP_GRAY | GIMP_INDEXED.

Record Babl := {
  babl_base_type : GimpImageBaseType;
  babl_format_has_alpha : bool
}.

Definition babl_format_is_palette (f : Babl) : bool :=
  match babl_base_type f with GIMP_INDEXED => true | _ => false end.

Definition babl_format_get_n_components (f : Babl) : Z :=
  match babl_base_type f with GIMP_RGB => 3 | _ => 1 end
  + (if babl_format_has_alpha f then 1 else 0).

Definition RGBA_float : Babl :=
  {| babl_base_type := GIMP_RGB; babl_format_has_alpha := true |}.

(** [gimp_babl_format (base_type, GIMP_PRECISION_FLOAT, has_alpha)]. *)
Definition gimp_babl_format (base : GimpImageBaseType) (alpha : bool) : Babl :=
  {| babl_base_type := base; babl_format_has_alpha := alpha |}.

(** Modelled from the spec: the Pixel Source collaborator.  A pickable has a
    native format, an extent and, for every comparison format, the pixel at
    each position converted to that format. *)
Record GimpPickable := {
  pickable_format : Babl;
  pickable_width : Z;
  pickable_height : Z;
  pickable_pixel : Babl -> Z -> Z -> color
}.

Record GimpImage := { gimp_image_get_projection : GimpPickable }.
Definition GimpDrawable := GimpPickable.

Definition in_extent (w h x y : Z) : bool :=
  (0 <=? x) && (x <? w) && (0 <=? y) && (y <? h).

(** [gegl_buffer_sample (src, x, y, NULL, s, format, NEAREST, ABYSS_NONE)]:
    outside the extent every component reads 0. *)
Definition gegl_buffer_sample (src : GimpPickable) (x y : Z) (format : Babl)
  : color :=
  if in_extent (pickable_width src) (pickable_height src) x y
  then pickable_pixel src format x y
  else repeat zero (Z.to_nat (babl_format_get_n_components format)).

(** Modelled from the spec: the Mask Sink collaborator, a zero-initialised
    single-channel buffer.  [mask_writes] is the history of the cells stored
    so far, oldest first. *)
Record MaskBuffer := {
  mask_width : Z;
  mask_height : Z;
  mask_cell : Z -> Z -> gfloat;
  mask_writes : list (Z * Z * gfloat)
}.

Definition gimp_channel_new_mask (width height : Z) : MaskBuffer :=
  {| mask_width := width; mask_height := height;
     mask_cell := fun _ _ => zero; mask_writes := [] |}.

(** Sampling the mask, [GEGL_ABYSS_NONE]. *)
Definition mask_sample (m : MaskBuffer) (x y : Z) : gfloat :=
  if in_extent (mask_width m) (mask_height m) x y then mask_cell m x y else zero.

(** The scratch row [gfloat mask_row[width]] of the segment finder: a slot is
    [None] until it is assigned. *)
Definition mask_row := Z -> option gfloat.
Definition row_empty : mask_row := fun _ => None.
Definition row_set (r : mask_row) (i : Z) (v : gfloat) : mask_row :=
  fun j => if j =? i then Some v else r j.

Definition store_cell (m : MaskBuffer) (x y : Z) (v : gfloat) : MaskBuffer :=
  {| mask_width := mask_width m; mask_height := mask_height m;
     mask_cell := fun x' y' => if (x' =? x) && (y' =? y) then v
                               else mask_cell m x' y';
     mask_writes := mask_writes m ++ [(x, y, v)] |}.

(** One row of [gegl_buffer_set]: columns [x .. x+k-1] of row [y] receive
    [data x .. data (x+k-1)].  The buffer drops what falls outside its extent;
    a slot of the row that was never assigned holds an indeterminate value and
    the model leaves the cell alone there. *)
Fixpoint set_row (k : nat) (m : MaskBuffer) (x y : Z) (data : mask_row)
  : MaskBuffer :=
  match k with
  | O => m
  | S k' =>
      let m' :=
        if in_extent (mask_width m) (mask_height m) x y then
          match data x with
          | Some v => store_cell m x y v
          | None => m
          end
        else m in
      set_row k' m' (x + 1) y data
  end.

(** [gegl_buffer_set (mask, GEGL_RECTANGLE (x, y, width, 1), 0, "Y float",
    &row[x], GEGL_AUTO_ROWSTRIDE)]. *)
Definition gegl_buffer_set (m : MaskBuffer) (x y width : Z) (row : mask_row)
  : MaskBuffer :=
  set_row (Z.to_nat width) m x y row.

(** ** find_contiguous_segment *)

(** Lines 404-417: the leftward loop, [k] bounds the passes. *)
Fixpoint scan_left (probe : Z -> gfloat) (k : nat) (start : Z) (diff : gfloat)
         (row : mask_row) : Z * gfloat * mask_row :=
  match k with
  | O => (start, diff, row)
  | S k' =>
      if (0 <=? start) && nonzero diff then
        let diff := probe start in
        let row := row_set row start diff in
        scan_left probe k' (if nonzero diff then start - 1 else start) diff row
      else (start, diff, row)
  end.

(** Lines 422-435: the rightward loop. *)
Fixpoint scan_right (probe : Z -> gfloat) (width : Z) (k : nat) (end_ : Z)
         (diff : gfloat) (row : mask_row) : Z * gfloat * mask_row :=
  match k with
  | O => (end_, diff, row)
  | S k' =>
      if (end_ <? width) && nonzero diff then
        let diff := probe end_ in
        let row := row_set row end_ diff in
        scan_right probe width k'
          (if nonzero diff then end_ + 1 else end_) diff row
      else (end_, diff, row)
  end.

(** The result is [None] for [FALSE]; for [TRUE] it carries the mask after the
    bulk write and the values left in [*start] and [*end]. *)
Definition find_contiguous_segment (col : color) (src_buffer : GimpPickable)
           (mask_buffer : MaskBuffer) (src_format : Babl) (n_components : Z)
           (has_alpha : bool) (width : Z) (select_transparent : bool)
           (select_criterion : GimpSelectCriterion) (antialias : bool)
           (threshold : gfloat) (initial_x initial_y : Z)
  : option (MaskBuffer * Z * Z) :=
  let probe x :=
    pixel_difference col (gegl_buffer_sample src_buffer x initial_y src_format)
      antialias threshold n_components has_alpha select_transparent
      select_criterion in
  let diff := probe initial_x in
  if negb (nonzero diff) then None
  else
    let row := row_set row_empty initial_x diff in
    let '(start, _, row) :=
      scan_left probe (Z.to_nat initial_x) (initial_x - 1) diff row in
    let '(end_, _, row) :=
      scan_right probe width (Z.to_nat (width - (initial_x + 1)))
        (initial_x + 1) one row in
    Some (gegl_buffer_set mask_buffer start initial_y (end_ - start) row,
          start, end_).

(** ** find_contiguous_region_helper *)

(** The queue holds (y, start, end) triples; the source stores the three
    integers of a triple one after the other. *)
Record fill_state := {
  coord_stack : list (Z * Z * Z);
  fill_mask : MaskBuffer
}.

Section Helper.

Variables (src_buffer : GimpPickable) (format : Babl).
Variables (select_transparent : bool) (select_criterion : GimpSelectCriterion).
Variables (antialias : bool) (threshold : gfloat) (col : color).

(** Lines 483-513: the body of the [for] loop at column [x] of row [y]. *)
Definition visit (y x : Z) (st : fill_state) : fill_state :=
  let val := mask_sample (fill_mask st) x y in
  if nonzero val then st
  else
    match find_contiguous_segment col src_buffer (fill_mask st) format
            (babl_format_get_n_components format)
            (babl_format_has_alpha format)
            (pickable_width src_buffer)
            select_transparent select_criterion antialias threshold x y with
    | None => st
    | Some (mask', new_start, new_end) =>
        let q := coord_stack st in
        let q := if y + 1 <? pickable_height src_buffer
                 then q ++ [(y + 1, new_start, new_end)] else q in
        let q := if 0 <=? y - 1
                 then q ++ [(y - 1, new_start, new_end)] else q in
        {| coord_stack := q; fill_mask := mask' |}
    end.

(** Line 481: [for (x = start + 1; x < end; x++)], [k] columns left. *)
Fixpoint for_x (k : nat) (y x : Z) (st : fill_state) : fill_state :=
  match k with
  | O => st
  | S k' => for_x k' y (x + 1) (visit y x st)
  end.

(** One pass of the [do] body: pop a triple, scan its interval. *)
Definition pop_and_scan (st : fill_state) : fill_state :=
  match coord_stack st with
  | [] => st
  | (y, start, end_) :: rest =>
      for_x (Z.to_nat (end_ - (start + 1))) y (start + 1)
        {| coord_stack := rest; fill_mask := fill_mask st |}
  end.

(** Lines 475-516: [do ... while (! g_queue_is_empty (coord_stack))]. *)
Fixpoint drain (fuel : nat) (st : fill_state) : option fill_state :=
  match fuel with
  | O => None
  | S fuel' =>
      let st' := pop_and_scan st in
      match coord_stack st' with
      | [] => Some st'
      | _ :: _ => drain fuel' st'
      end
  end.

Definition find_contiguous_region_helper (fuel : nat)
           (mask_buffer : MaskBuffer) (x y : Z) : option MaskBuffer :=
  match drain fuel {| coord_stack := [(y, x - 1, x + 1)];
                      fill_mask := mask_buffer |} with
  | Some st => Some (fill_mask st)
  | None => None
  end.

End Helper.

(** ** Public entry points *)

(** What a call produces: [NULL] from a failed [g_return_val_if_fail], the
    mask, or no answer within the given number of work-list passes. *)
Inductive selection :=
| Rejected
| Unfinished
| Selected (mask : MaskBuffer).

(** The comparison format chosen at lines 106-112. *)
Definition comparison_format (f : Babl) : Babl :=
  if babl_format_is_palette f then RGBA_float
  else gimp_babl_format (babl_base_type f) (babl_format_has_alpha f).

(** Lines 125-141. *)
Definition seed_select_transparent (src_format : Babl) (start_col : color)
           (select_transparent : bool) : bool :=
  if babl_format_has_alpha src_format then
    if select_transparent then
      let n_components := babl_format_get_n_components src_format in
      if gt (chan start_col (n_components - 1)) zero then false
      else select_transparent
    else select_transparent
  else false.

(** Lines 78-149.  An argument that fails [GIMP_IS_IMAGE] or
    [GIMP_IS_DRAWABLE] (a null pointer, or an object of another type) is
    [None]; these two tests are the only ones made on entry.  [fuel] bounds
    the passes of the work-list loop. *)
Definition gimp_image_contiguous_region_by_seed (fuel : nat)
           (image : option GimpImage) (drawable : option GimpDrawable)
           (sample_merged antialias : bool) (threshold : gfloat)
           (select_transparent : bool) (select_criterion : GimpSelectCriterion)
           (x y : Z) : selection :=
  match image, drawable with
  | Some image, Some drawable =>
      let pickable :=
        if sample_merged then gimp_image_get_projection image else drawable in
      let src_format := comparison_format (pickable_format pickable) in
      let src_buffer := pickable in
      let mask_buffer :=
        gimp_channel_new_mask (pickable_width src_buffer)
          (pickable_height src_buffer) in
      let start_col := gegl_buffer_sample src_buffer x y src_format in
      let select_transparent :=
        seed_select_transparent src_format start_col select_transparent in
      match find_contiguous_region_helper src_buffer src_format
              select_transparent select_criterion antialias threshold
              start_col fuel mask_buffer x y with
      | Some mask => Selected mask
      | None => Unfinished
      end
  | _, _ => Rejected
  end.

(** Lines 199-212. *)
Definition color_select_transparent (has_alpha : bool) (col : color)
           (select_transparent : bool) : bool :=
  if has_alpha then
    if select_transparent then
      if gt (chan col 3) zero then false else select_transparent
    else select_transparent
  else false.

(** Lines 222-241: every cell of the mask receives the similarity of its
    pixel, read as "RGBA float". *)
Definition scan_all (src_buffer : GimpPickable) (eval : color -> gfloat)
  : MaskBuffer :=
  let width := pickable_width src_buffer in
  let height := pickable_height src_buffer in
  {| mask_width := width; mask_height := height;
     mask_cell := fun x y =>
       if in_extent width height x y
       then eval (pickable_pixel src_buffer RGBA_float x y) else zero;
     mask_writes :=
       flat_map (fun y => map (fun x =>
           (x, y, eval (pickable_pixel src_buffer RGBA_float x y)))
           (map Z.of_nat (seq 0 (Z.to_nat width))))
         (map Z.of_nat (seq 0 (Z.to_nat height))) |}.

(** [color] is the reference color already converted to "RGBA float"
    ([gimp_rgba_get_pixel]); [None] is the NULL pointer. *)
Definition gimp_image_contiguous_region_by_color
           (image : option GimpImage) (drawable : option GimpDrawable)
           (sample_merged antialias : bool) (threshold : gfloat)
           (select_transparent : bool) (select_criterion : GimpSelectCriterion)
           (color : option color) : selection :=
  match image, drawable, color with
  | Some image, Some drawable, Some col =>
      let pickable :=
        if sample_merged then gimp_image_get_projection image else drawable in
      let has_alpha := babl_format_has_alpha (pickable_format pickable) in
      let src_buffer := pickable in
      let select_transparent :=
        color_select_transparent has_alpha col select_transparent in
      Selected
        (scan_all src_buffer
           (fun src => pixel_difference col src antialias threshold
                         (if has_alpha then 4 else 3) has_alpha
                         select_transparent select_criterion))
  | _, _, _ => Rejected
  end.

(** * Vocabulary of the specification *)

(** ** Exact values of floats *)

(** Exact comparison of two positive finite numbers: both mantissas are
    scaled to the smaller exponent. *)
Definition scaled (m : positive) (e e0 : Z) : Z := Zpos m * 2 ^ (e - e0).

(** The rational number a finite float stands for. *)
Definition value (x : gfloat) : Q :=
  match x with
  | S754_finite s m e => (inject_Z (cond_Zopp s (Zpos m)) * 2 ^ e)%Q
  | _ => 0%Q
  end.

(** Finite and greater than 0. *)
Definition finite_positive (x : gfloat) : bool :=
  match x with
  | S754_finite false _ _ => true
  | _ => false
  end.

(** Sign of a result: negative, or a zero of either sign. *)
Definition not_positive (x : spec_float) : bool :=
  match x with
  | S754_zero _ => true
  | S754_infinity s => s
  | S754_finite s _ _ => s
  | S754_nan => false
  end.

(** Binary32 constants used in examples. *)
Definition f0_75 : gfloat := S754_finite false 12582912 (-24).      (* 0.75 *)
Definition f1_5 : gfloat := S754_finite false 12582912 (-23).       (* 1.5 *)
Definition f1_25 : gfloat := S754_finite false 10485760 (-23).      (* 1.25 *)

(** A binary32 number between 0 and 1: 0.0, 1.0, or a well-formed positive
    number whose exponent is below the one of 1.0. *)
Definition at_most_one (r : gfloat) : Prop :=
  r = zero \/ r = one \/
  exists m e, r = S754_finite false m e /\
              valid_binary 24 128 r = true /\ e <= -24.

(** A color whose channels are well-formed binary32 numbers, as every value
    of a C [float] is: the mantissa has 24 digits, or fewer at the least
    exponent. *)
Definition well_formed (c : color) : Prop :=
  Forall (fun v => valid_binary 24 128 v = true) c.

(** The slot a single-channel criterion reads, [col[1]] for G (line 293) and
    [col[2]] for B (line 297), is one of the [n_components] slots that
    sampling fills.  It is not on a gray format for G and B, nor on a gray
    format with alpha for B. *)
Definition criterion_sampled (n_components : Z)
           (select_criterion : GimpSelectCriterion) : bool :=
  match select_criterion with
  | GIMP_SELECT_CRITERION_G => 2 <=? n_components
  | GIMP_SELECT_CRITERION_B => 3 <=? n_components
  | _ => true
  end.

(** ** Columns of a bulk write, the write history *)

(** The columns [x, x+1, ...], [k] of them. *)
Fixpoint zseq (x : Z) (k : nat) : list Z :=
  match k with
  | O => []
  | S k' => x :: zseq (x + 1) k'
  end.

(** Those of them that lie at or right of column 0. *)
Definition kept_cols (x : Z) (k : nat) : list Z :=
  filter (fun c => 0 <=? c) (zseq x k).

(** The cell a store goes to. *)
Definition cell_of (w : Z * Z * gfloat) : Z * Z := (fst (fst w), snd (fst w)).

(** Cell [(c, r)] has been stored at least once. *)
Definition written (m : MaskBuffer) (c r : Z) : Prop :=
  In (c, r) (map cell_of (mask_writes m)).

(** The buffer obtained from the zero buffer by a list of stores. *)
Definition replay (l : list (Z * Z * gfloat)) : Z -> Z -> gfloat :=
  fold_left
    (fun f w x y =>
       if (x =? fst (fst w)) && (y =? snd (fst w)) then snd w else f x y)
    l (fun _ _ => zero).


(** Reading a cell of what a call returned. *)
Definition selected_cell (s : selection) (c r : Z) : option gfloat :=
  match s with
  | Selected m => Some (mask_sample m c r)
  | _ => None
  end.

(** ** One selection call *)

Section FillTerms.

Variables (src_buffer : GimpPickable) (format : Babl).
Variables (select_transparent : bool) (select_criterion : GimpSelectCriterion).
Variables (antialias : bool) (threshold : gfloat) (col : color).

Local Abbreviation W := (pickable_width src_buffer).
Local Abbreviation H := (pickable_height src_buffer).
Local Abbreviation visit_ :=
  (visit src_buffer format select_transparent select_criterion antialias
     threshold col).
Local Abbreviation for_x_ :=
  (for_x src_buffer format select_transparent select_criterion antialias
     threshold col).
Local Abbreviation pop_and_scan_ :=
  (pop_and_scan src_buffer format select_transparent select_criterion
     antialias threshold col).
Local Abbreviation drain_ :=
  (drain src_buffer format select_transparent select_criterion antialias
     threshold col).

(** The similarity of the pixel at column [c] of row [r] to [col]. *)
Definition similarity (c r : Z) : gfloat :=
  pixel_difference col (gegl_buffer_sample src_buffer c r format)
    antialias threshold (babl_format_get_n_components format)
    (babl_format_has_alpha format) select_transparent select_criterion.

(** The call of the segment finder at lines 491-498. *)
Definition segment (m : MaskBuffer) (x y : Z) : option (MaskBuffer * Z * Z) :=
  find_contiguous_segment col src_buffer m format
    (babl_format_get_n_components format) (babl_format_has_alpha format)
    (pickable_width src_buffer) select_transparent select_criterion
    antialias threshold x y.

(** What a successful call of the segment finder at [(x, y)] returns. *)
Record segment_post (m : MaskBuffer) (x y : Z) (m' : MaskBuffer) (s e : Z)
  : Prop := {
  seg_seed : nonzero (similarity x y) = true;
  seg_start : -1 <= s < x;
  seg_end : x < e <= W;
  seg_run : forall c, s < c < e -> nonzero (similarity c y) = true;
  seg_left_stop : 0 <= s -> nonzero (similarity s y) = false;
  seg_right_stop : e < W -> nonzero (similarity e y) = false;
  seg_width : mask_width m' = mask_width m;
  seg_height : mask_height m' = mask_height m;
  seg_writes :
    mask_writes m'
    = mask_writes m
        ++ map (fun c => (c, y, similarity c y))
             (kept_cols s (Z.to_nat (e - s)));
  seg_cells : forall c r,
      mask_cell m' c r
      = if (r =? y) && (s <=? c) && (0 <=? c) && (c <? e)
        then similarity c y else mask_cell m c r
}.

(** The invariant of the mask: the cells are the replay of the history; each
    store lies in the extent and carries the similarity of its pixel; no cell
    is stored twice; the stored cells of a row are whole runs of matching
    pixels, each with its left stop column when that column is in the
    buffer. *)
Record mask_ok (m : MaskBuffer) : Prop := {
  ok_width : mask_width m = W;
  ok_height : mask_height m = H;
  ok_replay : forall c r, mask_cell m c r = replay (mask_writes m) c r;
  ok_log : forall c r v,
      In (c, r, v) (mask_writes m) ->
      0 <= c < W /\ 0 <= r < H /\ v = similarity c r /\ mask_cell m c r = v;
  ok_blank : forall c r, ~ written m c r -> mask_cell m c r = zero;
  ok_nodup : NoDup (map cell_of (mask_writes m));
  ok_right : forall c r,
      written m c r -> nonzero (similarity c r) = true ->
      c + 1 < W -> nonzero (similarity (c + 1) r) = true ->
      written m (c + 1) r;
  ok_left : forall c r,
      written m c r -> nonzero (similarity c r) = true ->
      0 <= c - 1 -> nonzero (similarity (c - 1) r) = true ->
      written m (c - 1) r;
  ok_stop : forall c r,
      written m c r -> nonzero (similarity c r) = false ->
      written m (c + 1) r /\ nonzero (similarity (c + 1) r) = true
}.

(** Lines 501-513: the two pushes after a successful segment. *)
Definition push_rows (q : list (Z * Z * Z)) (y s e : Z) : list (Z * Z * Z) :=
  let q := if y + 1 <? H then q ++ [(y + 1, s, e)] else q in
  if 0 <=? y - 1 then q ++ [(y - 1, s, e)] else q.

(** The three ways through the body of the [for] loop. *)
Inductive visit_case (y x : Z) (st : fill_state) : Prop :=
| visit_claimed :
    nonzero (mask_cell (fill_mask st) x y) = true ->
    visit_ y x st = st -> visit_case y x st
| visit_no_match :
    nonzero (mask_cell (fill_mask st) x y) = false ->
    nonzero (similarity x y) = false ->
    visit_ y x st = st -> visit_case y x st
| visit_segment (m' : MaskBuffer) (s e : Z) :
    nonzero (mask_cell (fill_mask st) x y) = false ->
    segment_post (fill_mask st) x y m' s e ->
    visit_ y x st
    = {| coord_stack := push_rows (coord_stack st) y s e;
         fill_mask := m' |} ->
    visit_case y x st.

(** Every pending triple names a row of the buffer and bounds within
    [-1, W]. *)
Definition queue_ok (q : list (Z * Z * Z)) : Prop :=
  forall y s e, In (y, s, e) q -> 0 <= y < H /\ -1 <= s /\ e <= W.

(** The number of stores made so far. *)
Definition writes (st : fill_state) : nat :=
  length (mask_writes (fill_mask st)).

(** The invariant of the driver, with the bookkeeping of the work done
    since [st0]: every push is paid for by a cell stored for the first time. *)
Record state_ok (st0 st : fill_state) : Prop := {
  st_mask : mask_ok (fill_mask st);
  st_queue : queue_ok (coord_stack st);
  st_mono : (writes st0 <= writes st)%nat;
  st_paid : (length (coord_stack st) + 2 * writes st0
             <= length (coord_stack st0) + 2 * writes st)%nat
}.

(** The number of cells of the buffer. *)
Definition cells : nat := (Z.to_nat W * Z.to_nat H)%nat.

(** Lines 464-473: the state in which the [do] loop is entered. *)
Definition start_state (x y : Z) : fill_state :=
  {| coord_stack := [(y, x - 1, x + 1)];
     fill_mask := gimp_channel_new_mask W H |}.

(** Some cell of row [r] has been stored. *)
Definition row_written (m : MaskBuffer) (r : Z) : Prop :=
  exists c, written m c r.

(** Rows [r] and [r'] are next to each other. *)
Definition adjacent (r r' : Z) : Prop := r' = r + 1 \/ r' = r - 1.

(** Every triple names at least one column. *)
Definition intervals_ok (st : fill_state) : Prop :=
  forall y s e, In (y, s, e) (coord_stack st) -> s + 1 < e.

(** Next to a stored row, a row is stored, pending in the work list, or
    the row [y] that is being scanned. *)
Definition frontier (y : option Z) (st : fill_state) : Prop :=
  forall r r', 0 <= r < H -> 0 <= r' < H -> adjacent r r' ->
               row_written (fill_mask st) r ->
               row_written (fill_mask st) r' \/
               (exists s e, In (r', s, e) (coord_stack st)) \/
               y = Some r'.

(** The invariant of the driver when every pixel matches. *)
Definition spreading (st : fill_state) : Prop :=
  intervals_ok st /\ frontier None st /\
  ((exists r, row_written (fill_mask st) r) \/ coord_stack st <> []).

End FillTerms.

Arguments seg_seed {_ _ _ _ _ _ _} m x y m' s e _.
Arguments seg_start {_ _ _ _ _ _ _} m x y m' s e _.
Arguments seg_end {_ _ _ _ _ _ _} m x y m' s e _.
Arguments seg_run {_ _ _ _ _ _ _} m x y m' s e _.
Arguments seg_left_stop {_ _ _ _ _ _ _} m x y m' s e _.
Arguments seg_right_stop {_ _ _ _ _ _ _} m x y m' s e _.
Arguments seg_width {_ _ _ _ _ _ _} m x y m' s e _.
Arguments seg_height {_ _ _ _ _ _ _} m x y m' s e _.
Arguments seg_writes {_ _ _ _ _ _ _} m x y m' s e _.
Arguments seg_cells {_ _ _ _ _ _ _} m x y m' s e _.
Arguments ok_width {_ _ _ _ _ _ _} m _.
Arguments ok_height {_ _ _ _ _ _ _} m _.
Arguments ok_replay {_ _ _ _ _ _ _} m _.
Arguments ok_log {_ _ _ _ _ _ _} m _.
Arguments ok_blank {_ _ _ _ _ _ _} m _.
Arguments ok_nodup {_ _ _ _ _ _ _} m _.
Arguments ok_right {_ _ _ _ _ _ _} m _.
Arguments ok_left {_ _ _ _ _ _ _} m _.
Arguments ok_stop {_ _ _ _ _ _ _} m _.
Arguments st_mask {_ _ _ _ _ _ _} st0 st _.
Arguments st_queue {_ _ _ _ _ _ _} st0 st _.
Arguments st_mono {_ _ _ _ _ _ _} st0 st _.
Arguments st_paid {_ _ _ _ _ _ _} st0 st _.
Arguments visit_claimed {_ _ _ _ _ _ _} y x st _ _.
Arguments visit_no_match {_ _ _ _ _ _ _} y x st _ _ _.
Arguments visit_segment {_ _ _ _ _ _ _} y x st m' s e _ _ _.

(** ** The region of a seed *)

(** Two cells next to each other, along a row or along a column. *)
Definition next_to (c r c' r' : Z) : Prop :=
  (r' = r /\ (c' = c + 1 \/ c' = c - 1)) \/
  (c' = c /\ (r' = r + 1 \/ r' = r - 1)).

(** A walk from [(x, y)] to [(c, r)]: every cell of it lies in [region] and
    every step goes to a cell next to the last one. *)
Inductive joined (region : Z -> Z -> Prop) (x y : Z) : Z -> Z -> Prop :=
| joined_seed : region x y -> joined region x y x y
| joined_step (c r c' r' : Z) :
    joined region x y c r -> next_to c r c' r' -> region c' r' ->
    joined region x y c' r'.

(** A selected cell of a mask: [val != 0.0]. *)
Definition selected (m : MaskBuffer) (c r : Z) : Prop :=
  nonzero (mask_cell m c r) = true.

Section RegionTerms.

Variables (src_buffer : GimpPickable) (format : Babl).
Variables (select_transparent : bool) (select_criterion : GimpSelectCriterion).
Variables (antialias : bool) (threshold : gfloat) (col : color).
Variables (x y : Z).

(** A pixel of the buffer that the similarity function accepts. *)
Definition matching (c r : Z) : Prop :=
  0 <= c < pickable_width src_buffer /\ 0 <= r < pickable_height src_buffer /\
  nonzero (similarity src_buffer format select_transparent select_criterion
             antialias threshold col c r) = true.

(** Why a column of row [r] is in the work list: it is the seed, or the cell
    above or below it is selected and joined to the seed. *)
Definition rooted (m : MaskBuffer) (c r : Z) : Prop :=
  (c = x /\ r = y) \/
  exists r', adjacent r r' /\ joined (selected m) x y c r'.

(** Every selected cell is joined to the seed through selected cells, and
    every pending column is rooted. *)
Definition grown (st : fill_state) : Prop :=
  (forall c r, selected (fill_mask st) c r ->
               joined (selected (fill_mask st)) x y c r) /\
  (forall r s e c, In (r, s, e) (coord_stack st) -> s < c < e ->
                   rooted (fill_mask st) c r).

(** The search will still look at column [c] of row [r]: the column is
    pending in the work list, or it is in the part [lo, hi) of the row being
    scanned that is still to come. *)
Definition awaited (cur : option (Z * Z * Z)) (st : fill_state) (c r : Z)
  : Prop :=
  (exists s e, In (r, s, e) (coord_stack st) /\ s < c < e) \/
  (exists lo hi, cur = Some (r, lo, hi) /\ lo <= c < hi).

(** Nothing is left to do at a cell, or the search will come to it. *)
Definition settled (cur : option (Z * Z * Z)) (st : fill_state) (c r : Z)
  : Prop :=
  written (fill_mask st) c r \/
  nonzero (similarity src_buffer format select_transparent select_criterion
             antialias threshold col c r) = false \/
  awaited cur st c r.

(** The seed is settled, and so are the cells above and below every stored
    cell of a matching pixel. *)
Definition closed (cur : option (Z * Z * Z)) (st : fill_state) : Prop :=
  settled cur st x y /\
  forall c r r',
    written (fill_mask st) c r ->
    nonzero (similarity src_buffer format select_transparent select_criterion
               antialias threshold col c r) = true ->
    adjacent r r' -> 0 <= r' < pickable_height src_buffer ->
    settled cur st c r'.

End RegionTerms.

(** ** One call of the seeded entry point *)

Section SeedTerms.

Variables (image : GimpImage) (drawable : GimpDrawable).
Variables (sample_merged antialias : bool) (threshold : gfloat).
Variables (select_transparent : bool) (select_criterion : GimpSelectCriterion).
Variables (x y : Z).

(** The pickable that is scanned, its comparison format, the color sampled
    at the seed and the transparency switch after lines 125-141. *)
Definition seed_source : GimpPickable :=
  if sample_merged then gimp_image_get_projection image else drawable.

Definition seed_format : Babl := comparison_format (pickable_format seed_source).

Definition seed_color : color := gegl_buffer_sample seed_source x y seed_format.

Definition seed_transparent : bool :=
  seed_select_transparent seed_format seed_color select_transparent.

(** The similarity of a pixel to the seed color, as the call evaluates it. *)
Definition seed_similarity (c r : Z) : gfloat :=
  similarity seed_source seed_format seed_transparent select_criterion
    antialias threshold seed_color c r.

(** One pass of the driver of this call, and the state it starts from. *)
Definition seed_pass : fill_state -> fill_state :=
  pop_and_scan seed_source seed_format seed_transparent select_criterion
    antialias threshold seed_color.

Definition seed_start : fill_state := start_state seed_source x y.

(** The invariant of the mask for this call. *)
Definition seed_ok : MaskBuffer -> Prop :=
  mask_ok seed_source seed_format seed_transparent select_criterion
    antialias threshold seed_color.

(** The pixels of the source that the call accepts. *)
Definition seed_matching : Z -> Z -> Prop :=
  matching seed_source seed_format seed_transparent select_criterion
    antialias threshold seed_color.

End SeedTerms.

(** ** Sample images *)

Definition white : color := [one; one; one].
Definition black : color := [zero; zero; zero].
Definition RGB_float : Babl := gimp_babl_format GIMP_RGB false.

(** 3 x 2, RGB: black at (0, 0), white elsewhere. *)
Definition strip : GimpPickable :=
  {| pickable_format := RGB_float;
     pickable_width := 3; pickable_height := 2;
     pickable_pixel := fun _ c r =>
       if (c =? 0) && (r =? 0) then black else white |}.

(** 1 x 1, RGBA: one fully transparent pixel. *)
Definition clear : GimpPickable :=
  {| pickable_format := RGBA_float;
     pickable_width := 1; pickable_height := 1;
     pickable_pixel := fun _ _ _ => [zero; zero; zero; zero] |}.

(** 2 x 1, RGBA: an opaque pixel and, right of it, the same color with
    alpha 0. *)
Definition hole : GimpPickable :=
  {| pickable_format := RGBA_float;
     pickable_width := 2; pickable_height := 1;
     pickable_pixel := fun _ c _ =>
       if c =? 0 then [one; zero; zero; one] else [one; zero; zero; zero] |}.

(** 3 x 3, RGB: white everywhere. *)
Definition snow : GimpPickable :=
  {| pickable_format := RGB_float;
     pickable_width := 3; pickable_height := 3;
     pickable_pixel := fun _ _ _ => white |}.

Definition image_of (p : GimpPickable) : GimpImage :=
  {| gimp_image_get_projection := p |}.

(** * Properties *)

(** Case analysis on every integer comparison of the goal. *)
Ltac zcases :=
  repeat match goal with
    | |- context [Z.eqb ?a ?b] => destruct (Z.eqb_spec a b)
    | |- context [Z.leb ?a ?b] => destruct (Z.leb_spec a b)
    | |- context [Z.ltb ?a ?b] => destruct (Z.ltb_spec a b)
    end;
  simpl; try lia; try reflexivity; try congruence.

(** ** Facts about the floating-point layer *)

Lemma nonzero_zero : nonzero zero = false.
Proof. reflexivity. Qed.

Lemma nonzero_one : nonzero one = true.
Proof. reflexivity. Qed.

(** Rounding an integer keeps the sign that is passed in. *)
Lemma binary_round_opp (prec emax : Z) (m : positive) (e : Z) :
  SFopp (binary_round prec emax false m e) = binary_round prec emax true m e.
Proof.
  unfold binary_round.
  destruct (shl_align m e _) as [mz ez].
  unfold binary_round_aux.
  destruct (shr_fexp prec emax (Z.pos mz) ez loc_Exact) as [mrs1 e1].
  destruct (shr_fexp prec emax _ e1 loc_Exact) as [mrs2 e2].
  destruct (shr_m mrs2); try reflexivity.
  destruct (e2 <=? emax - prec); reflexivity.
Qed.

Lemma binary_normalize_opp (prec emax m e : Z) :
  m <> 0 ->
  SFopp (binary_normalize prec emax m e false)
  = binary_normalize prec emax (- m) e false.
Proof.
  destruct m as [|p|p]; intros Hm; try contradiction; simpl.
  - apply binary_round_opp.
  - rewrite <- binary_round_opp. 
    destruct (binary_round prec emax false p e) as [[]|[]| |[] ? ?]; reflexivity.
Qed.

Lemma SFabs_opp (x : spec_float) : SFabs (SFopp x) = SFabs x.
Proof. destruct x; reflexivity. Qed.

(** [|a - b|] does not depend on the order of the operands. *)
Lemma fabs_sub_comm (a b : gfloat) : fabs (sub32 a b) = fabs (sub32 b a).
Proof.
  unfold fabs, sub32.
  destruct a as [sa|sa| |sa ma ea], b as [sb|sb| |sb mb eb];
    try (destruct sa, sb; reflexivity); try reflexivity.
  unfold SFsub. rewrite (Z.min_comm eb ea).
  set (x := cond_Zopp sa _). set (y := cond_Zopp sb _).
  destruct (Z.eq_dec (x - y) 0) as [E|E].
  - replace (y - x) with 0 by lia. rewrite E. reflexivity.
  - replace (y - x) with (- (x - y)) by lia.
    rewrite <- binary_normalize_opp by exact E. now rewrite SFabs_opp.
Qed.

(** A value compared with itself: the difference is 0 or not a number, and
    in both cases it is not greater than anything non-negative. *)
Lemma fabs_sub_self (a : gfloat) :
  fabs (sub32 a a) = zero \/ fabs (sub32 a a) = S754_nan.
Proof.
  unfold fabs, sub32.
  destruct a as [[]|[]| |s m e]; simpl; auto.
  rewrite Z.sub_diag. now left.
Qed.

Lemma fabs_sub_self_gt (a t : gfloat) :
  eq t zero = true -> gt (fabs (sub32 a a)) t = false.
Proof.
  intros Ht. destruct (fabs_sub_self a) as [-> | ->].
  - destruct t as [[]|[]| |[] ? ?]; try discriminate; reflexivity.
  - destruct t as [[]|[]| |[] ? ?]; reflexivity.
Qed.

(** The order of [SFcompare] is transitive. *)
Lemma SFltb_leb_trans (a b c : spec_float) :
  SFltb a b = true -> SFleb b c = true -> SFltb a c = true.
Proof.
  unfold SFltb, SFleb.
  destruct a as [sa|sa| |sa ma ea], b as [sb|sb| |sb mb eb],
           c as [sc|sc| |sc mc ec]; simpl;
    try discriminate; try (destruct sa, sb, sc; simpl; congruence);
    try (destruct sa, sb; simpl; congruence);
    try (destruct sa, sc; simpl; congruence);
    try (destruct sb, sc; simpl; congruence).
  rewrite ?Pos.compare_cont_spec; simpl.
  destruct sa, sb, sc; simpl; try congruence;
    destruct (Z.compare_spec ea eb), (Z.compare_spec eb ec);
    try discriminate;
    destruct (Z.compare_spec ea ec); try lia; try congruence;
    destruct (Pos.compare_spec ma mb), (Pos.compare_spec mb mc);
    simpl; try discriminate;
    destruct (Pos.compare_spec ma mc); simpl; try lia; try congruence.
Qed.

Lemma SFleb_ltb_trans (a b c : spec_float) :
  SFleb a b = true -> SFltb b c = true -> SFltb a c = true.
Proof.
  unfold SFltb, SFleb.
  destruct a as [sa|sa| |sa ma ea], b as [sb|sb| |sb mb eb],
           c as [sc|sc| |sc mc ec]; simpl;
    try discriminate; try (destruct sa, sb, sc; simpl; congruence);
    try (destruct sa, sb; simpl; congruence);
    try (destruct sa, sc; simpl; congruence);
    try (destruct sb, sc; simpl; congruence).
  rewrite ?Pos.compare_cont_spec; simpl.
  destruct sa, sb, sc; simpl; try congruence;
    destruct (Z.compare_spec ea eb), (Z.compare_spec eb ec);
    try discriminate;
    destruct (Z.compare_spec ea ec); try lia; try congruence;
    destruct (Pos.compare_spec ma mb), (Pos.compare_spec mb mc);
    simpl; try discriminate;
    destruct (Pos.compare_spec ma mc); simpl; try lia; try congruence.
Qed.

Lemma SFleb_trans (a b c : spec_float) :
  SFleb a b = true -> SFleb b c = true -> SFleb a c = true.
Proof.
  unfold SFleb.
  destruct a as [sa|sa| |sa ma ea], b as [sb|sb| |sb mb eb],
           c as [sc|sc| |sc mc ec]; simpl;
    try discriminate; try (destruct sa, sb, sc; simpl; congruence);
    try (destruct sa, sb; simpl; congruence);
    try (destruct sa, sc; simpl; congruence);
    try (destruct sb, sc; simpl; congruence).
  rewrite ?Pos.compare_cont_spec; simpl.
  destruct sa, sb, sc; simpl; try congruence;
    destruct (Z.compare_spec ea eb), (Z.compare_spec eb ec);
    try discriminate;
    destruct (Z.compare_spec ea ec); try lia; try congruence;
    destruct (Pos.compare_spec ma mb), (Pos.compare_spec mb mc);
    simpl; try discriminate;
    destruct (Pos.compare_spec ma mc); simpl; try lia; try congruence.
Qed.

Lemma SFltb_leb (a b : spec_float) : SFltb a b = true -> SFleb a b = true.
Proof.
  unfold SFltb, SFleb. destruct (SFcompare a b) as [[]|]; congruence.
Qed.

Lemma SFltb_not_nan (a b : spec_float) :
  SFltb a b = true -> a <> S754_nan /\ b <> S754_nan.
Proof.
  destruct a as [sa|sa| |sa ma ea], b as [sb|sb| |sb mb eb];
    try discriminate; intros _; split; discriminate.
Qed.

Lemma SFleb_refl (a : spec_float) : a <> S754_nan -> SFleb a a = true.
Proof.
  unfold SFleb. destruct a as [[]|[]| |[] m e]; try reflexivity;
    try (intros H; now contradiction H); intros _; simpl;
    rewrite Z.compare_refl, ?Pos.compare_cont_spec, Pos.compare_refl;
    reflexivity.
Qed.

(** Among numbers the order is total. *)
Lemma SFleb_total (a b : spec_float) :
  a <> S754_nan -> b <> S754_nan -> SFltb a b = false -> SFleb b a = true.
Proof.
  unfold SFltb, SFleb.
  destruct a as [sa|sa| |sa ma ea], b as [sb|sb| |sb mb eb]; simpl;
    try (intros H; now contradiction H);
    try (intros _ H; now contradiction H);
    intros _ _;
    try (destruct sa, sb; simpl; congruence);
    try (destruct sa; simpl; congruence);
    try (destruct sb; simpl; congruence).
  rewrite !Pos.compare_cont_spec. simpl.
  destruct sa, sb; simpl; try congruence;
    destruct (Z.compare_spec ea eb), (Z.compare_spec eb ea);
    try lia; try congruence;
    destruct (Pos.compare_spec ma mb), (Pos.compare_spec mb ma);
    simpl; try lia; try congruence.
Qed.

(** The order of [SFcompare] is antisymmetric. *)
Lemma SFleb_not_gt (a b : spec_float) : SFleb a b = true -> SFltb b a = false.
Proof.
  unfold SFleb, SFltb.
  destruct a as [sa|sa| |sa ma ea], b as [sb|sb| |sb mb eb]; simpl;
    try reflexivity; try discriminate;
    try (destruct sa, sb; simpl; congruence);
    try (destruct sa; simpl; congruence);
    try (destruct sb; simpl; congruence).
  rewrite !Pos.compare_cont_spec. simpl.
  destruct sa, sb; simpl; try congruence;
    destruct (Z.compare_spec ea eb), (Z.compare_spec eb ea);
    try lia; try congruence;
    destruct (Pos.compare_spec ma mb), (Pos.compare_spec mb ma);
    simpl; try lia; try congruence.
Qed.

Lemma gt_zero_not_eq (a : gfloat) : gt a zero = true -> eq a zero = false.
Proof. destruct a as [[]|[]| |[] ? ?]; cbv; intros; congruence. Qed.

(** ** Rounding and division at binary32

    What [SFdiv] returns for two positive finite numbers whose exact ratio is
    3/4 or at least 3/2: the facts behind the boundary values of the
    antialias ramp. *)

(** The number of binary digits. *)
Lemma digits2_pos_bounds (m : positive) :
  2 ^ (Zpos (digits2_pos m) - 1) <= Zpos m < 2 ^ Zpos (digits2_pos m).
Proof.
  induction m as [m IH|m IH|]; simpl digits2_pos.
  - rewrite Pos2Z.inj_succ.
    replace (Z.succ (Zpos (digits2_pos m)) - 1) with (Zpos (digits2_pos m) - 1 + 1) by lia.
    rewrite Z.pow_succ_r by lia. rewrite Z.pow_add_r by lia.
    change (2 ^ 1) with 2. lia.
  - rewrite Pos2Z.inj_succ.
    replace (Z.succ (Zpos (digits2_pos m)) - 1) with (Zpos (digits2_pos m) - 1 + 1) by lia.
    rewrite Z.pow_succ_r by lia. rewrite Z.pow_add_r by lia.
    change (2 ^ 1) with 2. lia.
  - simpl. lia.
Qed.

Lemma digits2_pos_unique (m : positive) (d : Z) :
  2 ^ (d - 1) <= Zpos m < 2 ^ d -> Zpos (digits2_pos m) = d.
Proof.
  intros [Hl Hu]. pose proof (digits2_pos_bounds m) as [Bl Bu].
  destruct (Z_lt_le_dec d (Zpos (digits2_pos m))) as [H|H].
  - assert (2 ^ d <= 2 ^ (Zpos (digits2_pos m) - 1)).
    { apply Z.pow_le_mono_r; lia. } lia.
  - destruct (Z_lt_le_dec (Zpos (digits2_pos m)) d) as [H'|H']; [|lia].
    assert (2 ^ Zpos (digits2_pos m) <= 2 ^ (d - 1)).
    { apply Z.pow_le_mono_r; lia. } lia.
Qed.

(** Shifting a mantissa right divides it by a power of two. *)
Lemma shr_1_m (mrs : shr_record) :
  0 <= shr_m mrs -> shr_m (shr_1 mrs) = shr_m mrs / 2.
Proof.
  destruct mrs as [m r s]. simpl. intros Hm.
  destruct m as [|[p|p|]|p]; simpl; try lia; try reflexivity.
  - rewrite Pos2Z.inj_xI. apply Z.div_unique with (r := 1); lia.
  - rewrite Pos2Z.inj_xO. apply Z.div_unique with (r := 0); lia.
Qed.

Lemma iter_pos_shr_m (n : positive) :
  forall mrs, 0 <= shr_m mrs ->
    shr_m (iter_pos shr_1 n mrs) = shr_m mrs / 2 ^ Zpos n.
Proof.
  induction n as [n IH|n IH|]; intros mrs Hm; simpl iter_pos.
  - assert (H1 : 0 <= shr_m (shr_1 mrs)).
    { rewrite shr_1_m by exact Hm. apply Z.div_pos; lia. }
    assert (H2 : 0 <= shr_m (iter_pos shr_1 n (shr_1 mrs))).
    { rewrite IH by exact H1. apply Z.div_pos; [exact H1|]. apply Z.pow_pos_nonneg; lia. }
    rewrite IH by exact H2. rewrite IH by exact H1. rewrite shr_1_m by exact Hm.
    rewrite !Z.div_div by (try lia; apply Z.pow_pos_nonneg; lia).
    f_equal. replace (Zpos n~1) with (1 + Zpos n + Zpos n) by lia.
    rewrite !Z.pow_add_r by lia. change (2 ^ 1) with 2. lia.
  - assert (H2 : 0 <= shr_m (iter_pos shr_1 n mrs)).
    { rewrite IH by exact Hm. apply Z.div_pos; [exact Hm|]. apply Z.pow_pos_nonneg; lia. }
    rewrite IH by exact H2. rewrite IH by exact Hm.
    rewrite !Z.div_div by (try lia; apply Z.pow_pos_nonneg; lia).
    f_equal. replace (Zpos n~0) with (Zpos n + Zpos n) by lia.
    rewrite !Z.pow_add_r by lia. lia.
  - rewrite shr_1_m by exact Hm. reflexivity.
Qed.

Lemma round_nearest_even_cases (m : Z) (l : location) :
  round_nearest_even m l = m \/ round_nearest_even m l = m + 1.
Proof.
  destruct l as [|[]]; simpl; auto. destruct (Z.even m); auto.
Qed.

Lemma shr_m_of_loc (m : Z) (l : location) : shr_m (shr_record_of_loc m l) = m.
Proof. destruct l as [|[]]; reflexivity. Qed.

Lemma fexp32 (x : Z) : -125 <= x -> fexp 24 128 x = x - 24.
Proof. intros H. unfold fexp, emin. lia. Qed.

Lemma pow2_23 : 2 ^ 23 = 8388608. Proof. reflexivity. Qed.
Lemma pow2_24 : 2 ^ 24 = 16777216. Proof. reflexivity. Qed.

(** The first shift of [binary_round_aux]. *)
Lemma shr_fexp_first (q : positive) (e' : Z) (l : location) :
  let dq := Zpos (digits2_pos q) in
  24 <= dq -> -125 <= dq + e' ->
  forall mrs e1,
    shr_fexp 24 128 (Zpos q) e' l = (mrs, e1) ->
    shr_m mrs = Zpos q / 2 ^ (dq - 24) /\ e1 = e' + (dq - 24).
Proof.
  intros dq Hd He mrs e1 E. unfold shr_fexp in E.
  change (Zdigits2 (Zpos q)) with dq in E.
  rewrite fexp32 in E by exact He.
  replace (dq + e' - 24 - e') with (dq - 24) in E by lia.
  unfold shr in E. destruct (dq - 24) as [|p|p] eqn:En; try lia.
  - inversion E; subst. rewrite shr_m_of_loc. simpl. rewrite Z.div_1_r. lia.
  - inversion E; subst. rewrite iter_pos_shr_m; rewrite shr_m_of_loc; [|lia].
    split; [reflexivity|lia].
Qed.

(** What [binary_round_aux] returns for a mantissa of at least 24 digits in
    the normal range: the mantissa cut to 24 digits, or the next one. *)
Lemma round_aux_spec (s : bool) (q : positive) (e' : Z) (l : location) :
  let dq := Zpos (digits2_pos q) in
  24 <= dq -> -125 <= dq + e' ->
  let m1 := Zpos q / 2 ^ (dq - 24) in
  let e1 := e' + (dq - 24) in
  2 ^ 23 <= m1 < 2 ^ 24 /\
  exists m3 e3,
    ((m3 = m1 /\ e3 = e1) \/
     (m3 = m1 + 1 /\ m1 + 1 < 2 ^ 24 /\ e3 = e1) \/
     (m3 = 2 ^ 23 /\ m1 + 1 = 2 ^ 24 /\ e3 = e1 + 1)) /\
    binary_round_aux 24 128 s (Zpos q) e' l
    = if e3 <=? 104 then S754_finite s (Z.to_pos m3) e3 else S754_infinity s.
Proof.
  intros dq Hd He m1 e1.
  pose proof (digits2_pos_bounds q) as [Bl Bu]. fold dq in Bl, Bu.
  assert (Hp : 0 < 2 ^ (dq - 24)) by (apply Z.pow_pos_nonneg; lia).
  assert (Hm1 : 2 ^ 23 <= m1 < 2 ^ 24).
  { unfold m1. split.
    - apply Z.div_le_lower_bound; [exact Hp|].
      rewrite <- Z.pow_add_r by lia.
      replace (dq - 24 + 23) with (dq - 1) by lia. exact Bl.
    - apply Z.div_lt_upper_bound; [exact Hp|].
      rewrite <- Z.pow_add_r by lia.
      replace (dq - 24 + 24) with dq by lia. exact Bu. }
  split; [exact Hm1|].
  unfold binary_round_aux.
  destruct (shr_fexp 24 128 (Zpos q) e' l) as [mrs e1'] eqn:E1.
  destruct (shr_fexp_first q e' l Hd He mrs e1' E1) as [Hmrs He1].
  fold dq in Hmrs, He1. fold m1 in Hmrs. fold e1 in He1. subst e1'.
  set (m2 := round_nearest_even (shr_m mrs) (loc_of_shr_record mrs)).
  assert (Hm2 : m2 = m1 \/ m2 = m1 + 1).
  { unfold m2. rewrite <- Hmrs. apply round_nearest_even_cases. }
  rewrite pow2_23, pow2_24 in *.
  destruct (Z_lt_le_dec m2 16777216) as [Hlt|Hge].
  - (* no carry *)
    assert (Hpos : 0 < m2) by lia.
    destruct m2 as [|p2|p2] eqn:Em2; try lia.
    assert (Hd2 : Zpos (digits2_pos p2) = 24).
    { apply digits2_pos_unique. rewrite pow2_24. change (2 ^ (24 - 1)) with 8388608. lia. }
    unfold shr_fexp. simpl Zdigits2. rewrite Hd2.
    rewrite fexp32 by (unfold e1; lia).
    replace (24 + e1 - 24 - e1) with 0 by lia. simpl shr. simpl shr_m.
    exists (Zpos p2), e1. split.
    + destruct Hm2 as [Hm2|Hm2]; [left|right; left]; lia.
    + reflexivity.
  - (* carry into a 25th digit *)
    assert (Em2 : m2 = 16777216) by lia.
    rewrite Em2. unfold shr_fexp. simpl Zdigits2.
    rewrite fexp32 by (unfold e1; lia).
    replace (25 + e1 - 24 - e1) with 1 by lia. simpl.
    exists 8388608, (e1 + 1). split.
    + right; right. lia.
    + reflexivity.
Qed.

Lemma pow2_pos (k : Z) : 0 <= k -> 0 < 2 ^ k.
Proof. intros. apply Z.pow_pos_nonneg; lia. Qed.

Lemma pow2_le (a b : Z) : 0 <= a <= b -> 2 ^ a <= 2 ^ b.
Proof. intros. apply Z.pow_le_mono_r; lia. Qed.

Lemma pow2_lt_inv (a b : Z) : 0 <= a -> 0 <= b -> 2 ^ a < 2 ^ b -> a < b.
Proof. intros Ha Hb H. apply (Z.pow_lt_mono_r_iff 2); lia. Qed.

Lemma shift_mantissa (m s : Z) :
  0 <= s ->
  match s with
  | 0 => m
  | Zpos _ => Z.shiftl m s
  | Zneg _ => 0
  end = m * 2 ^ s.
Proof.
  intros Hs. destruct s as [|p|p]; try lia.
  now rewrite Z.shiftl_mul_pow2 by lia.
Qed.

(** The core of the division, in the normal range. *)
Lemma div_core_spec (mx my : positive) (ex ey : Z) :
  let D := Zpos (digits2_pos mx) + ex - (Zpos (digits2_pos my) + ey) in
  -125 <= D ->
  exists (q : positive) (l : location) (s : Z),
    SFdiv_core_binary 24 128 (Zpos mx) ex (Zpos my) ey
    = (Zpos q, ex - ey - s, l) /\
    0 <= s /\
    Zpos q = (Zpos mx * 2 ^ s) / Zpos my /\
    24 <= Zpos (digits2_pos q) /\
    -125 <= Zpos (digits2_pos q) + (ex - ey - s).
Proof.
  intros D HD. unfold SFdiv_core_binary.
  change (Zdigits2 (Zpos mx)) with (Zpos (digits2_pos mx)).
  change (Zdigits2 (Zpos my)) with (Zpos (digits2_pos my)).
  fold D. rewrite fexp32 by exact HD.
  set (e' := Z.min (D - 24) (ex - ey)).
  set (s := ex - ey - e').
  assert (Hs : 0 <= s) by (unfold s, e'; lia).
  set (m' := match s with
             | 0 => Zpos mx
             | Zpos _ => Z.shiftl (Zpos mx) s
             | Zneg _ => 0
             end).
  assert (Hm' : m' = Zpos mx * 2 ^ s).
  { unfold m'. now apply shift_mantissa. }
  pose proof (digits2_pos_bounds mx) as [Xl Xu].
  pose proof (digits2_pos_bounds my) as [Yl Yu].
  set (d1 := Zpos (digits2_pos mx)) in *.
  set (d2 := Zpos (digits2_pos my)) in *.
  assert (Hd1 : 1 <= d1) by (unfold d1; lia).
  assert (Hd2 : 1 <= d2) by (unfold d2; lia).
  set (k := d1 - 1 + s - d2).
  assert (Hk : 23 <= k) by (unfold k, s, e', D in *; lia).
  assert (Hq : 2 ^ k <= m' / Zpos my).
  { apply Z.div_le_lower_bound; [lia|]. rewrite Hm'.
    assert (Zpos my * 2 ^ k <= 2 ^ d2 * 2 ^ k).
    { apply Z.mul_le_mono_nonneg_r; [|lia]. apply Z.lt_le_incl, pow2_pos. lia. }
    assert (2 ^ d2 * 2 ^ k = 2 ^ (d1 - 1) * 2 ^ s).
    { rewrite <- !Z.pow_add_r by lia. f_equal. unfold k. lia. }
    assert (2 ^ (d1 - 1) * 2 ^ s <= Zpos mx * 2 ^ s).
    { apply Z.mul_le_mono_nonneg_r; [|lia]. apply Z.lt_le_incl, pow2_pos. lia. }
    lia. }
  assert (Hk0 : 0 < 2 ^ k) by (apply pow2_pos; lia).
  assert (Hde : Z.div_eucl m' (Zpos my) = (m' / Zpos my, m' mod Zpos my)).
  { unfold Z.div, Z.modulo. now destruct (Z.div_eucl m' (Zpos my)). }
  destruct (m' / Zpos my) as [|q|q] eqn:Eq; try lia.
  exists q, (new_location (Zpos my) (m' mod Zpos my)), s.
  split.
  - rewrite Hde.
    replace (ex - ey - s) with e' by (unfold s; lia). reflexivity.
  - split; [exact Hs|]. split; [now rewrite <- Hm'|].
    pose proof (digits2_pos_bounds q) as [Ql Qu].
    assert (Hdq : k < Zpos (digits2_pos q)).
    { apply pow2_lt_inv; lia. }
    split; [lia|]. unfold k, s, e', D in *. lia.
Qed.

(** The quotient of two positive finite numbers in the normal range. *)
Lemma div32_spec (mx my : positive) (ex ey : Z) :
  -125 <= Zpos (digits2_pos mx) + ex - (Zpos (digits2_pos my) + ey) ->
  exists s n m1 e1 m3 e3,
    0 <= s /\ 0 <= n /\ e1 = ex - ey - s + n /\
    m1 = (Zpos mx * 2 ^ s) / (Zpos my * 2 ^ n) /\
    2 ^ 23 <= m1 < 2 ^ 24 /\
    ((m3 = m1 /\ e3 = e1) \/
     (m3 = m1 + 1 /\ m1 + 1 < 2 ^ 24 /\ e3 = e1) \/
     (m3 = 2 ^ 23 /\ m1 + 1 = 2 ^ 24 /\ e3 = e1 + 1)) /\
    SFdiv 24 128 (S754_finite false mx ex) (S754_finite false my ey)
    = if e3 <=? 104 then S754_finite false (Z.to_pos m3) e3
      else S754_infinity false.
Proof.
  intros HD.
  destruct (div_core_spec mx my ex ey HD) as (q & l & s & E & Hs & Hq & Hd & He).
  destruct (round_aux_spec false q (ex - ey - s) l Hd He)
    as (Hm1 & m3 & e3 & Hcases & Hres).
  exists s, (Zpos (digits2_pos q) - 24),
    (Zpos q / 2 ^ (Zpos (digits2_pos q) - 24)),
    (ex - ey - s + (Zpos (digits2_pos q) - 24)), m3, e3.
  split; [exact Hs|]. split; [lia|]. split; [reflexivity|]. split.
  - rewrite Hq. apply Z.div_div; [lia|]. apply pow2_pos. lia.
  - split; [exact Hm1|]. split; [exact Hcases|].
    unfold SFdiv. rewrite E. exact Hres.
Qed.

Section Scale.

Variables (mx my : positive) (ex ey : Z) (num den : Z).

Lemma scale_le (a b : Z) :
  num * scaled my ey (Z.min ex ey) <= den * scaled mx ex (Z.min ex ey) ->
  0 <= a -> 0 <= b -> a - b = ex - ey ->
  num * (Zpos my * 2 ^ b) <= den * (Zpos mx * 2 ^ a).
Proof.
  unfold scaled. intros H Ha Hb Hab.
  set (e0 := Z.min ex ey) in *.
  set (t := a - (ex - e0)).
  assert (Ht : 0 <= t) by (unfold t, e0; lia).
  replace a with (ex - e0 + t) by (unfold t; lia).
  replace b with (ey - e0 + t) by (unfold t, e0; lia).
  rewrite !Z.pow_add_r by lia.
  pose proof (pow2_pos t Ht) as Hp.
  replace (num * (Zpos my * (2 ^ (ey - e0) * 2 ^ t)))
    with (num * (Zpos my * 2 ^ (ey - e0)) * 2 ^ t) by ring.
  replace (den * (Zpos mx * (2 ^ (ex - e0) * 2 ^ t)))
    with (den * (Zpos mx * 2 ^ (ex - e0)) * 2 ^ t) by ring.
  apply Z.mul_le_mono_nonneg_r; lia.
Qed.

Lemma scale_eq (a b : Z) :
  num * scaled my ey (Z.min ex ey) = den * scaled mx ex (Z.min ex ey) ->
  0 <= a -> 0 <= b -> a - b = ex - ey ->
  num * (Zpos my * 2 ^ b) = den * (Zpos mx * 2 ^ a).
Proof.
  unfold scaled. intros H Ha Hb Hab.
  set (e0 := Z.min ex ey) in *.
  set (t := a - (ex - e0)).
  assert (Ht : 0 <= t) by (unfold t, e0; lia).
  replace a with (ex - e0 + t) by (unfold t; lia).
  replace b with (ey - e0 + t) by (unfold t, e0; lia).
  rewrite !Z.pow_add_r by lia.
  replace (num * (Zpos my * (2 ^ (ey - e0) * 2 ^ t)))
    with (num * (Zpos my * 2 ^ (ey - e0)) * 2 ^ t) by ring.
  replace (den * (Zpos mx * (2 ^ (ex - e0) * 2 ^ t)))
    with (den * (Zpos mx * 2 ^ (ex - e0)) * 2 ^ t) by ring.
  now rewrite H.
Qed.

End Scale.

(** A ratio of at least 3/4 is in the normal range. *)
Lemma ratio_normal (mx my : positive) (ex ey : Z) :
  3 * scaled my ey (Z.min ex ey) <= 4 * scaled mx ex (Z.min ex ey) ->
  -1 <= Zpos (digits2_pos mx) + ex - (Zpos (digits2_pos my) + ey).
Proof.
  intros H.
  pose proof (digits2_pos_bounds mx) as [Xl Xu].
  pose proof (digits2_pos_bounds my) as [Yl Yu].
  set (d1 := Zpos (digits2_pos mx)) in *.
  set (d2 := Zpos (digits2_pos my)) in *.
  assert (Hd1 : 1 <= d1) by (unfold d1; lia).
  assert (Hd2 : 1 <= d2) by (unfold d2; lia).
  destruct (Z_le_gt_dec (-1) (d1 + ex - (d2 + ey))) as [Hok|Hbad]; [exact Hok|].
  exfalso.
  set (b := d1 - (d1 + ex - (d2 + ey))).
  assert (Hb : d1 + 2 <= b) by (unfold b; lia).
  pose proof (scale_le mx my ex ey 3 4 d2 b H ltac:(lia) ltac:(lia)
                ltac:(unfold b; lia)) as S.
  assert (P1 : 2 ^ (d2 - 1) * 2 ^ (d1 + 2) <= Zpos my * 2 ^ b).
  { apply Z.mul_le_mono_nonneg;
      [apply Z.lt_le_incl, pow2_pos; lia | exact Yl
      |apply Z.lt_le_incl, pow2_pos; lia | apply pow2_le; lia]. }
  assert (P2 : Zpos mx * 2 ^ d2 < 2 ^ d1 * 2 ^ d2).
  { apply Z.mul_lt_mono_pos_r; [apply pow2_pos; lia|exact Xu]. }
  rewrite <- !Z.pow_add_r in P1, P2 by lia.
  replace (d2 - 1 + (d1 + 2)) with (d1 + d2 + 1) in P1 by lia.
  rewrite Z.pow_add_r in P1 by lia. change (2 ^ 1) with 2 in P1.
  lia.
Qed.

Section Quotient.

Variables (mx my : positive) (ex ey : Z).

Local Abbreviation q :=
  (SFdiv 24 128 (S754_finite false mx ex) (S754_finite false my ey)).

(** Quotient bounds in integer form. *)
Lemma div_bounds (X N m : Z) :
  0 < N -> m = X / N -> N * m <= X < N * (m + 1).
Proof.
  intros HN ->. split.
  - apply Z.mul_div_le. lia.
  - replace (X / N + 1) with (Z.succ (X / N)) by lia.
    apply Z.mul_succ_div_gt. lia.
Qed.

(** [max = 0.75 T]: the quotient is 0.75 or the next binary32 number. *)
Lemma div32_three_quarters :
  3 * scaled my ey (Z.min ex ey) = 4 * scaled mx ex (Z.min ex ey) ->
  q = S754_finite false 12582912 (-24) \/ q = S754_finite false 12582913 (-24).
Proof.
  intros H.
  assert (HD : -125 <= Zpos (digits2_pos mx) + ex - (Zpos (digits2_pos my) + ey)).
  { pose proof (ratio_normal mx my ex ey ltac:(lia)). lia. }
  destruct (div32_spec mx my ex ey HD)
    as (s & n & m1 & e1 & m3 & e3 & Hs & Hn & He1 & Hm1 & Hb & Hcases & Hres).
  fold q in Hres.
  set (X := Zpos mx * 2 ^ s) in *. set (N := Zpos my * 2 ^ n) in *.
  assert (HN : 0 < N).
  { unfold N. apply Z.mul_pos_pos; [lia|]. now apply pow2_pos. }
  assert (HX : 0 < X).
  { unfold X. apply Z.mul_pos_pos; [lia|]. now apply pow2_pos. }
  destruct (div_bounds X N m1 HN Hm1) as [Bl Bu].
  rewrite pow2_23, pow2_24 in *.
  assert (E24 : e1 = -24).
  { destruct (Z_le_gt_dec e1 0) as [Hle|Hgt].
    - pose proof (scale_eq mx my ex ey 3 4 s (n - e1) H Hs ltac:(lia)
                    ltac:(lia)) as S.
      fold X in S.
      replace (n - e1) with (n + - e1) in S by lia.
      rewrite Z.pow_add_r in S by lia.
      replace (3 * (Zpos my * (2 ^ n * 2 ^ (- e1)))) with (3 * N * 2 ^ (- e1))
        in S by (unfold N; ring).
      destruct (Z_le_gt_dec e1 (-25)) as [Hlo|Hhi].
      + exfalso. pose proof (pow2_le 25 (- e1) ltac:(lia)) as P.
        change (2 ^ 25) with 33554432 in P. nia.
      + destruct (Z_le_gt_dec (-23) e1) as [Hup|Hdn]; [|lia].
        exfalso. pose proof (pow2_le (- e1) 23 ltac:(lia)) as P.
        change (2 ^ 23) with 8388608 in P.
        pose proof (pow2_pos (- e1) ltac:(lia)). nia.
    - exfalso.
      pose proof (scale_eq mx my ex ey 3 4 (s + e1) n H ltac:(lia) Hn
                    ltac:(lia)) as S.
      rewrite Z.pow_add_r in S by lia. fold N in S.
      replace (4 * (Zpos mx * (2 ^ s * 2 ^ e1))) with (4 * X * 2 ^ e1)
        in S by (unfold X; ring).
      pose proof (pow2_le 1 e1 ltac:(lia)) as P. change (2 ^ 1) with 2 in P.
      nia. }
  assert (Em1 : m1 = 12582912).
  { pose proof (scale_eq mx my ex ey 3 4 s (n + 24) H Hs ltac:(lia)
                  ltac:(lia)) as S.
    fold X in S. rewrite Z.pow_add_r in S by lia.
    change (2 ^ 24) with 16777216 in S.
    assert (EX : X = 12582912 * N) by (unfold N; lia).
    rewrite Hm1, EX. apply Z.div_mul. lia. }
  rewrite Hres.
  destruct Hcases as [[-> ->]|[(-> & _ & ->)|(_ & Hc & _)]]; try lia.
  - left. rewrite Em1, E24. reflexivity.
  - right. rewrite Em1, E24. reflexivity.
Qed.

(** [max >= 1.5 T]: the quotient is infinite or a normal number that is at
    least 1.5. *)
Lemma div32_at_least :
  3 * scaled my ey (Z.min ex ey) <= 2 * scaled mx ex (Z.min ex ey) ->
  q = S754_infinity false \/
  exists m3 e3,
    q = S754_finite false m3 e3 /\
    Zpos (digits2_pos m3) = 24 /\ e3 <= 104 /\
    (-22 <= e3 \/ (e3 = -23 /\ 12582912 <= Zpos m3)).
Proof.
  intros H.
  assert (Hsx : 0 < scaled mx ex (Z.min ex ey)).
  { unfold scaled. apply Z.mul_pos_pos; [lia|]. apply pow2_pos. lia. }
  assert (HD : -125 <= Zpos (digits2_pos mx) + ex - (Zpos (digits2_pos my) + ey)).
  { pose proof (ratio_normal mx my ex ey ltac:(lia)). lia. }
  destruct (div32_spec mx my ex ey HD)
    as (s & n & m1 & e1 & m3 & e3 & Hs & Hn & He1 & Hm1 & Hb & Hcases & Hres).
  fold q in Hres.
  set (X := Zpos mx * 2 ^ s) in *. set (N := Zpos my * 2 ^ n) in *.
  assert (HN : 0 < N).
  { unfold N. apply Z.mul_pos_pos; [lia|]. now apply pow2_pos. }
  destruct (div_bounds X N m1 HN Hm1) as [Bl Bu].
  rewrite pow2_23, pow2_24 in *.
  rewrite Hres. destruct (Z.leb_spec e3 104) as [Hfin|Hinf]; [right|now left].
  assert (Hm3 : 8388608 <= m3 < 16777216) by lia.
  exists (Z.to_pos m3), e3. split; [reflexivity|].
  rewrite Z2Pos.id by lia. split.
  { apply digits2_pos_unique. rewrite Z2Pos.id by lia.
    change (2 ^ (24 - 1)) with 8388608. change (2 ^ 24) with 16777216. lia. }
  split; [exact Hfin|].
  destruct (Z_le_gt_dec (-22) e1) as [Hhi|Hlo]; [left; lia|].
  pose proof (scale_le mx my ex ey 3 2 s (n - e1) H Hs ltac:(lia)
                ltac:(lia)) as S.
  fold X in S.
  replace (n - e1) with (n + - e1) in S by lia.
  rewrite Z.pow_add_r in S by lia.
  replace (3 * (Zpos my * (2 ^ n * 2 ^ (- e1)))) with (3 * N * 2 ^ (- e1))
    in S by (unfold N; ring).
  destruct (Z_le_gt_dec e1 (-24)) as [Hbad|Hok].
  - exfalso. pose proof (pow2_le 24 (- e1) ltac:(lia)) as P.
    change (2 ^ 24) with 16777216 in P. nia.
  - replace (- e1) with 23 in S by lia.
    change (2 ^ 23) with 8388608 in S.
    assert (Hm1' : 12582912 <= m1).
    { assert (P : N * 12582912 < N * (m1 + 1)) by lia.
      apply Z.mul_lt_mono_pos_l in P; lia. }
    destruct Hcases as [[-> ->]|[(-> & _ & ->)|(_ & _ & ->)]]; lia.
Qed.

End Quotient.

(** ** From the quotient to [aa] *)

Lemma iter_xO_value (d m : positive) :
  Zpos (Pos.iter xO m d) = Zpos m * 2 ^ Zpos d.
Proof.
  revert m. induction d as [|d IH] using Pos.peano_ind; intros m.
  - simpl. lia.
  - rewrite Pos.iter_succ. rewrite Pos2Z.inj_xO, IH, Pos2Z.inj_succ.
    rewrite Z.pow_succ_r by lia. lia.
Qed.

Lemma shl_align_value (m : positive) (e e' : Z) :
  e' <= e -> Zpos (fst (shl_align m e e')) = Zpos m * 2 ^ (e - e').
Proof.
  intros H. unfold shl_align. destruct (e' - e) as [|d|d] eqn:E; simpl fst.
  - replace (e - e') with 0 by lia. lia.
  - lia.
  - rewrite iter_xO_value. f_equal. f_equal. lia.
Qed.

Lemma not_positive_le (x : spec_float) : not_positive x = true -> le x zero = true.
Proof. destruct x as [[]|[]| |[] ? ?]; simpl; intros; congruence || reflexivity. Qed.

Lemma shr_nonneg (mrs : shr_record) (e n : Z) :
  0 <= shr_m mrs -> 0 <= shr_m (fst (shr mrs e n)).
Proof.
  intros H. unfold shr. destruct n as [|p|p]; simpl; try exact H.
  rewrite iter_pos_shr_m by exact H. apply Z.div_pos; [exact H|].
  apply pow2_pos. lia.
Qed.

Lemma binary_round_aux_sign (prec emax : Z) (m : Z) (e : Z) (l : location) :
  0 <= m -> not_positive (binary_round_aux prec emax true m e l) = true.
Proof.
  intros Hm. unfold binary_round_aux.
  destruct (shr_fexp prec emax m e l) as [mrs1 e1] eqn:E1.
  assert (H1 : 0 <= shr_m mrs1).
  { unfold shr_fexp in E1.
    pose proof (shr_nonneg (shr_record_of_loc m l) e
                  (fexp prec emax (Zdigits2 m + e) - e)) as P.
    rewrite E1 in P. apply P. now rewrite shr_m_of_loc. }
  set (m2 := round_nearest_even (shr_m mrs1) (loc_of_shr_record mrs1)).
  assert (H2 : 0 <= m2).
  { unfold m2. destruct (round_nearest_even_cases (shr_m mrs1)
                           (loc_of_shr_record mrs1)) as [-> | ->]; lia. }
  destruct (shr_fexp prec emax m2 e1 loc_Exact) as [mrs2 e2] eqn:E2.
  assert (H3 : 0 <= shr_m mrs2).
  { unfold shr_fexp in E2.
    pose proof (shr_nonneg (shr_record_of_loc m2 loc_Exact) e1
                  (fexp prec emax (Zdigits2 m2 + e1) - e1)) as P.
    rewrite E2 in P. apply P. simpl. exact H2. }
  destruct (shr_m mrs2) as [|p|p]; try lia; try reflexivity.
  now destruct (e2 <=? emax - prec).
Qed.

Lemma binary_round_sign (prec emax : Z) (m : positive) (e : Z) :
  not_positive (binary_round prec emax true m e) = true.
Proof.
  unfold binary_round. destruct (shl_align m e _) as [mz ez].
  apply binary_round_aux_sign. lia.
Qed.

Lemma conv_not_positive (prec emax : Z) (x : spec_float) :
  not_positive x = true -> not_positive (conv prec emax x) = true.
Proof.
  destruct x as [s|s| |s m e]; simpl; try congruence.
  intros ->. simpl. apply binary_round_sign.
Qed.

Lemma digits_iter_xO (d m : positive) :
  Zpos (digits2_pos (Pos.iter xO m d)) = Zpos (digits2_pos m) + Zpos d.
Proof.
  induction d as [|d IH] using Pos.peano_ind.
  - simpl. lia.
  - rewrite Pos.iter_succ. simpl digits2_pos. lia.
Qed.

Lemma fexp64 (x : Z) : -1021 <= x -> fexp 53 1024 x = x - 53.
Proof. intros H. unfold fexp, emin. lia. Qed.

(** Promoting a normal binary32 number to binary64 is exact. *)
Lemma to_double_normal (m : positive) (e : Z) :
  Zpos (digits2_pos m) = 24 -> -23 <= e <= 104 ->
  to_double (S754_finite false m e)
  = S754_finite false (Pos.iter xO m 29) (e - 29).
Proof.
  intros Hd He. unfold to_double, conv. cbn [cond_Zopp binary_normalize].
  unfold binary_round. rewrite Hd, fexp64 by lia.
  unfold shl_align. replace (24 + e - 53 - e) with (-29) by lia.
  cbv iota beta.
  unfold binary_round_aux, shr_fexp.
  change (Zdigits2 (Zpos (Pos.iter xO m 29)))
    with (Zpos (digits2_pos (Pos.iter xO m 29))).
  rewrite digits_iter_xO, Hd. rewrite fexp64 by lia.
  replace (24 + 29 + (24 + e - 53) - 53 - (24 + e - 53)) with 0 by lia.
  cbn [shr shr_record_of_loc shr_m loc_of_shr_record round_nearest_even].
  change (Zdigits2 (Zpos (Pos.iter xO m 29)))
    with (Zpos (digits2_pos (Pos.iter xO m 29))).
  rewrite digits_iter_xO, Hd. rewrite fexp64 by lia.
  replace (24 + 29 + (24 + e - 53) - 53 - (24 + e - 53)) with 0 by lia.
  cbn [shr shr_record_of_loc shr_m].
  replace (24 + e - 53 <=? 1024 - 53) with true
    by (symmetry; apply Z.leb_le; lia).
  f_equal. lia.
Qed.

(** A quotient of at least 1.5 makes [aa] zero or negative. *)
Lemma aa_not_positive (q : gfloat) :
  q = S754_infinity false \/
  (exists m e,
      q = S754_finite false m e /\
      Zpos (digits2_pos m) = 24 /\ e <= 104 /\
      (-22 <= e \/ (e = -23 /\ 12582912 <= Zpos m))) ->
  le (to_float (sub64 d1_5 (to_double q))) zero = true.
Proof.
  intros [-> | (m & e & -> & Hd & He & Hge)]; [reflexivity|].
  rewrite to_double_normal by (try assumption; lia).
  apply not_positive_le. unfold to_float. apply conv_not_positive.
  unfold sub64, d1_5, SFsub. cbn [cond_Zopp].
  replace (Z.min (-52) (e - 29)) with (-52) by lia.
  rewrite !shl_align_value by lia.
  rewrite iter_xO_value.
  pose proof (digits2_pos_bounds m) as [Bl _]. rewrite Hd in Bl.
  change (2 ^ (24 - 1)) with 8388608 in Bl.
  change (2 ^ (-52 - -52)) with 1. change (2 ^ 29) with 536870912.
  set (k := e - 29 - -52).
  assert (Hk : 0 <= k) by (unfold k; lia).
  assert (Hdelta : 6755399441055744 * 1 - Zpos m * 536870912 * 2 ^ k <= 0).
  { destruct Hge as [Hhi|[-> Hm]].
    - pose proof (pow2_le 1 k ltac:(unfold k; lia)) as P.
      change (2 ^ 1) with 2 in P. nia.
    - unfold k. change (2 ^ (-23 - 29 - -52)) with 1. lia. }
  destruct (6755399441055744 * 1 - Zpos m * 536870912 * 2 ^ k) as [|p|p];
    try lia.
  - reflexivity.
  - simpl binary_normalize. apply binary_round_sign.
Qed.

(** ** The middle zone of the ramp

    What is stored in a [gfloat] is a well-formed binary32 number, and for
    such a number below 0.5 the product [aa * 2.0] is computed exactly. *)

(** Shifting right a mantissa whose low bits are 0 loses nothing. *)
Lemma shr_1_exact (a : Z) :
  0 <= a ->
  shr_1 {| shr_m := 2 * a; shr_r := false; shr_s := false |}
  = {| shr_m := a; shr_r := false; shr_s := false |}.
Proof. intros Ha. destruct a as [|p|p]; try lia; reflexivity. Qed.

Lemma iter_shr_exact (n : positive) :
  forall a, 0 <= a ->
    iter_pos shr_1 n {| shr_m := a * 2 ^ Zpos n; shr_r := false;
                        shr_s := false |}
    = {| shr_m := a; shr_r := false; shr_s := false |}.
Proof.
  induction n as [n IH|n IH|]; intros a Ha.
  - replace (a * 2 ^ Zpos n~1) with (2 * ((a * 2 ^ Zpos n) * 2 ^ Zpos n)).
    + cbn [iter_pos].
      rewrite shr_1_exact
        by (repeat apply Z.mul_nonneg_nonneg; try lia;
            apply Z.lt_le_incl, pow2_pos; lia).
      rewrite IH
        by (apply Z.mul_nonneg_nonneg;
            [lia|apply Z.lt_le_incl, pow2_pos; lia]).
      now rewrite IH by lia.
    + replace (Zpos n~1) with (1 + Zpos n + Zpos n) by lia.
      rewrite !Z.pow_add_r by lia. change (2 ^ 1) with 2. ring.
  - replace (a * 2 ^ Zpos n~0) with ((a * 2 ^ Zpos n) * 2 ^ Zpos n).
    + cbn [iter_pos].
      rewrite IH
        by (apply Z.mul_nonneg_nonneg;
            [lia|apply Z.lt_le_incl, pow2_pos; lia]).
      now rewrite IH by lia.
    + replace (Zpos n~0) with (Zpos n + Zpos n) by lia.
      rewrite !Z.pow_add_r by lia. ring.
  - replace (a * 2 ^ 1) with (2 * a) by (change (2 ^ 1) with 2; lia).
    cbn [iter_pos]. now apply shr_1_exact.
Qed.

Lemma shr_exact (a e k : Z) :
  0 <= a -> 0 <= k ->
  shr {| shr_m := a * 2 ^ k; shr_r := false; shr_s := false |} e k
  = ({| shr_m := a; shr_r := false; shr_s := false |}, e + k).
Proof.
  intros Ha Hk. unfold shr. destruct k as [|p|p]; try lia.
  - now rewrite Z.mul_1_r, Z.add_0_r.
  - now rewrite iter_shr_exact.
Qed.

(** The number of digits of a shifted mantissa. *)
Lemma digits_shifted (m a : positive) (k : Z) :
  0 <= k -> Zpos m = Zpos a * 2 ^ k ->
  Zpos (digits2_pos m) = Zpos (digits2_pos a) + k.
Proof.
  intros Hk E. apply digits2_pos_unique. rewrite E.
  pose proof (digits2_pos_bounds a) as [Bl Bu].
  pose proof (pow2_pos k Hk) as Hp.
  replace (Zpos (digits2_pos a) + k - 1) with (Zpos (digits2_pos a) - 1 + k)
    by lia.
  rewrite !Z.pow_add_r by lia. split.
  - apply Z.mul_le_mono_nonneg_r; lia.
  - apply Z.mul_lt_mono_pos_r; lia.
Qed.

(** Rounding a number that the format holds exactly returns it. *)
Lemma round_exact (prec emax : Z) (s : bool) (m a : positive) (e k : Z) :
  0 <= k -> Zpos m = Zpos a * 2 ^ k ->
  fexp prec emax (Zpos (digits2_pos a) + (e + k)) = e + k ->
  binary_round_aux prec emax s (Zpos m) e loc_Exact
  = if e + k <=? emax - prec then S754_finite s a (e + k)
    else S754_infinity s.
Proof.
  intros Hk E Hc. unfold binary_round_aux, shr_fexp.
  change (Zdigits2 (Zpos m)) with (Zpos (digits2_pos m)).
  rewrite (digits_shifted m a k Hk E).
  replace (Zpos (digits2_pos a) + k + e) with (Zpos (digits2_pos a) + (e + k))
    by lia.
  rewrite Hc. replace (e + k - e) with k by lia.
  cbn [shr_record_of_loc]. rewrite E, shr_exact by lia.
  cbn [shr_m loc_of_shr_record round_nearest_even].
  change (Zdigits2 (Zpos a)) with (Zpos (digits2_pos a)).
  rewrite Hc, Z.sub_diag. reflexivity.
Qed.

Lemma fexp32_cases (x : Z) : fexp 24 128 x = Z.max (x - 24) (-149).
Proof. reflexivity. Qed.

(** A well-formed binary32 number: 24 digits, or fewer at the least
    exponent. *)
Lemma valid32_cases (s : bool) (m : positive) (e : Z) :
  valid_binary 24 128 (S754_finite s m e) = true ->
  -149 <= e <= 104 /\ Zpos (digits2_pos m) <= 24 /\
  (Zpos (digits2_pos m) = 24 \/ e = -149).
Proof.
  unfold valid_binary, bounded, canonical_mantissa.
  rewrite fexp32_cases, andb_true_iff, Z.eqb_eq, Z.leb_le.
  intros [Hc He]. lia.
Qed.

(** Promoting a binary32 number to binary64 is exact. *)
Lemma to_double_exact (m : positive) (e : Z) :
  let d := Zpos (digits2_pos m) in
  d <= 24 -> -149 <= e <= 104 ->
  to_double (S754_finite false m e)
  = S754_finite false (Pos.iter xO m (Z.to_pos (53 - d))) (e + d - 53).
Proof.
  intros d Hd He. unfold to_double, conv. cbn [cond_Zopp binary_normalize].
  unfold binary_round. fold d.
  assert (Hd1 : 1 <= d) by (unfold d; lia).
  rewrite fexp64 by lia. unfold shl_align.
  assert (E : d + e - 53 - e = Z.neg (Z.to_pos (53 - d))).
  { rewrite <- Pos2Z.opp_pos, Z2Pos.id by lia. lia. }
  rewrite E. cbv iota beta.
  set (mz := Pos.iter xO m (Z.to_pos (53 - d))).
  assert (Hdz : Zpos (digits2_pos mz) = 53).
  { unfold mz. rewrite digits_iter_xO, Z2Pos.id by lia. fold d. lia. }
  rewrite (round_exact 53 1024 false mz mz (d + e - 53) 0).
  - rewrite Z.add_0_r.
    replace (d + e - 53 <=? 1024 - 53) with true
      by (symmetry; apply Z.leb_le; lia).
    f_equal. lia.
  - lia.
  - change (2 ^ 0) with 1. lia.
  - rewrite Hdz, fexp64 by lia. lia.
Qed.

(** Doubling a binary64 number away from the ends of the range is exact. *)
Lemma mul64_two (m : positive) (e : Z) :
  Zpos (digits2_pos m) = 53 -> -1074 <= e + 1 <= 971 ->
  mul64 (S754_finite false m e) d2_0 = S754_finite false m (e + 1).
Proof.
  intros Hd He. unfold mul64, d2_0, SFmul. cbn [xorb].
  rewrite (round_exact 53 1024 false (m * 4503599627370496) m (e + -51) 52).
  - replace (e + -51 + 52) with (e + 1) by lia.
    replace (e + 1 <=? 1024 - 53) with true
      by (symmetry; apply Z.leb_le; lia).
    reflexivity.
  - lia.
  - rewrite Pos2Z.inj_mul. reflexivity.
  - rewrite Hd, fexp64 by lia. lia.
Qed.

(** Storing the double of a binary32 number below 0.5 in a [gfloat] is
    exact. *)
Lemma to_float_doubled (ma : positive) (ea : Z) :
  let d := Zpos (digits2_pos ma) in
  d <= 24 -> d = 24 \/ ea = -149 -> -149 <= ea <= 103 ->
  to_float (S754_finite false (Pos.iter xO ma (Z.to_pos (53 - d)))
              (ea + d - 53 + 1))
  = if d =? 24 then S754_finite false ma (ea + 1)
    else S754_finite false ma~0 (-149).
Proof.
  intros d Hd Hcan He. unfold to_float, conv.
  cbn [cond_Zopp binary_normalize]. unfold binary_round.
  assert (Hd1 : 1 <= d) by (unfold d; lia).
  set (mz := Pos.iter xO ma (Z.to_pos (53 - d))).
  assert (Hdz : Zpos (digits2_pos mz) = 53).
  { unfold mz. rewrite digits_iter_xO, Z2Pos.id by lia. fold d. lia. }
  assert (Hmz : Zpos mz = Zpos ma * 2 ^ (53 - d)).
  { unfold mz. rewrite iter_xO_value, Z2Pos.id by lia. reflexivity. }
  rewrite Hdz, fexp32_cases. unfold shl_align.
  destruct (Z.max (53 + (ea + d - 53 + 1) - 24) (-149) - (ea + d - 53 + 1))
    as [|p|p] eqn:En; try lia.
  destruct (Z.eqb_spec d 24) as [E24|N24].
  - rewrite (round_exact 24 128 false mz ma (ea + d - 53 + 1) 29).
    + replace (ea + d - 53 + 1 + 29) with (ea + 1) by lia.
      replace (ea + 1 <=? 128 - 24) with true
        by (symmetry; apply Z.leb_le; lia).
      reflexivity.
    + lia.
    + rewrite Hmz, E24. reflexivity.
    + fold d. rewrite fexp32_cases. lia.
  - rewrite (round_exact 24 128 false mz ma~0 (ea + d - 53 + 1) (52 - d)).
    + replace (ea + d - 53 + 1 + (52 - d)) with (-149) by lia.
      reflexivity.
    + lia.
    + rewrite Hmz, Pos2Z.inj_xO.
      replace (53 - d) with (1 + (52 - d)) by lia.
      rewrite Z.pow_add_r by lia. change (2 ^ 1) with 2. lia.
    + cbn [digits2_pos]. rewrite Pos2Z.inj_succ. fold d.
      rewrite fexp32_cases. lia.
Qed.

(** The middle zone of the ramp: [aa * 2.0] for a binary32 number [aa] with
    [0 < aa < 0.5] is computed without rounding error and lies below 1. *)
Lemma ramp_doubling (aa : gfloat) :
  valid_binary 24 128 aa = true ->
  le aa zero = false -> lt aa half = true ->
  exists m e,
    to_float (mul64 (to_double aa) d2_0) = S754_finite false m e /\
    e <= -24 /\
    (value (S754_finite false m e) == 2 * value aa)%Q.
Proof.
  intros Hv Hpos Hlt.
  destruct aa as [[]|[]| |[] ma ea]; try discriminate.
  destruct (valid32_cases _ _ _ Hv) as (He & Hd & Hcan).
  assert (Hea : ea <= -25).
  { unfold lt, half, SFltb, SFcompare in Hlt.
    destruct (Z.compare_spec ea (-24)) as [E|E|E]; try lia; try discriminate.
    rewrite Pos.compare_cont_spec in Hlt. simpl in Hlt.
    destruct (Pos.compare_spec ma 8388608) as [E'|E'|E']; try discriminate.
    pose proof (digits2_pos_bounds ma) as [Bl _].
    destruct Hcan as [H24|H149]; [|lia].
    rewrite H24 in Bl. change (2 ^ (24 - 1)) with 8388608 in Bl. lia. }
  rewrite to_double_exact by lia.
  set (d := Zpos (digits2_pos ma)) in *.
  assert (Hd1 : 1 <= d) by (unfold d; lia).
  rewrite mul64_two.
  - rewrite to_float_doubled by (try assumption; lia). fold d.
    destruct (Z.eqb_spec d 24) as [E24|N24]; eexists _, _;
      (split; [reflexivity|split; [lia|]]); unfold value; cbn [cond_Zopp].
    + rewrite Qpower_plus by discriminate. change (2 ^ 1)%Q with 2%Q. ring.
    + rewrite Pos2Z.inj_xO, inject_Z_mult. change (inject_Z 2) with 2%Q.
      destruct Hcan as [H24|H149]; [contradiction|]. rewrite H149. ring.
  - rewrite digits_iter_xO, Z2Pos.id by lia. fold d. lia.
  - lia.
Qed.

Lemma shr_spec (mrs mrs' : shr_record) (e e' n : Z) :
  0 <= shr_m mrs -> 0 <= n -> shr mrs e n = (mrs', e') ->
  e' = e + n /\ shr_m mrs' = shr_m mrs / 2 ^ n.
Proof.
  intros Hm Hn E. unfold shr in E. destruct n as [|p|p]; try lia.
  - inversion E; subst. rewrite Z.div_1_r. lia.
  - inversion E; subst. now rewrite iter_pos_shr_m.
Qed.

Lemma digits_le_24 (p : positive) :
  Zpos p < 2 ^ 24 -> Zpos (digits2_pos p) <= 24.
Proof.
  intros H. pose proof (digits2_pos_bounds p) as [Bl _].
  assert (H0 : 2 ^ (Zpos (digits2_pos p) - 1) < 2 ^ 24) by lia.
  apply pow2_lt_inv in H0; lia.
Qed.

Lemma Zdigits2_bound (m : Z) : 0 <= m -> 0 <= Zdigits2 m /\ m < 2 ^ Zdigits2 m.
Proof.
  intros Hm. destruct m as [|p|p]; try lia.
  - simpl. lia.
  - change (Zdigits2 (Zpos p)) with (Zpos (digits2_pos p)).
    pose proof (digits2_pos_bounds p). lia.
Qed.

(** Rounding in the subnormal range leaves the least exponent. *)
Lemma round_aux32_subnormal (s : bool) (m e : Z) (l : location) :
  0 <= m -> e <= -149 -> Zdigits2 m + e < -125 ->
  binary_round_aux 24 128 s m e l = S754_zero s \/
  exists p, binary_round_aux 24 128 s m e l = S754_finite s p (-149) /\
            Zpos p <= 2 ^ 23.
Proof.
  intros Hm He Hs. destruct (Zdigits2_bound m Hm) as [Hd0 Bu].
  set (d := Zdigits2 m) in *.
  unfold binary_round_aux, shr_fexp. fold d. rewrite fexp32_cases.
  replace (Z.max (d + e - 24) (-149) - e) with (-149 - e) by lia.
  destruct (shr (shr_record_of_loc m l) e (-149 - e)) as [mrs1 e1] eqn:E1.
  apply shr_spec in E1; [|rewrite shr_m_of_loc; lia|lia].
  destruct E1 as [He1 Hm1]. rewrite shr_m_of_loc in Hm1.
  replace e1 with (-149) by lia.
  assert (Hp : 0 < 2 ^ (-149 - e)) by (apply pow2_pos; lia).
  assert (Hb : 0 <= shr_m mrs1 < 2 ^ 23).
  { rewrite Hm1. split; [apply Z.div_pos; lia|].
    apply Z.div_lt_upper_bound; [exact Hp|].
    rewrite <- Z.pow_add_r by lia.
    assert (2 ^ d <= 2 ^ (-149 - e + 23)) by (apply pow2_le; lia).
    lia. }
  set (m2 := round_nearest_even (shr_m mrs1) (loc_of_shr_record mrs1)).
  assert (Hm2 : 0 <= m2 <= 2 ^ 23).
  { unfold m2. destruct (round_nearest_even_cases (shr_m mrs1)
                           (loc_of_shr_record mrs1)) as [-> | ->]; lia. }
  destruct m2 as [|p|p]; try lia.
  - left. reflexivity.
  - right. exists p. split; [|lia].
    assert (Hdp : Zpos (digits2_pos p) <= 24).
    { apply digits_le_24. rewrite pow2_23 in Hm2. rewrite pow2_24. lia. }
    change (Zdigits2 (Zpos p)) with (Zpos (digits2_pos p)).
    rewrite fexp32_cases.
    replace (Z.max (Zpos (digits2_pos p) + -149 - 24) (-149) - -149)
      with 0 by lia.
    reflexivity.
Qed.

Lemma valid32_least (s : bool) (p : positive) :
  Zpos p <= 2 ^ 23 -> valid_binary 24 128 (S754_finite s p (-149)) = true.
Proof.
  intros Hp.
  assert (Hdp : Zpos (digits2_pos p) <= 24).
  { apply digits_le_24. rewrite pow2_23 in Hp. rewrite pow2_24. lia. }
  unfold valid_binary, bounded, canonical_mantissa. rewrite fexp32_cases.
  replace (Z.max (Zpos (digits2_pos p) + -149 - 24) (-149)) with (-149) by lia.
  reflexivity.
Qed.

(** [binary_round_aux] at binary32 returns a well-formed number when the
    exponent it is given is not above the one of the format. *)
Lemma round_aux32_valid (s : bool) (m : positive) (e : Z) (l : location) :
  e <= fexp 24 128 (Zpos (digits2_pos m) + e) ->
  valid_binary 24 128 (binary_round_aux 24 128 s (Zpos m) e l) = true.
Proof.
  intros He. set (d := Zpos (digits2_pos m)) in *.
  rewrite fexp32_cases in He.
  assert (Hd1 : 1 <= d) by (unfold d; lia).
  destruct (Z_le_gt_dec (-125) (d + e)) as [Hn|Hs].
  - assert (Hd : 24 <= d) by lia.
    destruct (round_aux_spec s m e l Hd Hn) as (Hm1 & m3 & e3 & Hcases & ->).
    destruct (e3 <=? 104) eqn:E3; [|reflexivity].
    unfold valid_binary, bounded, canonical_mantissa.
    change (128 - 24) with 104. rewrite E3, andb_true_r. apply Z.eqb_eq.
    fold d in Hm1, Hcases. rewrite pow2_23, pow2_24 in *.
    assert (Hm3 : 8388608 <= m3 < 16777216) by lia.
    rewrite (digits2_pos_unique (Z.to_pos m3) 24).
    + rewrite fexp32_cases. lia.
    + rewrite Z2Pos.id by lia. rewrite pow2_24.
      change (2 ^ (24 - 1)) with 8388608. lia.
  - destruct (round_aux32_subnormal s (Zpos m) e l ltac:(lia) ltac:(lia)
                ltac:(change (Zdigits2 (Zpos m)) with d; lia))
      as [-> |(p & -> & Hp)]; [reflexivity|now apply valid32_least].
Qed.

Lemma binary_round32_valid (s : bool) (m : positive) (e : Z) :
  valid_binary 24 128 (binary_round 24 128 s m e) = true.
Proof.
  unfold binary_round, shl_align.
  destruct (fexp 24 128 (Zpos (digits2_pos m) + e) - e) as [|p|p] eqn:En.
  - apply round_aux32_valid. lia.
  - apply round_aux32_valid. lia.
  - apply round_aux32_valid. rewrite digits_iter_xO.
    replace (Zpos (digits2_pos m) + Zpos p
             + fexp 24 128 (Zpos (digits2_pos m) + e))
      with (Zpos (digits2_pos m) + e) by lia.
    lia.
Qed.

(** Whatever is stored in a [gfloat] is a well-formed binary32 number. *)
Lemma to_float_valid (x : spec_float) : valid_binary 24 128 (to_float x) = true.
Proof.
  destruct x as [s|s| |[] m e]; try reflexivity;
    unfold to_float, conv; cbn [cond_Zopp binary_normalize];
    apply binary_round32_valid.
Qed.

(** The antialias ramp stays between 0 and 1. *)
Lemma pixel_result_range (antialias : bool) (threshold max : gfloat) :
  le zero (pixel_result antialias threshold max) = true /\
  le (pixel_result antialias threshold max) one = true.
Proof.
  unfold pixel_result.
  destruct (antialias && gt threshold zero).
  - cbv zeta. destruct (le (aa_of max threshold) zero) eqn:Hle;
      [split; reflexivity|].
    destruct (lt (aa_of max threshold) half) eqn:Hlt; [|split; reflexivity].
    destruct (ramp_doubling (aa_of max threshold))
      as (m & e & -> & He & _);
      try assumption.
    + apply to_float_valid.
    + split; [reflexivity|]. unfold le, one, SFleb, SFcompare.
      destruct (Z.compare_spec e (-23)); try lia; reflexivity.
  - destruct (gt max threshold); split; reflexivity.
Qed.

Lemma pixel_difference_range (col1 col2 : color) (antialias : bool)
      (threshold : gfloat) (n : Z) (ha st : bool)
      (crit : GimpSelectCriterion) :
  le zero (pixel_difference col1 col2 antialias threshold n ha st crit)
  = true /\
  le (pixel_difference col1 col2 antialias threshold n ha st crit) one
  = true.
Proof.
  unfold pixel_difference.
  destruct (transparent_exit st ha col2 n); [split; reflexivity|].
  apply pixel_result_range.
Qed.



(** ** Exact values *)

Lemma value_scaled (m : positive) (e e0 : Z) :
  e0 <= e ->
  (value (S754_finite false m e) == inject_Z (scaled m e e0) * 2 ^ e0)%Q.
Proof.
  intros H. unfold value, scaled. cbn [cond_Zopp].
  rewrite inject_Z_mult, Zpower_Qpower by lia.
  rewrite <- Qmult_assoc, <- Qpower_plus by discriminate.
  now replace (e - e0 + e0) with e by lia.
Qed.

Section Ratio.

Variables (mx my : positive) (ex ey : Z) (num den : Z).

Local Abbreviation e0 := (Z.min ex ey).

Lemma pow2_e0_pos : (0 < 2 ^ e0)%Q.
Proof. apply Qpower_0_lt. reflexivity. Qed.

Lemma ratio_le_scaled :
  (inject_Z num * value (S754_finite false my ey)
   <= inject_Z den * value (S754_finite false mx ex))%Q ->
  num * scaled my ey e0 <= den * scaled mx ex e0.
Proof.
  rewrite (value_scaled my ey e0), (value_scaled mx ex e0)
    by lia.
  rewrite !Qmult_assoc, <- !inject_Z_mult.
  intros H. apply Qmult_le_r in H; [|apply pow2_e0_pos].
  now rewrite Zle_Qle.
Qed.

Lemma ratio_eq_scaled :
  (inject_Z num * value (S754_finite false my ey)
   == inject_Z den * value (S754_finite false mx ex))%Q ->
  num * scaled my ey e0 = den * scaled mx ex e0.
Proof.
  rewrite (value_scaled my ey e0), (value_scaled mx ex e0)
    by lia.
  rewrite !Qmult_assoc, <- !inject_Z_mult.
  intros H. apply Qmult_inj_r in H.
  - now apply inject_Z_injective.
  - intros E. pose proof pow2_e0_pos as P. rewrite E in P. discriminate.
Qed.

End Ratio.

(** ** The similarity function *)

Lemma composite_loop_comm (k : nat) (b : Z) (c1 c2 : color) (max : gfloat) :
  composite_loop k b c1 c2 max = composite_loop k b c2 c1 max.
Proof.
  revert b max. induction k as [|k IH]; intros b max; simpl.
  - reflexivity.
  - rewrite (fabs_sub_comm (chan c1 b) (chan c2 b)). apply IH.
Qed.

(** The raw difference is symmetric, whatever the criterion. *)
Lemma pixel_max_comm (c1 c2 : color) (n : Z) (ha st : bool)
      (crit : GimpSelectCriterion) :
  pixel_max c1 c2 n ha st crit = pixel_max c2 c1 n ha st crit.
Proof.
  unfold pixel_max. destruct (st && ha).
  - apply fabs_sub_comm.
  - destruct crit; auto using fabs_sub_comm, composite_loop_comm.
Qed.

(** The step-1 return, for every setting of the other arguments. *)
Lemma pixel_difference_transparent (col1 col2 : color) (antialias : bool)
      (threshold : gfloat) (n : Z) (crit : GimpSelectCriterion) :
  eq (chan col2 (n - 1)) zero = true ->
  pixel_difference col1 col2 antialias threshold n true false crit = zero.
Proof.
  intros Ha. unfold pixel_difference, transparent_exit. now rewrite Ha.
Qed.

(** A returned value that tests as zero is the constant [0.0] whenever the
    hard cutoff is in force. *)
Lemma pixel_result_hard (threshold max : gfloat) :
  pixel_result false threshold max = (if gt max threshold then zero else one).
Proof. reflexivity. Qed.

Lemma pixel_result_threshold_zero (antialias : bool) (threshold max : gfloat) :
  eq threshold zero = true ->
  pixel_result antialias threshold max
  = (if gt max threshold then zero else one).
Proof.
  intros Ht. unfold pixel_result.
  replace (gt threshold zero) with false.
  - now rewrite andb_false_r.
  - destruct threshold as [[]|[]| |[] ? ?]; try discriminate; reflexivity.
Qed.

(** Comparing a pixel with itself at threshold 0, hard cutoff. *)
Lemma composite_loop_self (k : nat) (b : Z) (c : color) :
  composite_loop k b c c zero = zero.
Proof.
  revert b. induction k as [|k IH]; intros b; simpl.
  - reflexivity.
  - rewrite (fabs_sub_self_gt (chan c b) zero) by reflexivity. apply IH.
Qed.

Lemma pixel_max_self_gt (c : color) (n : Z) (ha st : bool)
      (crit : GimpSelectCriterion) :
  gt (pixel_max c c n ha st crit) zero = false.
Proof.
  unfold pixel_max. destruct (st && ha).
  - now apply fabs_sub_self_gt.
  - destruct crit; try (now apply fabs_sub_self_gt); try reflexivity.
    now rewrite composite_loop_self.
Qed.

Lemma pixel_difference_self (c : color) (n : Z) (ha st : bool)
      (crit : GimpSelectCriterion) :
  transparent_exit st ha c n = false ->
  pixel_difference c c false zero n ha st crit = one.
Proof.
  intros He. unfold pixel_difference. rewrite He, pixel_result_hard.
  now rewrite pixel_max_self_gt.
Qed.

(** What line 348 onwards returns, in terms of the raw difference. *)
Lemma pixel_difference_raw (col1 col2 : color) (antialias : bool)
      (threshold : gfloat) (n : Z) (ha st : bool) (crit : GimpSelectCriterion)
      (max : gfloat) :
  raw_difference col1 col2 n ha st crit = Some max ->
  pixel_difference col1 col2 antialias threshold n ha st crit
  = pixel_result antialias threshold max.
Proof.
  unfold raw_difference, pixel_difference.
  destruct (transparent_exit st ha col2 n); [discriminate|].
  now intros [= <-].
Qed.

(** A raw difference of 0 is accepted in full by both rules, unless the
    threshold is negative; one that is not a number always is. *)
Lemma pixel_result_zero (antialias : bool) (threshold : gfloat) :
  gt zero threshold = false -> pixel_result antialias threshold zero = one.
Proof.
  intros Ht. unfold pixel_result. destruct antialias; simpl andb.
  - destruct (gt threshold zero) eqn:G; [|now rewrite Ht].
    destruct threshold as [[]|[]| |[] m e]; try discriminate; reflexivity.
  - now rewrite Ht.
Qed.

Lemma pixel_result_nan (antialias : bool) (threshold : gfloat) :
  pixel_result antialias threshold S754_nan = one.
Proof.
  unfold pixel_result. destruct antialias; simpl andb.
  - destruct (gt threshold zero) eqn:G;
      destruct threshold as [[]|[]| |[] m e]; try discriminate; reflexivity.
  - destruct threshold as [[]|[]| |[] m e]; reflexivity.
Qed.

Lemma pixel_max_self (c : color) (n : Z) (ha st : bool)
      (crit : GimpSelectCriterion) :
  pixel_max c c n ha st crit = zero \/ pixel_max c c n ha st crit = S754_nan.
Proof.
  unfold pixel_max. destruct (st && ha); [apply fabs_sub_self|].
  destruct crit; try apply fabs_sub_self; try (now left).
  left. apply composite_loop_self.
Qed.

(** A color compared with itself, whatever the rule. *)
Lemma pixel_difference_same (c : color) (antialias : bool)
      (threshold : gfloat) (n : Z) (ha st : bool)
      (crit : GimpSelectCriterion) :
  transparent_exit st ha c n = false -> gt zero threshold = false ->
  pixel_difference c c antialias threshold n ha st crit = one.
Proof.
  intros He Ht. unfold pixel_difference. rewrite He.
  destruct (pixel_max_self c n ha st crit) as [-> | ->].
  - now apply pixel_result_zero.
  - apply pixel_result_nan.
Qed.

(** The hard cutoff returns one of the two constants. *)
Lemma pixel_result_binary (antialias : bool) (threshold max : gfloat) :
  antialias = false \/ gt threshold zero = false ->
  pixel_result antialias threshold max = zero \/
  pixel_result antialias threshold max = one.
Proof.
  intros Hhard. unfold pixel_result.
  replace (antialias && gt threshold zero) with false.
  - destruct (gt max threshold); auto.
  - destruct Hhard as [-> | ->]; [reflexivity|now rewrite andb_false_r].
Qed.

Lemma pixel_difference_binary (col1 col2 : color) (antialias : bool)
      (threshold : gfloat) (n : Z) (ha st : bool)
      (crit : GimpSelectCriterion) :
  antialias = false \/ gt threshold zero = false ->
  pixel_difference col1 col2 antialias threshold n ha st crit = zero \/
  pixel_difference col1 col2 antialias threshold n ha st crit = one.
Proof.
  intros Hhard. unfold pixel_difference.
  destruct (transparent_exit st ha col2 n); [now left|].
  now apply pixel_result_binary.
Qed.

(** Under the hard cutoff a sample accepted at one threshold is accepted at
    every larger one. *)
Lemma pixel_difference_threshold (col1 col2 : color) (t t' : gfloat) (n : Z)
      (ha st : bool) (crit : GimpSelectCriterion) :
  le t t' = true ->
  nonzero (pixel_difference col1 col2 false t n ha st crit) = true ->
  pixel_difference col1 col2 false t' n ha st crit = one /\
  pixel_difference col1 col2 false t n ha st crit = one.
Proof.
  intros Hle. unfold pixel_difference.
  destruct (transparent_exit st ha col2 n); [discriminate|].
  rewrite !pixel_result_hard.
  destruct (gt _ t) eqn:G; [discriminate|]. intros _.
  split; [|reflexivity].
  destruct (gt _ t') eqn:G'; [|reflexivity].
  unfold gt, le in *. rewrite (SFleb_ltb_trans _ _ _ Hle G') in G.
  discriminate.
Qed.

(** The composite loop leaves in [max] a number that no channel difference
    exceeds. *)
Lemma composite_loop_bound (k : nat) :
  forall (b : Z) (c1 c2 : color) (max : gfloat),
    max <> S754_nan ->
    composite_loop k b c1 c2 max <> S754_nan /\
    SFleb max (composite_loop k b c1 c2 max) = true /\
    forall i, b <= i < b + Z.of_nat k ->
              fabs (sub32 (chan c1 i) (chan c2 i)) = S754_nan \/
              SFleb (fabs (sub32 (chan c1 i) (chan c2 i)))
                    (composite_loop k b c1 c2 max) = true.
Proof.
  induction k as [|k IH]; intros b c1 c2 max Hmax.
  - simpl. split; [exact Hmax|]. split; [now apply SFleb_refl|]. lia.
  - cbn [composite_loop].
    set (d := fabs (sub32 (chan c1 b) (chan c2 b))).
    set (max' := if gt d max then d else max).
    assert (Hstep : max' <> S754_nan /\ SFleb max max' = true /\
                    (d = S754_nan \/ SFleb d max' = true)).
    { unfold max', gt. destruct (SFltb max d) eqn:G.
      - destruct (SFltb_not_nan _ _ G) as [_ Hd].
        split; [exact Hd|]. split; [now apply SFltb_leb|].
        right. now apply SFleb_refl.
      - split; [exact Hmax|]. split; [now apply SFleb_refl|].
        destruct d eqn:Ed; try (now left); right;
          apply SFleb_total; try assumption; discriminate. }
    destruct Hstep as (Hn & Hle & Hd).
    destruct (IH (b + 1) c1 c2 max' Hn) as (Hn' & Hle' & Hall).
    split; [exact Hn'|]. split; [now apply (SFleb_trans _ max')|].
    intros i Hi. destruct (Z.eq_dec i b) as [->|Hne].
    + fold d. destruct Hd as [Hd|Hd]; [now left|right].
      now apply (SFleb_trans _ max').
    + apply Hall. lia.
Qed.

(** The raw difference is never negative. *)
Lemma fabs_nonneg (x : gfloat) : le zero (fabs x) = true \/ fabs x = S754_nan.
Proof. destruct x as [[]|[]| |[] m e]; simpl; auto. Qed.

Lemma pixel_max_nonneg (col1 col2 : color) (n : Z) (ha st : bool)
      (crit : GimpSelectCriterion) :
  le zero (pixel_max col1 col2 n ha st crit) = true \/
  pixel_max col1 col2 n ha st crit = S754_nan.
Proof.
  unfold pixel_max. destruct (st && ha); [apply fabs_nonneg|].
  destruct crit; try apply fabs_nonneg; try (left; reflexivity).
  left. now apply composite_loop_bound.
Qed.

(** A threshold below 0 rejects every difference that is a number. *)
Lemma pixel_result_negative (antialias : bool) (threshold max : gfloat) :
  gt zero threshold = true -> le zero max = true ->
  pixel_result antialias threshold max = zero.
Proof.
  unfold gt, le. intros Ht Hmax. unfold pixel_result, gt.
  rewrite (SFleb_not_gt _ _ (SFltb_leb _ _ Ht)), andb_false_r.
  now rewrite (SFltb_leb_trans _ _ _ Ht Hmax).
Qed.

(** A threshold that is infinite or not a number accepts everything. *)
Lemma pixel_result_unbounded (antialias : bool) (threshold max : gfloat) :
  threshold = S754_infinity false \/ threshold = S754_nan ->
  pixel_result antialias threshold max = one.
Proof.
  intros [-> | ->]; unfold pixel_result.
  - destruct antialias; cbn [andb].
    + destruct max as [[]|[]| |[] m e]; reflexivity.
    + destruct max as [[]|[]| |[] m e]; reflexivity.
  - rewrite andb_false_r. destruct max as [[]|[]| |[] m e]; reflexivity.
Qed.

(** ** Antialiasing within the threshold *)

(** *** Rounding never goes below a power of two *)

Section RoundUp.

Variables prec emax : Z.
Hypothesis Hprec : 2 <= prec.

Local Abbreviation emin := (3 - emax - prec).

Lemma fexp_normal (x : Z) : emin + prec <= x -> fexp prec emax x = x - prec.
Proof. intros H. unfold fexp, SpecFloat.emin. lia. Qed.

(** [binary_round_aux] on a mantissa of at least [prec] digits in the normal
    range returns a mantissa of [prec] digits, at the exponent of the cut or
    the next one, or overflows. *)
Lemma round_aux_normal (s : bool) (m : positive) (e : Z) (l : location) :
  let d := Zpos (digits2_pos m) in
  prec <= d -> emin + prec <= d + e ->
  binary_round_aux prec emax s (Zpos m) e l = S754_infinity s \/
  exists m3 e3,
    binary_round_aux prec emax s (Zpos m) e l = S754_finite s m3 e3 /\
    Zpos (digits2_pos m3) = prec /\ e + d - prec <= e3.
Proof.
  intros d Hd He.
  pose proof (digits2_pos_bounds m) as [Bl Bu]. fold d in Bl, Bu.
  set (n := d - prec). set (m1 := Zpos m / 2 ^ n). set (e1 := e + n).
  assert (Hp : 0 < 2 ^ n) by (apply pow2_pos; unfold n; lia).
  assert (Hm1 : 2 ^ (prec - 1) <= m1 < 2 ^ prec).
  { unfold m1. split.
    - apply Z.div_le_lower_bound; [exact Hp|].
      rewrite <- Z.pow_add_r by (unfold n; lia).
      replace (n + (prec - 1)) with (d - 1) by (unfold n; lia). exact Bl.
    - apply Z.div_lt_upper_bound; [exact Hp|].
      rewrite <- Z.pow_add_r by (unfold n; lia).
      replace (n + prec) with d by (unfold n; lia). exact Bu. }
  assert (Hpp : 0 < 2 ^ (prec - 1)) by (apply pow2_pos; lia).
  assert (Hdbl : 2 ^ prec = 2 * 2 ^ (prec - 1)).
  { replace prec with (1 + (prec - 1)) at 1 by lia.
    rewrite Z.pow_add_r by lia. reflexivity. }
  unfold binary_round_aux.
  destruct (shr_fexp prec emax (Zpos m) e l) as [mrs e1'] eqn:E1.
  unfold shr_fexp in E1. change (Zdigits2 (Zpos m)) with d in E1.
  rewrite fexp_normal in E1 by lia.
  replace (d + e - prec - e) with n in E1 by (unfold n; lia).
  apply shr_spec in E1; [|rewrite shr_m_of_loc; lia|unfold n; lia].
  destruct E1 as [He1 Hmrs]. rewrite shr_m_of_loc in Hmrs.
  fold m1 in Hmrs. fold e1 in He1. subst e1'.
  set (m2 := round_nearest_even (shr_m mrs) (loc_of_shr_record mrs)).
  assert (Hm2 : m2 = m1 \/ m2 = m1 + 1).
  { unfold m2. rewrite <- Hmrs. apply round_nearest_even_cases. }
  destruct (Z_lt_le_dec m2 (2 ^ prec)) as [Hlt|Hge].
  - destruct m2 as [|p2|p2] eqn:Em2; try lia.
    assert (Hd2 : Zpos (digits2_pos p2) = prec).
    { apply digits2_pos_unique. lia. }
    unfold shr_fexp. change (Zdigits2 (Zpos p2)) with (Zpos (digits2_pos p2)).
    rewrite Hd2, fexp_normal by (unfold e1, n; lia).
    replace (prec + e1 - prec - e1) with 0 by lia.
    cbn [shr shr_record_of_loc shr_m].
    destruct (e1 <=? emax - prec); [right|now left].
    exists p2, e1. split; [reflexivity|]. split; [exact Hd2|].
    unfold e1, n. lia.
  - assert (Em2 : m2 = 2 ^ prec) by lia.
    rewrite Em2.
    destruct (2 ^ prec) as [|pp|pp] eqn:Epp; try lia.
    assert (Hdp : Zpos (digits2_pos pp) = prec + 1).
    { apply digits2_pos_unique. rewrite <- Epp.
      replace (prec + 1 - 1) with prec by lia.
      split; [lia|]. rewrite Z.pow_add_r by lia. change (2 ^ 1) with 2. lia. }
    unfold shr_fexp. change (Zdigits2 (Zpos pp)) with (Zpos (digits2_pos pp)).
    rewrite Hdp, fexp_normal by (unfold e1, n; lia).
    replace (prec + 1 + e1 - prec - e1) with 1 by lia.
    rewrite Hdbl.
    replace (2 * 2 ^ (prec - 1)) with (2 ^ (prec - 1) * 2 ^ 1)
      by (change (2 ^ 1) with 2; lia).
    cbn [shr_record_of_loc]. rewrite shr_exact by lia.
    cbn [shr_m].
    destruct (2 ^ (prec - 1)) as [|ph|ph] eqn:Eph; try lia.
    destruct (e1 + 1 <=? emax - prec); [right|now left].
    exists ph, (e1 + 1). split; [reflexivity|]. split.
    + apply digits2_pos_unique. rewrite <- Eph. lia.
    + unfold e1, n. lia.
Qed.

(** [binary_round] of a number of magnitude at least [2 ^ k], for [k] in the
    normal range: the result has [prec] digits and is at least [2 ^ k]. *)
Lemma binary_round_ge (s : bool) (m : positive) (e k : Z) :
  emin + prec <= k + 1 -> k + 1 <= Zpos (digits2_pos m) + e ->
  binary_round prec emax s m e = S754_infinity s \/
  exists m3 e3,
    binary_round prec emax s m e = S754_finite s m3 e3 /\
    Zpos (digits2_pos m3) = prec /\ k + 1 - prec <= e3.
Proof.
  intros Hk Hd. unfold binary_round.
  set (d := Zpos (digits2_pos m)) in *.
  rewrite fexp_normal by lia. unfold shl_align.
  destruct (d + e - prec - e) as [|p|p] eqn:En.
  - destruct (round_aux_normal s m e loc_Exact) as [H|(m3 & e3 & H & H3 & H4)];
      fold d; try lia; [now left|right].
    exists m3, e3. fold d in H4. repeat split; try assumption; lia.
  - destruct (round_aux_normal s m e loc_Exact) as [H|(m3 & e3 & H & H3 & H4)];
      fold d; try lia; [now left|right].
    exists m3, e3. fold d in H4. repeat split; try assumption; lia.
  - set (mz := Pos.iter xO m p).
    assert (Hdz : Zpos (digits2_pos mz) = prec).
    { unfold mz. rewrite digits_iter_xO. fold d. lia. }
    rewrite (round_exact prec emax s mz mz (d + e - prec) 0).
    + rewrite Z.add_0_r. destruct (d + e - prec <=? emax - prec);
        [right|now left].
      exists mz, (d + e - prec). repeat split; try assumption; lia.
    + lia.
    + change (2 ^ 0) with 1. lia.
    + rewrite Hdz, Z.add_0_r, fexp_normal by lia. lia.
Qed.

End RoundUp.

(** *** The ramp above [aa = 0.5] *)

(** [aa] is at least 0.5 when the quotient is at most 1. *)
Lemma aa_at_least_half (q : gfloat) :
  at_most_one q ->
  le (to_float (sub64 d1_5 (to_double q))) zero = false /\
  lt (to_float (sub64 d1_5 (to_double q))) half = false.
Proof.
  unfold at_most_one.
  intros [-> |[-> |(mq & eq & -> & Hv & Heq)]]; try (split; reflexivity).
  destruct (valid32_cases _ _ _ Hv) as (He & Hd & _).
  rewrite to_double_exact by lia.
  set (d := Zpos (digits2_pos mq)) in *.
  assert (Hd1 : 1 <= d) by (unfold d; lia).
  set (m2 := Pos.iter xO mq (Z.to_pos (53 - d))).
  set (e2 := eq + d - 53).
  assert (Hd2 : Zpos (digits2_pos m2) = 53).
  { unfold m2. rewrite digits_iter_xO, Z2Pos.id by lia. fold d. lia. }
  pose proof (digits2_pos_bounds m2) as [_ Bu]. rewrite Hd2 in Bu.
  unfold sub64, d1_5, SFsub. cbn [cond_Zopp].
  replace (Z.min (-52) e2) with e2 by (unfold e2; lia).
  rewrite !shl_align_value by (unfold e2; lia).
  rewrite Z.sub_diag. change (2 ^ 0) with 1. rewrite Z.mul_1_r.
  set (j := -52 - e2).
  assert (Hj : 1 <= j) by (unfold j, e2; lia).
  assert (Hpj : 2 <= 2 ^ j).
  { change 2 with (2 ^ 1) at 1. apply pow2_le. lia. }
  set (delta := 6755399441055744 * 2 ^ j - Zpos m2).
  assert (Hdelta : 2 ^ (51 + j) <= delta).
  { unfold delta. rewrite Z.pow_add_r by lia.
    change (2 ^ 51) with 2251799813685248.
    change (2 ^ 53) with 9007199254740992 in Bu. lia. }
  assert (Hp51 : 0 < 2 ^ (51 + j)) by (apply pow2_pos; lia).
  destruct delta as [|dp|dp] eqn:Ed; try lia.
  cbn [binary_normalize].
  assert (Hdd : 52 + j <= Zpos (digits2_pos dp)).
  { pose proof (digits2_pos_bounds dp) as [_ B].
    assert (2 ^ (51 + j) < 2 ^ Zpos (digits2_pos dp)) by lia.
    apply pow2_lt_inv in H; lia. }
  destruct (binary_round_ge 53 1024 ltac:(lia) false dp e2 (-1))
    as [-> |(mX & eX & -> & HdX & HeX)]; try (unfold j in *; lia).
  { split; reflexivity. }
  unfold to_float, conv. cbn [cond_Zopp binary_normalize].
  destruct (binary_round_ge 24 128 ltac:(lia) false mX eX (-1))
    as [-> |(ma & ea & -> & Hda & Hea)]; try lia.
  { split; reflexivity. }
  split; [reflexivity|].
  unfold lt, half, SFltb, SFcompare.
  destruct (Z.compare_spec ea (-24)) as [E|E|E]; try lia; try reflexivity.
  rewrite Pos.compare_cont_spec. cbn [Pos.switch_Eq].
  pose proof (digits2_pos_bounds ma) as [Bl _]. rewrite Hda in Bl.
  change (2 ^ (24 - 1)) with 8388608 in Bl.
  destruct (Pos.compare_spec ma 8388608); try lia; reflexivity.
Qed.

(** Rounding a number below 1 gives at most 1. *)
Lemma round_aux32_below (m e : Z) (l : location) :
  0 <= m -> e <= fexp 24 128 (Zdigits2 m + e) -> Zdigits2 m + e <= 0 ->
  at_most_one (binary_round_aux 24 128 false m e l).
Proof.
  intros Hm He Hd. rewrite fexp32_cases in He.
  destruct (Zdigits2_bound m Hm) as [Hd0 _].
  destruct (Z_le_gt_dec (-125) (Zdigits2 m + e)) as [Hn|Hs].
  - destruct m as [|q|q]; try lia; [simpl in *; lia|].
    change (Zdigits2 (Zpos q)) with (Zpos (digits2_pos q)) in *.
    assert (H24 : 24 <= Zpos (digits2_pos q)) by lia.
    pose proof (round_aux32_valid false q e l
                  ltac:(rewrite fexp32_cases; lia)) as Hv.
    destruct (round_aux_spec false q e l H24 Hn)
      as (Hm1 & m3 & e3 & Hcases & Hres).
    rewrite Hres in *. rewrite pow2_23, pow2_24 in *.
    replace (e3 <=? 104) with true in * by (symmetry; apply Z.leb_le; lia).
    destruct (Z_le_gt_dec e3 (-24)) as [Hlo|Hhi].
    + right; right. exists (Z.to_pos m3), e3. now repeat split.
    + right; left.
      destruct Hcases as [[_ ->]|[(_ & _ & ->)|(-> & _ & ->)]]; try lia.
      replace (e + (Zpos (digits2_pos q) - 24) + 1) with (-23) by lia.
      reflexivity.
  - destruct (round_aux32_subnormal false m e l Hm ltac:(lia) ltac:(lia))
      as [-> |(p & -> & Hp)].
    + now left.
    + right; right. exists p, (-149). split; [reflexivity|].
      split; [now apply valid32_least|lia].
Qed.

Lemma scale_lt (mx my : positive) (ex ey a b : Z) :
  scaled mx ex (Z.min ex ey) < scaled my ey (Z.min ex ey) ->
  0 <= a -> 0 <= b -> a - b = ex - ey ->
  Zpos mx * 2 ^ a < Zpos my * 2 ^ b.
Proof.
  unfold scaled. intros H Ha Hb Hab.
  set (e0 := Z.min ex ey) in *.
  set (t := a - (ex - e0)).
  assert (Ht : 0 <= t) by (unfold t, e0; lia).
  replace a with (ex - e0 + t) by (unfold t; lia).
  replace b with (ey - e0 + t) by (unfold t, e0; lia).
  rewrite !Z.pow_add_r by lia.
  pose proof (pow2_pos t Ht) as Hp.
  rewrite !Z.mul_assoc.
  apply Z.mul_lt_mono_pos_r; lia.
Qed.

(** The core of the division, at every magnitude. *)
Lemma div_core_gen (mx my : positive) (ex ey : Z) :
  let D := Zpos (digits2_pos mx) + ex - (Zpos (digits2_pos my) + ey) in
  exists s,
    SFdiv_core_binary 24 128 (Zpos mx) ex (Zpos my) ey
    = ((Zpos mx * 2 ^ s) / Zpos my, ex - ey - s,
       new_location (Zpos my) ((Zpos mx * 2 ^ s) mod Zpos my)) /\
    0 <= s /\
    ex - ey - s = Z.min (fexp 24 128 D) (ex - ey).
Proof.
  intros D. unfold SFdiv_core_binary.
  change (Zdigits2 (Zpos mx)) with (Zpos (digits2_pos mx)).
  change (Zdigits2 (Zpos my)) with (Zpos (digits2_pos my)).
  fold D.
  set (e' := Z.min (fexp 24 128 D) (ex - ey)).
  set (s := ex - ey - e').
  assert (Hs : 0 <= s) by (unfold s, e'; lia).
  rewrite (shift_mantissa (Zpos mx) s Hs).
  exists s. split; [|split; [exact Hs|unfold s; lia]].
  assert (Hde : forall a b, Z.div_eucl a b = (a / b, a mod b)).
  { intros a b. unfold Z.div, Z.modulo. now destruct (Z.div_eucl a b). }
  rewrite Hde. replace (ex - ey - s) with e' by (unfold s; lia). reflexivity.
Qed.

Lemma digits_at_most (q : positive) (b : Z) :
  0 <= b -> Zpos q < 2 ^ b -> Zpos (digits2_pos q) <= b.
Proof.
  intros Hb H. pose proof (digits2_pos_bounds q) as [Bl _].
  assert (H0 : 2 ^ (Zpos (digits2_pos q) - 1) < 2 ^ b) by lia.
  apply pow2_lt_inv in H0; lia.
Qed.

(** A smaller number divided by a larger one gives at most 1. *)
Lemma div32_below (mx my : positive) (ex ey : Z) :
  scaled mx ex (Z.min ex ey) < scaled my ey (Z.min ex ey) ->
  at_most_one (div32 (S754_finite false mx ex) (S754_finite false my ey)).
Proof.
  intros Hlt. unfold div32, SFdiv. cbn [xorb].
  destruct (div_core_gen mx my ex ey) as (s & E & Hs & He').
  rewrite E. clear E.
  pose proof (digits2_pos_bounds mx) as [Xl Xu].
  pose proof (digits2_pos_bounds my) as [Yl Yu].
  set (d1 := Zpos (digits2_pos mx)) in *.
  set (d2 := Zpos (digits2_pos my)) in *.
  assert (Hd1 : 1 <= d1) by (unfold d1; lia).
  assert (Hd2 : 1 <= d2) by (unfold d2; lia).
  set (D := d1 + ex - (d2 + ey)) in *.
  rewrite fexp32_cases in He'.
  set (e' := ex - ey - s) in *.
  set (X := Zpos mx * 2 ^ s).
  assert (HX : 0 < X) by (apply Z.mul_pos_pos; [lia|now apply pow2_pos]).
  destruct (div_bounds X (Zpos my) (X / Zpos my) ltac:(lia) eq_refl)
    as [Bl Bu].
  assert (Hq0 : 0 <= X / Zpos my) by (apply Z.div_pos; lia).
  (* the magnitudes differ by at most 0 *)
  assert (HD : D <= 0).
  { destruct (Z_le_gt_dec D 0) as [H|H]; [exact H|exfalso].
    pose proof (scale_lt mx my ex ey (d2 + D) d1 Hlt ltac:(lia) ltac:(lia)
                  ltac:(unfold D; lia)) as S.
    assert (P1 : 2 ^ (d1 - 1) * 2 ^ (d2 + D) <= Zpos mx * 2 ^ (d2 + D)).
    { apply Z.mul_le_mono_nonneg_r; [apply Z.lt_le_incl, pow2_pos; lia|lia]. }
    assert (P2 : Zpos my * 2 ^ d1 < 2 ^ d2 * 2 ^ d1).
    { apply Z.mul_lt_mono_pos_r; [apply pow2_pos; lia|lia]. }
    rewrite <- !Z.pow_add_r in P1, P2 by lia.
    assert (2 ^ (d2 + d1) <= 2 ^ (d1 - 1 + (d2 + D))) by (apply pow2_le; lia).
    lia. }
  assert (He0 : e' <= -24) by lia.
  apply round_aux32_below; [exact Hq0| |].
  - (* the exponent handed over is not above the one of the format *)
    destruct (Z_le_gt_dec (-125) D) as [Hn|Hsub].
    + assert (e' = Z.min (D - 24) (ex - ey)) by lia.
      set (k := d1 - 1 + s - d2).
      assert (Hk : 23 <= k) by (unfold k, e', D in *; lia).
      assert (Hq : 2 ^ k <= X / Zpos my).
      { apply Z.div_le_lower_bound; [lia|]. unfold X.
        assert (Zpos my * 2 ^ k <= 2 ^ d2 * 2 ^ k).
        { apply Z.mul_le_mono_nonneg_r; [|lia].
          apply Z.lt_le_incl, pow2_pos. lia. }
        assert (2 ^ d2 * 2 ^ k = 2 ^ (d1 - 1) * 2 ^ s).
        { rewrite <- !Z.pow_add_r by lia. f_equal. unfold k. lia. }
        assert (2 ^ (d1 - 1) * 2 ^ s <= Zpos mx * 2 ^ s).
        { apply Z.mul_le_mono_nonneg_r; [|lia].
          apply Z.lt_le_incl, pow2_pos. lia. }
        lia. }
      pose proof (pow2_pos k ltac:(lia)) as Hk0.
      destruct (X / Zpos my) as [|q|q] eqn:Eq; try lia.
      change (Zdigits2 (Zpos q)) with (Zpos (digits2_pos q)).
      rewrite fexp32_cases.
      pose proof (digits2_pos_bounds q) as [Ql Qu].
      assert (Hdq : k < Zpos (digits2_pos q)).
      { apply pow2_lt_inv; lia. }
      lia.
    + rewrite fexp32_cases.
      destruct (Zdigits2_bound (X / Zpos my) Hq0) as [Hd0 _]. lia.
  - (* the quotient is below 1 *)
    destruct (X / Zpos my) as [|q|q] eqn:Eq; try lia.
    { simpl Zdigits2. lia. }
    change (Zdigits2 (Zpos q)) with (Zpos (digits2_pos q)).
    pose proof (scale_lt mx my ex ey s (- e') Hlt Hs ltac:(lia)
                  ltac:(unfold e'; lia)) as S.
    fold X in S.
    assert (Hq : Zpos q < 2 ^ (- e')) by nia.
    pose proof (digits_at_most q (- e') ltac:(lia) Hq). lia.
Qed.

(** A number divided by itself gives 1. *)
Lemma div32_same (m : positive) (e : Z) :
  div32 (S754_finite false m e) (S754_finite false m e) = one.
Proof.
  unfold div32, SFdiv. cbn [xorb].
  destruct (div_core_gen m m e e) as (s & E & Hs & He').
  rewrite E. clear E. rewrite fexp32_cases in He'.
  assert (Es : s = 24) by lia. subst s.
  replace (e - e - 24) with (-24) by lia.
  rewrite (Z.mul_comm (Zpos m)), Z.div_mul, Z.mod_mul by lia.
  replace (new_location (Zpos m) 0) with loc_Exact.
  - reflexivity.
  - unfold new_location, new_location_even, new_location_odd.
    destruct (Z.even (Zpos m)); reflexivity.
Qed.

(** Two well-formed positive numbers in order: equal, or apart in exact
    value. *)
Lemma not_gt_cases (mx my : positive) (ex ey : Z) :
  valid_binary 24 128 (S754_finite false mx ex) = true ->
  valid_binary 24 128 (S754_finite false my ey) = true ->
  gt (S754_finite false mx ex) (S754_finite false my ey) = false ->
  (mx = my /\ ex = ey) \/
  scaled mx ex (Z.min ex ey) < scaled my ey (Z.min ex ey).
Proof.
  intros Vx Vy Hgt.
  destruct (valid32_cases _ _ _ Vx) as (Hex & Hdx & Hcx).
  destruct (valid32_cases _ _ _ Vy) as (Hey & Hdy & Hcy).
  pose proof (digits2_pos_bounds mx) as [Xl Xu].
  pose proof (digits2_pos_bounds my) as [Yl Yu].
  unfold gt, SFltb, SFcompare in Hgt. unfold scaled.
  destruct (Z.compare_spec ey ex) as [E|E|E]; try discriminate.
  - subst ey. rewrite Pos.compare_cont_spec in Hgt. cbn [Pos.switch_Eq] in Hgt.
    rewrite Z.min_id, Z.sub_diag. change (2 ^ 0) with 1.
    destruct (Pos.compare_spec my mx) as [E'|E'|E']; try discriminate.
    + left. now split.
    + right. lia.
  - right. replace (Z.min ex ey) with ex by lia.
    rewrite Z.sub_diag. change (2 ^ 0) with 1.
    destruct Hcy as [H24|H149]; [|lia].
    rewrite H24 in Yl. change (2 ^ (24 - 1)) with 8388608 in Yl.
    assert (Hx : Zpos mx < 16777216).
    { assert (2 ^ Zpos (digits2_pos mx) <= 2 ^ 24) by (apply pow2_le; lia).
      rewrite pow2_24 in *. lia. }
    assert (2 ^ 1 <= 2 ^ (ey - ex)) by (apply pow2_le; lia).
    change (2 ^ 1) with 2 in *. nia.
Qed.

(** With antialiasing on, a difference the hard cutoff accepts still gets
    the full value. *)
Lemma pixel_result_antialias (threshold max : gfloat) :
  valid_binary 24 128 threshold = true -> valid_binary 24 128 max = true ->
  le zero max = true \/ max = S754_nan ->
  pixel_result false threshold max = one ->
  pixel_result true threshold max = one.
Proof.
  intros Vt Vm Hpos. rewrite pixel_result_hard.
  destruct (gt max threshold) eqn:G; [discriminate|]. intros _.
  unfold pixel_result. cbn [andb].
  destruct (gt threshold zero) eqn:Gt; [|now rewrite G].
  cbv zeta. unfold aa_of.
  assert (Haa : forall q, at_most_one q ->
            (if le (to_float (sub64 d1_5 (to_double q))) zero then zero
             else if lt (to_float (sub64 d1_5 (to_double q))) half
                  then to_float (mul64 (to_double
                         (to_float (sub64 d1_5 (to_double q)))) d2_0)
                  else one) = one).
  { intros q Hq. destruct (aa_at_least_half q Hq) as [-> ->]. reflexivity. }
  destruct threshold as [[]|[]| |[] mt et]; try discriminate.
  - destruct max as [[]|[]| |[] mx ex]; try reflexivity;
      destruct Hpos; discriminate.
  - destruct max as [[]|[]| |[] mx ex]; try reflexivity; try discriminate;
      try (destruct Hpos; discriminate).
    apply Haa.
    destruct (not_gt_cases mx mt ex et Vm Vt G) as [[-> ->]|Hlt].
    + rewrite div32_same. right; now left.
    + now apply div32_below.
Qed.

(** *** Well-formed colors *)

Lemma chan_valid (c : color) (i : Z) :
  well_formed c -> valid_binary 24 128 (chan c i) = true.
Proof.
  intros H. unfold chan. destruct (i <? 0); [reflexivity|].
  destruct (nth_in_or_default (Z.to_nat i) c zero) as [Hin|E].
  - unfold well_formed in H. rewrite Forall_forall in H. now apply H.
  - now rewrite E.
Qed.

Lemma sub32_valid (x y : gfloat) :
  valid_binary 24 128 x = true -> valid_binary 24 128 y = true ->
  valid_binary 24 128 (sub32 x y) = true.
Proof.
  intros Vx Vy. unfold sub32, SFsub.
  destruct x as [sx|sx| |sx mx ex], y as [sy|sy| |sy my ey];
    try reflexivity; try assumption;
    try (destruct sx, sy; reflexivity).
  unfold binary_normalize.
  destruct (cond_Zopp sx (Zpos (fst (shl_align mx ex (Z.min ex ey))))
            - cond_Zopp sy (Zpos (fst (shl_align my ey (Z.min ex ey)))));
    [reflexivity|apply binary_round32_valid|apply binary_round32_valid].
Qed.

Lemma fabs_valid (x : gfloat) :
  valid_binary 24 128 x = true -> valid_binary 24 128 (fabs x) = true.
Proof. destruct x; simpl; auto. Qed.

Lemma composite_loop_valid (k : nat) :
  forall (b : Z) (c1 c2 : color) (max : gfloat),
    well_formed c1 -> well_formed c2 -> valid_binary 24 128 max = true ->
    valid_binary 24 128 (composite_loop k b c1 c2 max) = true.
Proof.
  induction k as [|k IH]; intros b c1 c2 max H1 H2 Hm; [exact Hm|].
  cbn [composite_loop]. apply IH; try assumption.
  destruct (gt _ max); [|exact Hm].
  apply fabs_valid, sub32_valid; now apply chan_valid.
Qed.

Lemma pixel_max_valid (col1 col2 : color) (n : Z) (ha st : bool)
      (crit : GimpSelectCriterion) :
  well_formed col1 -> well_formed col2 ->
  valid_binary 24 128 (pixel_max col1 col2 n ha st crit) = true.
Proof.
  intros H1 H2. unfold pixel_max.
  assert (Hd : forall i, valid_binary 24 128
                           (fabs (sub32 (chan col1 i) (chan col2 i))) = true).
  { intros i. apply fabs_valid, sub32_valid; now apply chan_valid. }
  destruct (st && ha); [apply Hd|].
  destruct crit; try apply Hd; try reflexivity.
  now apply composite_loop_valid.
Qed.

(** With antialiasing on, a sample the hard cutoff accepts still gets the
    full value. *)
Lemma pixel_difference_antialias (col1 col2 : color) (threshold : gfloat)
      (n : Z) (ha st : bool) (crit : GimpSelectCriterion) :
  well_formed col1 -> well_formed col2 ->
  valid_binary 24 128 threshold = true ->
  nonzero (pixel_difference col1 col2 false threshold n ha st crit) = true ->
  pixel_difference col1 col2 true threshold n ha st crit = one.
Proof.
  intros H1 H2 Vt. unfold pixel_difference.
  destruct (transparent_exit st ha col2 n); [discriminate|].
  intros Hnz. apply pixel_result_antialias.
  - exact Vt.
  - now apply pixel_max_valid.
  - apply pixel_max_nonneg.
  - destruct (pixel_result_binary false threshold
                (pixel_max col1 col2 n ha st crit)) as [E|E]; [now left| |exact E].
    rewrite E in Hnz. discriminate.
Qed.

(** ** Sampling *)

Lemma in_extent_true (w h c r : Z) :
  0 <= c < w -> 0 <= r < h -> in_extent w h c r = true.
Proof.
  intros Hc Hr. unfold in_extent.
  rewrite !andb_true_iff, !Z.leb_le, !Z.ltb_lt. lia.
Qed.

Lemma in_extent_inv (w h c r : Z) :
  in_extent w h c r = true -> 0 <= c < w /\ 0 <= r < h.
Proof.
  unfold in_extent. rewrite !andb_true_iff, !Z.leb_le, !Z.ltb_lt. lia.
Qed.


Lemma sample_inside (src : GimpPickable) (format : Babl) (c r : Z) :
  0 <= c < pickable_width src -> 0 <= r < pickable_height src ->
  gegl_buffer_sample src c r format = pickable_pixel src format c r.
Proof.
  intros Hc Hr. unfold gegl_buffer_sample. now rewrite in_extent_true.
Qed.

(** Outside the extent the alpha component of a sample reads 0. *)
Lemma sample_outside_alpha (src : GimpPickable) (format : Babl) (c r : Z) :
  in_extent (pickable_width src) (pickable_height src) c r = false ->
  babl_format_has_alpha format = true ->
  chan (gegl_buffer_sample src c r format)
    (babl_format_get_n_components format - 1) = zero.
Proof.
  intros Hout Ha. unfold gegl_buffer_sample, babl_format_get_n_components.
  rewrite Hout, Ha. now destruct (babl_base_type format).
Qed.

(** ** The bulk write *)

Lemma in_zseq (x : Z) (k : nat) (c : Z) :
  In c (zseq x k) <-> x <= c < x + Z.of_nat k.
Proof.
  revert x. induction k as [|k IH]; intros x; simpl zseq.
  - simpl. lia.
  - simpl In. rewrite IH. lia.
Qed.

Lemma in_kept_cols (x : Z) (k : nat) (c : Z) :
  In c (kept_cols x k) <-> 0 <= c /\ x <= c < x + Z.of_nat k.
Proof.
  unfold kept_cols. rewrite filter_In, in_zseq, Z.leb_le. lia.
Qed.

Lemma length_zseq (x : Z) (k : nat) : length (zseq x k) = k.
Proof.
  revert x. induction k as [|k IH]; intros x; simpl; [reflexivity|].
  now rewrite IH.
Qed.

Lemma NoDup_zseq (x : Z) (k : nat) : NoDup (zseq x k).
Proof.
  revert x. induction k as [|k IH]; intros x; simpl; constructor.
  - rewrite in_zseq. lia.
  - apply IH.
Qed.

Lemma NoDup_kept_cols (x : Z) (k : nat) : NoDup (kept_cols x k).
Proof. apply NoDup_filter, NoDup_zseq. Qed.

Lemma kept_cols_cons (x : Z) (k : nat) :
  kept_cols x (S k)
  = (if 0 <=? x then [x] else []) ++ kept_cols (x + 1) k.
Proof. unfold kept_cols. simpl. now destruct (0 <=? x). Qed.

Section SetRow.

Variables (y : Z) (data : mask_row) (f : Z -> gfloat).

Lemma set_row_spec (k : nat) :
  forall (m : MaskBuffer) (x : Z),
    (forall c, 0 <= c -> x <= c < x + Z.of_nat k -> data c = Some (f c)) ->
    0 <= y < mask_height m ->
    x + Z.of_nat k <= mask_width m ->
    let m' := set_row k m x y data in
    mask_width m' = mask_width m /\
    mask_height m' = mask_height m /\
    mask_writes m'
    = mask_writes m ++ map (fun c => (c, y, f c)) (kept_cols x k) /\
    (forall c r,
        mask_cell m' c r
        = if (r =? y) && (x <=? c) && (0 <=? c) && (c <? x + Z.of_nat k)
          then f c else mask_cell m c r).
Proof.
  induction k as [|k' IH]; intros m x Hdata Hy Hx.
  - simpl. rewrite app_nil_r. repeat split; try reflexivity.
    intros c r. zcases.
  - cbn [set_row]. rewrite kept_cols_cons.
    set (m1 := if in_extent (mask_width m) (mask_height m) x y
               then match data x with
                    | Some v => store_cell m x y v
                    | None => m
                    end
               else m).
    assert (H1 : mask_width m1 = mask_width m /\
                 mask_height m1 = mask_height m /\
                 mask_writes m1
                 = mask_writes m
                     ++ map (fun c => (c, y, f c))
                          (if 0 <=? x then [x] else []) /\
                 (forall c r, mask_cell m1 c r
                              = if (r =? y) && (c =? x) && (0 <=? c)
                                then f c else mask_cell m c r)).
    { unfold m1, in_extent.
      destruct (Z.leb_spec 0 x) as [Hx0|Hx0].
      - replace (x <? mask_width m) with true by (symmetry; apply Z.ltb_lt; lia).
        replace (0 <=? y) with true by (symmetry; apply Z.leb_le; lia).
        replace (y <? mask_height m) with true
          by (symmetry; apply Z.ltb_lt; lia).
        rewrite (Hdata x) by lia. cbn.
        repeat split; try reflexivity.
        intros c r. zcases.
      - simpl. rewrite app_nil_r. repeat split; try reflexivity.
        intros c r. zcases. }
    destruct H1 as (Hw1 & Hh1 & Hl1 & Hc1).
    specialize (IH m1 (x + 1)).
    destruct IH as (Hw & Hh & Hl & Hc).
    + intros c Hc0 Hr. apply Hdata; lia.
    + rewrite Hh1. exact Hy.
    + rewrite Hw1. lia.
    + cbv zeta. rewrite Hw, Hh, Hl, Hw1, Hh1, Hl1.
      repeat split; try reflexivity.
      * now rewrite map_app, app_assoc.
      * intros c r. rewrite Hc, Hc1. zcases.
Qed.

End SetRow.

(** ** The segment finder *)

Section Scan.

Variable probe : Z -> gfloat.

Lemma scan_left_stop (k : nat) (start : Z) (diff : gfloat) (row : mask_row) :
  nonzero diff = false ->
  scan_left probe k start diff row = (start, diff, row).
Proof.
  intros Hd. destruct k; simpl; [reflexivity|].
  now rewrite Hd, andb_false_r.
Qed.

Lemma scan_right_stop (width : Z) (k : nat) (e : Z) (diff : gfloat)
      (row : mask_row) :
  nonzero diff = false ->
  scan_right probe width k e diff row = (e, diff, row).
Proof.
  intros Hd. destruct k; simpl; [reflexivity|].
  now rewrite Hd, andb_false_r.
Qed.

Lemma scan_left_spec (k : nat) :
  forall start diff row s d row',
    scan_left probe k start diff row = (s, d, row') ->
    start + 1 <= Z.of_nat k -> -1 <= start ->
    -1 <= s <= start /\
    (forall c, s < c <= start ->
               nonzero (probe c) = true /\ row' c = Some (probe c)) /\
    (forall c, start < c -> row' c = row c) /\
    (nonzero diff = true -> 0 <= s ->
     nonzero (probe s) = false /\ row' s = Some (probe s)).
Proof.
  induction k as [|k IH]; intros start diff row s d row' E Hk Hs.
  - simpl in E. inversion E; subst.
    split; [lia|]. split; [intros; lia|]. split; [reflexivity|intros; lia].
  - simpl in E.
    destruct (Z.leb_spec 0 start) as [H0|H0]; simpl in E.
    2:{ inversion E; subst.
        split; [lia|]. split; [intros; lia|].
        split; [reflexivity|intros; lia]. }
    destruct (nonzero diff) eqn:Hd; simpl in E.
    2:{ inversion E; subst.
        split; [lia|]. split; [intros; lia|].
        split; [reflexivity|discriminate]. }
    destruct (nonzero (probe start)) eqn:Hp.
    + apply IH in E; try lia.
      destruct E as (Hb & Hin & Hout & Hstop).
      split; [lia|]. split; [|split].
      * intros c Hc. destruct (Z.eq_dec c start) as [->|Hne].
        -- split; [exact Hp|].
           rewrite Hout by lia. unfold row_set. now rewrite Z.eqb_refl.
        -- apply Hin. lia.
      * intros c Hc. rewrite Hout by lia. unfold row_set.
        destruct (Z.eqb_spec c start); [lia|reflexivity].
      * intros _. now apply Hstop.
    + rewrite scan_left_stop in E by exact Hp. inversion E; subst.
      split; [lia|]. split; [intros; lia|]. split.
      * intros c Hc. unfold row_set.
        destruct (Z.eqb_spec c s); [lia|reflexivity].
      * intros _ _. split; [exact Hp|].
        unfold row_set. now rewrite Z.eqb_refl.
Qed.

Lemma scan_right_spec (width : Z) (k : nat) :
  forall e0 diff row e d row',
    scan_right probe width k e0 diff row = (e, d, row') ->
    width - e0 <= Z.of_nat k -> e0 <= width ->
    e0 <= e <= width /\
    (forall c, e0 <= c < e ->
               nonzero (probe c) = true /\ row' c = Some (probe c)) /\
    (forall c, c < e0 -> row' c = row c) /\
    (nonzero diff = true -> e < width -> nonzero (probe e) = false).
Proof.
  induction k as [|k IH]; intros e0 diff row e d row' E Hk He.
  - simpl in E. inversion E; subst.
    split; [lia|]. split; [intros; lia|]. split; [reflexivity|intros; lia].
  - simpl in E.
    destruct (Z.ltb_spec e0 width) as [H0|H0]; simpl in E.
    2:{ inversion E; subst.
        split; [lia|]. split; [intros; lia|].
        split; [reflexivity|intros; lia]. }
    destruct (nonzero diff) eqn:Hd; simpl in E.
    2:{ inversion E; subst.
        split; [lia|]. split; [intros; lia|].
        split; [reflexivity|discriminate]. }
    destruct (nonzero (probe e0)) eqn:Hp.
    + apply IH in E; try lia.
      destruct E as (Hb & Hin & Hout & Hstop).
      split; [lia|]. split; [|split].
      * intros c Hc. destruct (Z.eq_dec c e0) as [->|Hne].
        -- split; [exact Hp|].
           rewrite Hout by lia. unfold row_set. now rewrite Z.eqb_refl.
        -- apply Hin. lia.
      * intros c Hc. rewrite Hout by lia. unfold row_set.
        destruct (Z.eqb_spec c e0); [lia|reflexivity].
      * intros _. now apply Hstop.
    + rewrite scan_right_stop in E by exact Hp. inversion E; subst.
      split; [lia|]. split; [intros; lia|]. split.
      * intros c Hc. unfold row_set.
        destruct (Z.eqb_spec c e); [lia|reflexivity].
      * intros _ _. exact Hp.
Qed.

End Scan.

(** ** The write history *)

Lemma replay_snoc (l : list (Z * Z * gfloat)) (c r : Z) (v : gfloat) :
  forall x y, replay (l ++ [(c, r, v)]) x y
              = if (x =? c) && (y =? r) then v else replay l x y.
Proof. intros x y. unfold replay. now rewrite fold_left_app. Qed.

Lemma replay_values (g : Z -> Z -> gfloat) (l : list (Z * Z * gfloat)) :
  (forall c r v, In (c, r, v) l -> v = g c r) ->
  forall c r, replay l c r = zero \/ replay l c r = g c r.
Proof.
  induction l as [|[[c0 r0] v0] l IH] using rev_ind; intros Hl c r.
  - now left.
  - rewrite replay_snoc.
    destruct ((c =? c0) && (r =? r0)) eqn:E.
    + right. apply andb_true_iff in E. destruct E as [Ec Er].
      apply Z.eqb_eq in Ec, Er. subst.
      apply Hl, in_or_app. right. now left.
    + apply IH. intros c1 r1 v1 Hin. apply Hl, in_or_app. now left.
Qed.

Lemma replay_untouched (l : list (Z * Z * gfloat)) (c r : Z) :
  ~ In (c, r) (map cell_of l) -> replay l c r = zero.
Proof.
  induction l as [|[[c0 r0] v0] l IH] using rev_ind; intros Hn.
  - reflexivity.
  - rewrite replay_snoc. rewrite map_app, in_app_iff in Hn. simpl in Hn.
    unfold cell_of in Hn at 2. simpl in Hn.
    destruct (Z.eqb_spec c c0), (Z.eqb_spec r r0); simpl; subst;
      try (apply IH; tauto).
    exfalso. apply Hn. right. now left.
Qed.

Lemma written_iff (m : MaskBuffer) (c r : Z) :
  written m c r <-> exists v, In (c, r, v) (mask_writes m).
Proof.
  unfold written. rewrite in_map_iff. split.
  - intros [[[c' r'] v] [E Hin]]. unfold cell_of in E. simpl in E.
    inversion E; subst. now exists v.
  - intros [v Hin]. now exists (c, r, v).
Qed.

Lemma written_dec (m : MaskBuffer) (c r : Z) :
  {written m c r} + {~ written m c r}.
Proof.
  apply in_dec. intros [a b] [a' b'].
  destruct (Z.eq_dec a a'), (Z.eq_dec b b');
    [left; congruence|right; congruence..].
Qed.



(** ** One selection call *)

Section Fill.

Variables (src_buffer : GimpPickable) (format : Babl).
Variables (select_transparent : bool) (select_criterion : GimpSelectCriterion).
Variables (antialias : bool) (threshold : gfloat) (col : color).

Local Abbreviation W := (pickable_width src_buffer).
Local Abbreviation H := (pickable_height src_buffer).
Local Abbreviation visit_ :=
  (visit src_buffer format select_transparent select_criterion antialias
     threshold col).
Local Abbreviation for_x_ :=
  (for_x src_buffer format select_transparent select_criterion antialias
     threshold col).
Local Abbreviation pop_and_scan_ :=
  (pop_and_scan src_buffer format select_transparent select_criterion
     antialias threshold col).
Local Abbreviation drain_ :=
  (drain src_buffer format select_transparent select_criterion antialias
     threshold col).

Local Abbreviation similarity :=
  (similarity src_buffer format select_transparent select_criterion antialias
     threshold col).
Local Abbreviation segment :=
  (segment src_buffer format select_transparent select_criterion antialias
     threshold col).
Local Abbreviation segment_post :=
  (segment_post src_buffer format select_transparent select_criterion
     antialias threshold col).
Local Abbreviation mask_ok :=
  (mask_ok src_buffer format select_transparent select_criterion antialias
     threshold col).
Local Abbreviation visit_case :=
  (visit_case src_buffer format select_transparent select_criterion antialias
     threshold col).
Local Abbreviation state_ok :=
  (state_ok src_buffer format select_transparent select_criterion antialias
     threshold col).
Local Abbreviation push_rows := (push_rows src_buffer).
Local Abbreviation queue_ok := (queue_ok src_buffer).
Local Abbreviation cells := (cells src_buffer).
Local Abbreviation start_state := (start_state src_buffer).
Local Abbreviation frontier := (frontier src_buffer).
Local Abbreviation spreading := (spreading src_buffer).

Lemma segment_spec (m : MaskBuffer) (x y : Z) :
  0 <= x < W -> 0 <= y < H -> mask_width m = W -> mask_height m = H ->
  match segment m x y with
  | None => nonzero (similarity x y) = false
  | Some (m', s, e) => segment_post m x y m' s e
  end.
Proof.
  intros Hx Hy Hmw Hmh. unfold segment, find_contiguous_segment.
  fold (similarity x y).
  destruct (nonzero (similarity x y)) eqn:Hseed; simpl; [|reflexivity].
  set (probe := fun c => pixel_difference col
                           (gegl_buffer_sample src_buffer c y format)
                           antialias threshold
                           (babl_format_get_n_components format)
                           (babl_format_has_alpha format)
                           select_transparent select_criterion).
  change probe with (fun c => similarity c y) in *. clear probe.
  set (probe := fun c => similarity c y).
  set (row0 := row_set row_empty x (similarity x y)).
  destruct (scan_left probe (Z.to_nat x) (x - 1) (similarity x y) row0)
    as [[s dl] rowl] eqn:El.
  destruct (scan_right probe (pickable_width src_buffer)
              (Z.to_nat (pickable_width src_buffer - (x + 1))) (x + 1)
              one rowl) as [[e dr] rowr] eqn:Er.
  apply scan_left_spec in El; [|lia|lia].
  apply scan_right_spec in Er; [|lia|lia].
  destruct El as (Ls & Lin & Lout & Lstop).
  destruct Er as (Re & Rin & Rout & Rstop).
  assert (Hdata : forall c, 0 <= c ->
                    s <= c < s + Z.of_nat (Z.to_nat (e - s)) ->
                    rowr c = Some (similarity c y)).
  { intros c Hc0 Hc. rewrite Z2Nat.id in Hc by lia.
    destruct (Z_lt_le_dec c (x + 1)) as [Hl|Hr].
    - rewrite Rout by lia.
      destruct (Z.eq_dec c x) as [->|Hne].
      + rewrite Lout by lia. unfold row0, row_set. now rewrite Z.eqb_refl.
      + destruct (Z.eq_dec c s) as [->|Hne'].
        * now apply Lstop.
        * apply Lin. lia.
    - apply Rin. lia. }
  destruct (set_row_spec y rowr (fun c => similarity c y)
              (Z.to_nat (e - s)) m s Hdata) as (Hw' & Hh' & Hl' & Hc').
  { lia. }
  { rewrite Z2Nat.id by lia. lia. }
  unfold gegl_buffer_set.
  constructor; try assumption; try lia.
  - intros c Hc. destruct (Z_lt_le_dec c x) as [Hl|Hr].
    + apply Lin. lia.
    + destruct (Z.eq_dec c x) as [->|Hne]; [exact Hseed|].
      apply Rin. lia.
  - intros Hs0. now apply Lstop.
  - now apply Rstop.
  - intros c r. rewrite Hc'. rewrite Z2Nat.id by lia.
    replace (s + (e - s)) with e by lia. reflexivity.
Qed.

(** *** The invariant of the mask *)

Lemma mask_ok_new : mask_ok (gimp_channel_new_mask W H).
Proof.
  constructor; simpl; try reflexivity; try (intros; contradiction);
    try (intros; reflexivity).
  constructor.
Qed.

Lemma written_in_extent (m : MaskBuffer) (c r : Z) :
  mask_ok m -> written m c r -> 0 <= c < W /\ 0 <= r < H.
Proof.
  intros Hok Hw. apply written_iff in Hw. destruct Hw as [v Hin].
  apply (ok_log m Hok) in Hin. tauto.
Qed.

Lemma written_cell (m : MaskBuffer) (c r : Z) :
  mask_ok m -> written m c r -> mask_cell m c r = similarity c r.
Proof.
  intros Hok Hw. apply written_iff in Hw. destruct Hw as [v Hin].
  apply (ok_log m Hok) in Hin. destruct Hin as (_ & _ & -> & ->).
  reflexivity.
Qed.

Lemma nonzero_written (m : MaskBuffer) (c r : Z) :
  mask_ok m -> nonzero (mask_cell m c r) = true -> written m c r.
Proof.
  intros Hok Hnz. destruct (written_dec m c r) as [Hw|Hn]; [exact Hw|].
  rewrite (ok_blank m Hok c r Hn) in Hnz. discriminate.
Qed.

(** A stored cell of a run brings the whole run with it. *)
Lemma run_right (m : MaskBuffer) (r : Z) (k : nat) :
  mask_ok m ->
  forall c, written m c r ->
            (forall c', c <= c' <= c + Z.of_nat k ->
                        nonzero (similarity c' r) = true) ->
            c + Z.of_nat k < W ->
            written m (c + Z.of_nat k) r.
Proof.
  intros Hok. induction k as [|k IH]; intros c Hw Hrun Hb.
  - now replace (c + Z.of_nat 0) with c by lia.
  - replace (c + Z.of_nat (S k)) with (c + Z.of_nat k + 1) by lia.
    apply (ok_right m Hok).
    + apply IH; [exact Hw| |lia]. intros c' Hc'. apply Hrun. lia.
    + apply Hrun. lia.
    + lia.
    + apply Hrun. lia.
Qed.

Lemma run_left (m : MaskBuffer) (r : Z) (k : nat) :
  mask_ok m ->
  forall c, written m c r ->
            (forall c', c - Z.of_nat k <= c' <= c ->
                        nonzero (similarity c' r) = true) ->
            0 <= c - Z.of_nat k ->
            written m (c - Z.of_nat k) r.
Proof.
  intros Hok. induction k as [|k IH]; intros c Hw Hrun Hb.
  - now replace (c - Z.of_nat 0) with c by lia.
  - replace (c - Z.of_nat (S k)) with (c - Z.of_nat k - 1) by lia.
    apply (ok_left m Hok).
    + apply IH; [exact Hw| |lia]. intros c' Hc'. apply Hrun. lia.
    + apply Hrun. lia.
    + lia.
    + apply Hrun. lia.
Qed.

Lemma run_closed (m : MaskBuffer) (r c d : Z) :
  mask_ok m -> written m c r -> 0 <= d < W ->
  (forall c', Z.min c d <= c' <= Z.max c d ->
              nonzero (similarity c' r) = true) ->
  written m d r.
Proof.
  intros Hok Hw Hd Hrun.
  destruct (Z_le_gt_dec c d) as [Hle|Hgt].
  - replace d with (c + Z.of_nat (Z.to_nat (d - c))) by lia.
    apply run_right; try assumption; [|lia].
    intros c' Hc'. apply Hrun. lia.
  - replace d with (c - Z.of_nat (Z.to_nat (c - d))) by lia.
    apply run_left; try assumption; [|lia].
    intros c' Hc'. apply Hrun. lia.
Qed.

(** *** A successful segment keeps the invariant *)

Section SegmentStep.

Variables (m m' : MaskBuffer) (x y s e : Z).
Hypothesis Hok : mask_ok m.
Hypothesis Hx : 0 <= x < W.
Hypothesis Hy : 0 <= y < H.
Hypothesis Hblank : nonzero (mask_cell m x y) = false.
Hypothesis Hseg : segment_post m x y m' s e.

Lemma seed_not_written : ~ written m x y.
Proof.
  intros Hw. rewrite (written_cell m x y Hok Hw) in Hblank.
  rewrite (seg_seed _ _ _ _ _ _ Hseg) in Hblank. discriminate.
Qed.

Lemma segment_fresh (c : Z) : 0 <= c -> s <= c < e -> ~ written m c y.
Proof.
  intros Hc0 Hc Hw.
  assert (Hrun : forall c', s < c' < e -> ~ written m c' y).
  { intros c' Hc' Hw'. apply seed_not_written.
    apply (run_closed m y c' x Hok Hw' Hx).
    intros c'' Hc''. apply (seg_run _ _ _ _ _ _ Hseg).
    pose proof (seg_start _ _ _ _ _ _ Hseg).
    pose proof (seg_end _ _ _ _ _ _ Hseg). lia. }
  destruct (Z.eq_dec c s) as [->|Hne].
  - destruct (ok_stop m Hok s y Hw) as [Hw1 _].
    + now apply (seg_left_stop _ _ _ _ _ _ Hseg).
    + apply (Hrun (s + 1)); [|exact Hw1].
      pose proof (seg_start _ _ _ _ _ _ Hseg).
      pose proof (seg_end _ _ _ _ _ _ Hseg). lia.
  - apply (Hrun c); [lia|exact Hw].
Qed.

Lemma written_after (c r : Z) :
  written m' c r <-> written m c r \/ (r = y /\ 0 <= c /\ s <= c < e).
Proof.
  pose proof (seg_start _ _ _ _ _ _ Hseg) as Hs.
  pose proof (seg_end _ _ _ _ _ _ Hseg) as He.
  unfold written. rewrite (seg_writes _ _ _ _ _ _ Hseg).
  rewrite map_app, in_app_iff, map_map. split.
  - intros [Hold|Hnew]; [now left|right].
    apply in_map_iff in Hnew. destruct Hnew as [c' [E Hin]].
    inversion E; subst. apply in_kept_cols in Hin.
    rewrite Z2Nat.id in Hin by lia. lia.
  - intros [Hold|(-> & Hc0 & Hc)]; [now left|right].
    apply in_map_iff. exists c. split; [reflexivity|].
    apply in_kept_cols. rewrite Z2Nat.id by lia. lia.
Qed.

Lemma cell_after (c r : Z) :
  mask_cell m' c r
  = if (r =? y) && (s <=? c) && (0 <=? c) && (c <? e)
    then similarity c y else mask_cell m c r.
Proof. apply (seg_cells _ _ _ _ _ _ Hseg). Qed.

Lemma segment_ok : mask_ok m'.
Proof.
  pose proof (seg_start _ _ _ _ _ _ Hseg) as Hs.
  pose proof (seg_end _ _ _ _ _ _ Hseg) as He.
  assert (Hlog : forall c r v,
             In (c, r, v) (mask_writes m') ->
             In (c, r, v) (mask_writes m) \/
             (r = y /\ 0 <= c /\ s <= c < e /\ v = similarity c y)).
  { intros c r v. rewrite (seg_writes _ _ _ _ _ _ Hseg), in_app_iff.
    intros [Hold|Hnew]; [now left|right].
    apply in_map_iff in Hnew. destruct Hnew as [c' [E Hin]].
    inversion E; subst. apply in_kept_cols in Hin.
    rewrite Z2Nat.id in Hin by lia. repeat split; lia. }
  constructor.
  - rewrite (seg_width _ _ _ _ _ _ Hseg). apply (ok_width m Hok).
  - rewrite (seg_height _ _ _ _ _ _ Hseg). apply (ok_height m Hok).
  - (* the cells are the replay of the history *)
    intros c r. rewrite cell_after, (seg_writes _ _ _ _ _ _ Hseg).
    rewrite (ok_replay m Hok).
    generalize (mask_writes m) as l. intros l.
    assert (G : forall cols, 
               (forall c', In c' cols -> 0 <= c' /\ s <= c' < e) ->
               replay (l ++ map (fun c0 => (c0, y, similarity c0 y)) cols)
                      c r
               = if (r =? y) && existsb (Z.eqb c) cols
                 then similarity c y else replay l c r).
    { induction cols as [|c0 cols IH] using rev_ind; intros Hcols.
      - simpl. rewrite app_nil_r. now rewrite andb_false_r.
      - rewrite map_app, app_assoc. simpl map. rewrite replay_snoc.
        rewrite IH by (intros; apply Hcols, in_or_app; now left).
        rewrite existsb_app. simpl existsb. rewrite orb_false_r.
        destruct (Z.eqb_spec c c0), (Z.eqb_spec r y); subst; simpl;
          rewrite ?orb_true_r, ?orb_false_r, ?andb_false_r;
          reflexivity. }
    rewrite G.
    + replace (existsb (Z.eqb c) (kept_cols s (Z.to_nat (e - s))))
        with ((s <=? c) && (0 <=? c) && (c <? e)).
      * now rewrite !andb_assoc.
      * apply eq_true_iff_eq. rewrite existsb_exists.
        rewrite !andb_true_iff, !Z.leb_le, Z.ltb_lt. split.
        -- intros Hc. exists c. rewrite Z.eqb_refl, in_kept_cols.
           rewrite Z2Nat.id by lia. repeat split; lia.
        -- intros [c' [Hin E]]. apply Z.eqb_eq in E. subst c'.
           apply in_kept_cols in Hin.
           rewrite Z2Nat.id in Hin by lia. lia.
    + intros c' Hin. apply in_kept_cols in Hin.
      rewrite Z2Nat.id in Hin by lia. lia.
  - (* every store is in the extent and carries the similarity *)
    intros c r v Hin. rewrite cell_after.
    destruct (Hlog c r v Hin) as [Hold|(-> & Hc0 & Hc & ->)].
    + destruct (ok_log m Hok c r v Hold) as (Hc & Hr & Hv & Hcell).
      repeat split; try lia; try assumption.
      destruct ((r =? y) && (s <=? c) && (0 <=? c) && (c <? e)) eqn:E;
        [|assumption].
      rewrite !andb_true_iff, Z.eqb_eq in E.
      destruct E as [[[-> _] _] _]. now symmetry.
    + repeat split; try lia.
      replace ((y =? y) && (s <=? c) && (0 <=? c) && (c <? e)) with true;
        [reflexivity|].
      symmetry. rewrite !andb_true_iff, Z.eqb_eq, !Z.leb_le, Z.ltb_lt.
      lia.
  - (* a cell without a store is still 0 *)
    intros c r Hn. rewrite cell_after.
    rewrite written_after in Hn.
    destruct ((r =? y) && (s <=? c) && (0 <=? c) && (c <? e)) eqn:E.
    + rewrite !andb_true_iff, Z.eqb_eq, !Z.leb_le, Z.ltb_lt in E.
      exfalso. apply Hn. right. lia.
    + apply (ok_blank m Hok). tauto.
  - (* no cell is stored twice *)
    rewrite (seg_writes _ _ _ _ _ _ Hseg), map_app, map_map.
    apply NoDup_app.
    + apply (ok_nodup m Hok).
    + apply NoDup_map_NoDup_ForallPairs; [|apply NoDup_kept_cols].
      intros a b _ _ E. now inversion E.
    + intros [c r] Hold Hnew. apply in_map_iff in Hnew.
      destruct Hnew as [c' [E Hin]]. injection E as Ec Er.
      rewrite <- Ec, <- Er in Hold.
      apply in_kept_cols in Hin. rewrite Z2Nat.id in Hin by lia.
      apply (segment_fresh c'); [lia|lia|exact Hold].
  - (* closure to the right *)
    intros c r Hw Hnz Hb Hnz1. rewrite written_after in *.
    destruct Hw as [Hold|(-> & Hc0 & Hc)].
    + left. now apply (ok_right m Hok).
    + right. split; [reflexivity|]. split; [lia|].
      destruct (Z.eq_dec (c + 1) e) as [E|E]; [|lia].
      rewrite E in Hnz1, Hb.
      rewrite (seg_right_stop _ _ _ _ _ _ Hseg Hb) in Hnz1. discriminate.
  - (* closure to the left *)
    intros c r Hw Hnz Hb Hnz1. rewrite written_after in *.
    destruct Hw as [Hold|(-> & Hc0 & Hc)].
    + left. now apply (ok_left m Hok).
    + right. split; [reflexivity|]. split; [lia|].
      destruct (Z.eq_dec c s) as [E|E]; [|lia].
      subst c. rewrite (seg_left_stop _ _ _ _ _ _ Hseg Hc0) in Hnz.
      discriminate.
  - (* a stored 0 is the left stop of a stored run *)
    intros c r Hw Hz. rewrite written_after in Hw.
    destruct Hw as [Hold|(-> & Hc0 & Hc)].
    + destruct (ok_stop m Hok c r Hold Hz) as [Hw1 Hnz1].
      split; [|exact Hnz1]. apply written_after. now left.
    + assert (c = s).
      { destruct (Z.eq_dec c s) as [E|E]; [exact E|].
        rewrite (seg_run _ _ _ _ _ _ Hseg c) in Hz by lia.
        discriminate. }
      subst c. split.
      * apply written_after. right. lia.
      * apply (seg_run _ _ _ _ _ _ Hseg). lia.
Qed.

Lemma segment_grows :
  (length (mask_writes m) < length (mask_writes m'))%nat.
Proof.
  pose proof (seg_start _ _ _ _ _ _ Hseg) as Hs.
  pose proof (seg_end _ _ _ _ _ _ Hseg) as He.
  rewrite (seg_writes _ _ _ _ _ _ Hseg), length_app, length_map.
  assert (Hin : In x (kept_cols s (Z.to_nat (e - s)))).
  { apply in_kept_cols. rewrite Z2Nat.id by lia. lia. }
  destruct (kept_cols s (Z.to_nat (e - s))); [contradiction|].
  simpl. lia.
Qed.

End SegmentStep.

(** *** The work list *)

Lemma in_push_rows (q : list (Z * Z * Z)) (y s e : Z) (t : Z * Z * Z) :
  In t (push_rows q y s e) <->
  In t q \/ (t = (y + 1, s, e) /\ y + 1 < H) \/ (t = (y - 1, s, e) /\ 0 <= y - 1).
Proof.
  unfold push_rows.
  destruct (Z.ltb_spec (y + 1) H), (Z.leb_spec 0 (y - 1));
    rewrite ?in_app_iff; simpl; intuition (try lia; auto).
Qed.

Lemma length_push_rows (q : list (Z * Z * Z)) (y s e : Z) :
  (length q <= length (push_rows q y s e) <= length q + 2)%nat.
Proof.
  unfold push_rows.
  destruct (y + 1 <? H), (0 <=? y - 1); rewrite ?length_app; simpl; lia.
Qed.

Lemma visit_cases (y x : Z) (st : fill_state) :
  0 <= x < W -> 0 <= y < H -> mask_ok (fill_mask st) ->
  visit_case y x st.
Proof.
  intros Hx Hy Hok.
  assert (Hs : mask_sample (fill_mask st) x y = mask_cell (fill_mask st) x y).
  { unfold mask_sample, in_extent.
    rewrite (ok_width _ Hok), (ok_height _ Hok).
    replace (0 <=? x) with true by (symmetry; apply Z.leb_le; lia).
    replace (x <? W) with true by (symmetry; apply Z.ltb_lt; lia).
    replace (0 <=? y) with true by (symmetry; apply Z.leb_le; lia).
    replace (y <? H) with true by (symmetry; apply Z.ltb_lt; lia).
    reflexivity. }
  destruct (nonzero (mask_cell (fill_mask st) x y)) eqn:Hc.
  - apply visit_claimed; [exact Hc|]. unfold visit. now rewrite Hs, Hc.
  - pose proof (segment_spec (fill_mask st) x y Hx Hy
                  (ok_width _ Hok) (ok_height _ Hok)) as Hseg.
    unfold segment in Hseg.
    destruct (find_contiguous_segment col src_buffer (fill_mask st) format
                (babl_format_get_n_components format)
                (babl_format_has_alpha format) W select_transparent
                select_criterion antialias threshold x y)
      as [[[m' s] e]|] eqn:E.
    + apply (visit_segment y x st m' s e); [exact Hc|exact Hseg|].
      unfold visit. rewrite Hs, Hc, E. reflexivity.
    + apply visit_no_match; [exact Hc|exact Hseg|].
      unfold visit. now rewrite Hs, Hc, E.
Qed.

Lemma state_ok_refl (st : fill_state) :
  mask_ok (fill_mask st) -> queue_ok (coord_stack st) -> state_ok st st.
Proof. intros Hm Hq. constructor; auto. Qed.

Lemma state_ok_trans (st0 st1 st2 : fill_state) :
  state_ok st0 st1 -> state_ok st1 st2 -> state_ok st0 st2.
Proof.
  intros [_ _ M1 P1] [Hm Hq M2 P2]. constructor; auto; lia.
Qed.

Lemma visit_ok (y x : Z) (st : fill_state) :
  0 <= x < W -> 0 <= y < H ->
  mask_ok (fill_mask st) -> queue_ok (coord_stack st) ->
  state_ok st (visit_ y x st).
Proof.
  intros Hx Hy Hm Hq.
  destruct (visit_cases y x st Hx Hy Hm) as [_ ->|_ _ ->|m' s e Hc Hseg ->];
    try (now apply state_ok_refl).
  assert (Hg : (length (mask_writes (fill_mask st))
                < length (mask_writes m'))%nat)
    by (eapply segment_grows; eassumption).
  pose proof (length_push_rows (coord_stack st) y s e) as Hl.
  constructor; unfold writes; simpl; try lia.
  - apply (segment_ok (fill_mask st) m' x y s e); assumption.
  - intros y' s' e' Hin. apply in_push_rows in Hin.
    pose proof (seg_start _ _ _ _ _ _ Hseg).
    pose proof (seg_end _ _ _ _ _ _ Hseg).
    destruct Hin as [Hin|[[E Hb]|[E Hb]]].
    + now apply Hq.
    + inversion E; subst. lia.
    + inversion E; subst. lia.
Qed.

Lemma for_x_ok (y : Z) (k : nat) :
  0 <= y < H ->
  forall x st,
    0 <= x -> x + Z.of_nat k <= W ->
    mask_ok (fill_mask st) -> queue_ok (coord_stack st) ->
    state_ok st (for_x_ k y x st).
Proof.
  intros Hy. induction k as [|k IH]; intros x st Hx0 Hx Hm Hq.
  - now apply state_ok_refl.
  - simpl. pose proof (visit_ok y x st ltac:(lia) Hy Hm Hq) as H1.
    apply (state_ok_trans _ _ _ H1).
    apply IH; try lia; [apply (st_mask _ _ H1)|apply (st_queue _ _ H1)].
Qed.

Lemma pop_and_scan_ok (st : fill_state) :
  mask_ok (fill_mask st) -> queue_ok (coord_stack st) ->
  coord_stack st <> [] ->
  mask_ok (fill_mask (pop_and_scan_ st)) /\
  queue_ok (coord_stack (pop_and_scan_ st)) /\
  (writes st <= writes (pop_and_scan_ st))%nat /\
  (S (length (coord_stack (pop_and_scan_ st))) + 2 * writes st
   <= length (coord_stack st) + 2 * writes (pop_and_scan_ st))%nat.
Proof.
  intros Hm Hq Hne. unfold pop_and_scan.
  destruct (coord_stack st) as [|[[y s] e] rest] eqn:E; [contradiction|].
  destruct (Hq y s e ltac:(now left)) as (Hy & Hs & He).
  set (st1 := {| coord_stack := rest; fill_mask := fill_mask st |}).
  assert (Hq1 : queue_ok (coord_stack st1)).
  { intros y' s' e' Hin. apply Hq. now right. }
  destruct (Z_lt_le_dec (s + 1) e) as [Hlt|Hge].
  - pose proof (for_x_ok y (Z.to_nat (e - (s + 1))) Hy (s + 1) st1
                  ltac:(lia) ltac:(lia) Hm Hq1) as [M Q Mo Pa].
    unfold writes in *. simpl in *.
    split; [exact M|]. split; [exact Q|]. split; lia.
  - replace (Z.to_nat (e - (s + 1))) with 0%nat by lia. simpl.
    unfold writes. simpl.
    split; [exact Hm|]. split; [exact Hq1|]. split; lia.
Qed.

(** The history never holds more than one store per cell of the extent. *)
Lemma writes_bounded (m : MaskBuffer) :
  mask_ok m ->
  (length (mask_writes m) <= Z.to_nat W * Z.to_nat H)%nat.
Proof.
  intros Hok.
  rewrite <- (length_map cell_of).
  rewrite <- (length_zseq 0 (Z.to_nat W)), <- (length_zseq 0 (Z.to_nat H)).
  rewrite <- length_prod.
  apply NoDup_incl_length; [apply (ok_nodup m Hok)|].
  intros [c r] Hin.
  destruct (written_in_extent m c r Hok Hin) as [Hc Hr].
  apply in_prod_iff. rewrite !in_zseq. lia.
Qed.

(** *** Termination and what holds when the work list is empty *)

Lemma start_state_ok (x y : Z) :
  0 <= x < W -> 0 <= y < H ->
  mask_ok (fill_mask (start_state x y)) /\
  queue_ok (coord_stack (start_state x y)).
Proof.
  intros Hx Hy. split; [apply mask_ok_new|].
  intros y' s e [E|[]]. inversion E; subst. lia.
Qed.

Lemma pop_and_scan_keeps (st : fill_state) :
  mask_ok (fill_mask st) /\ queue_ok (coord_stack st) ->
  mask_ok (fill_mask (pop_and_scan_ st)) /\
  queue_ok (coord_stack (pop_and_scan_ st)).
Proof.
  intros [Hm Hq]. destruct (coord_stack st) as [|t q] eqn:E.
  - unfold pop_and_scan. rewrite E. cbv iota.
    split; [exact Hm|]. rewrite E. exact Hq.
  - rewrite <- E in Hq.
    destruct (pop_and_scan_ok st Hm Hq) as (M & Q & _); [|now split].
    rewrite E. discriminate.
Qed.

(** A property kept by every pass holds when [drain] returns. *)
Lemma drain_sound (P : fill_state -> Prop) :
  (forall st, P st -> coord_stack st <> [] -> P (pop_and_scan_ st)) ->
  forall fuel st st',
    P st -> coord_stack st <> [] -> drain_ fuel st = Some st' ->
    P st' /\ coord_stack st' = [].
Proof.
  intros Hstep. induction fuel as [|fuel IH]; intros st st' HP Hne E.
  - discriminate.
  - simpl in E.
    destruct (coord_stack (pop_and_scan_ st)) as [|t q] eqn:Eq.
    + inversion E; subst. split; [now apply Hstep|exact Eq].
    + apply (IH (pop_and_scan_ st)); [now apply Hstep| |exact E].
      rewrite Eq. discriminate.
Qed.

(** Enough fuel: one pass per triple, and at most two triples are pushed
    for each cell stored for the first time. *)
Lemma drain_terminates (fuel : nat) :
  forall st,
    mask_ok (fill_mask st) -> queue_ok (coord_stack st) ->
    coord_stack st <> [] ->
    (length (coord_stack st) + 2 * cells <= fuel + 2 * writes st)%nat ->
    exists st', drain_ fuel st = Some st'.
Proof.
  induction fuel as [|fuel IH]; intros st Hm Hq Hne Hfuel.
  - pose proof (writes_bounded _ Hm) as Hb. fold cells in Hb.
    unfold writes in Hfuel.
    destruct (coord_stack st); [contradiction|]. simpl in Hfuel. lia.
  - simpl.
    destruct (pop_and_scan_ok st Hm Hq Hne) as (M & Q & Mo & Pa).
    destruct (coord_stack (pop_and_scan_ st)) as [|t q] eqn:Eq.
    + now exists (pop_and_scan_ st).
    + apply IH; try assumption.
      * now rewrite Eq.
      * rewrite Eq. discriminate.
      * rewrite Eq. lia.
Qed.

Lemma helper_returns (P : fill_state -> Prop) (x y : Z) (fuel : nat) :
  0 <= x < W -> 0 <= y < H ->
  (2 * cells + 1 <= fuel)%nat ->
  P (start_state x y) ->
  (forall st, mask_ok (fill_mask st) -> queue_ok (coord_stack st) ->
              P st -> coord_stack st <> [] -> P (pop_and_scan_ st)) ->
  exists st, drain_ fuel (start_state x y) = Some st /\
             mask_ok (fill_mask st) /\ coord_stack st = [] /\ P st.
Proof.
  intros Hx Hy Hfuel HP Hstep.
  destruct (start_state_ok x y Hx Hy) as [Hm Hq].
  destruct (drain_terminates fuel (start_state x y) Hm Hq) as [st E].
  - discriminate.
  - simpl. lia.
  - exists st. split; [exact E|].
    destruct (drain_sound
                (fun st => (mask_ok (fill_mask st) /\
                            queue_ok (coord_stack st)) /\ P st))
      with (fuel := fuel) (st := start_state x y) (st' := st)
      as [[[M Q] HP'] Hempty]; auto; try discriminate.
    intros st0 [[M0 Q0] HP0] Hne. split.
    + now apply pop_and_scan_keeps.
    + now apply Hstep.
Qed.

(** *** When every pixel matches, every cell is stored *)

Section AllMatch.

Hypothesis Hall :
  forall c r, 0 <= c < W -> 0 <= r < H -> nonzero (similarity c r) = true.

Lemma row_written_all (m : MaskBuffer) (r c : Z) :
  mask_ok m -> row_written m r -> 0 <= c < W -> written m c r.
Proof.
  intros Hok [c0 Hw] Hc.
  destruct (written_in_extent m c0 r Hok Hw) as [Hc0 Hr].
  apply (run_closed m r c0 c Hok Hw Hc).
  intros c' Hc'. apply Hall; lia.
Qed.

Lemma visit_frontier (y x : Z) (st : fill_state) :
  0 <= x < W -> 0 <= y < H ->
  mask_ok (fill_mask st) -> queue_ok (coord_stack st) ->
  intervals_ok st -> frontier (Some y) st ->
  intervals_ok (visit_ y x st) /\ frontier None (visit_ y x st) /\
  row_written (fill_mask (visit_ y x st)) y.
Proof.
  intros Hx Hy Hm Hq Hi Hf.
  destruct (visit_cases y x st Hx Hy Hm)
    as [Hc ->|_ Hz _|m' s e Hc Hseg ->].
  - assert (Hw : row_written (fill_mask st) y).
    { exists x. now apply nonzero_written. }
    split; [exact Hi|]. split; [|exact Hw].
    intros r r' Hr Hr' Ha Hrw.
    destruct (Hf r r' Hr Hr' Ha Hrw) as [H1|[H1|H1]]; auto.
    inversion H1; subst. now left.
  - rewrite Hall in Hz by assumption. discriminate.
  - pose proof (seg_start _ _ _ _ _ _ Hseg) as Hs.
    pose proof (seg_end _ _ _ _ _ _ Hseg) as He.
    assert (Hwa : forall c r,
               written m' c r <->
               written (fill_mask st) c r \/
               (r = y /\ 0 <= c /\ s <= c < e)).
    { intros c r. eapply written_after; eassumption. }
    assert (Hw : row_written m' y).
    { exists x. apply Hwa. right. lia. }
    simpl. split; [|split; [|exact Hw]].
    + intros y' s' e' Hin. apply in_push_rows in Hin.
      destruct Hin as [Hin|[[E _]|[E _]]];
        [now apply (Hi y' s' e')| |]; inversion E; subst; lia.
    + intros r r' Hr Hr' Ha [c Hrw]. simpl.
      apply Hwa in Hrw. destruct Hrw as [Hold|(-> & _)].
      * destruct (Hf r r' Hr Hr' Ha) as [[c' H1]|[[s' [e' H1]]|H1]].
        -- now exists c.
        -- left. exists c'. apply Hwa. now left.
        -- right. left. exists s', e'. apply in_push_rows. now left.
        -- inversion H1; subst. now left.
      * right. left. exists s, e. apply in_push_rows. right.
        destruct Ha as [-> | ->]; [left|right]; split; auto; lia.
Qed.

Lemma frontier_weaken (y : Z) (st : fill_state) :
  frontier None st -> frontier (Some y) st.
Proof.
  intros Hf r r' Hr Hr' Ha Hw.
  destruct (Hf r r' Hr Hr' Ha Hw) as [H1|[H1|H1]]; auto. discriminate.
Qed.

Lemma for_x_frontier (y : Z) (k : nat) :
  0 <= y < H ->
  forall x st,
    0 <= x -> x + Z.of_nat k <= W ->
    mask_ok (fill_mask st) -> queue_ok (coord_stack st) ->
    intervals_ok st -> frontier None st ->
    row_written (fill_mask st) y ->
    intervals_ok (for_x_ k y x st) /\ frontier None (for_x_ k y x st) /\
    row_written (fill_mask (for_x_ k y x st)) y.
Proof.
  intros Hy. induction k as [|k IH]; intros x st Hx0 Hx Hm Hq Hi Hf Hw.
  - simpl. auto.
  - simpl.
    destruct (visit_frontier y x st ltac:(lia) Hy Hm Hq Hi
                (frontier_weaken y st Hf)) as (Hi1 & Hf1 & Hw1).
    pose proof (visit_ok y x st ltac:(lia) Hy Hm Hq) as [M Q _ _].
    apply IH; auto; lia.
Qed.

Lemma pop_and_scan_spreading (st : fill_state) :
  mask_ok (fill_mask st) -> queue_ok (coord_stack st) ->
  spreading st -> coord_stack st <> [] ->
  spreading (pop_and_scan_ st).
Proof.
  intros Hm Hq (Hi & Hf & _) Hne. unfold pop_and_scan.
  destruct (coord_stack st) as [|[[y s] e] rest] eqn:E; [contradiction|].
  destruct (Hq y s e ltac:(now left)) as (Hy & Hs & He).
  pose proof (Hi y s e ltac:(rewrite E; now left)) as Hse.
  set (st1 := {| coord_stack := rest; fill_mask := fill_mask st |}).
  assert (Hq1 : queue_ok (coord_stack st1)).
  { intros y' s' e' Hin. apply Hq. now right. }
  assert (Hi1 : intervals_ok st1).
  { intros y' s' e' Hin. apply (Hi y' s' e'). rewrite E. now right. }
  assert (Hf1 : frontier (Some y) st1).
  { intros r r' Hr Hr' Ha Hw.
    destruct (Hf r r' Hr Hr' Ha Hw) as [H1|[[s' [e' H1]]|H1]];
      [now left| |discriminate].
    rewrite E in H1. destruct H1 as [H1|H1].
    - inversion H1; subst. now right; right.
    - right. left. now exists s', e'. }
  destruct (Z.to_nat (e - (s + 1))) as [|k] eqn:Ek; [lia|].
  cbn [for_x].
  destruct (visit_frontier y (s + 1) st1 ltac:(lia) Hy Hm Hq1 Hi1 Hf1)
    as (Hi2 & Hf2 & Hw2).
  pose proof (visit_ok y (s + 1) st1 ltac:(lia) Hy Hm Hq1) as [M Q _ _].
  destruct (for_x_frontier y k Hy (s + 1 + 1) (visit_ y (s + 1) st1))
    as (Hi3 & Hf3 & Hw3); auto; try lia.
  split; [exact Hi3|]. split; [exact Hf3|]. left. now exists y.
Qed.

Lemma rows_connected (st : fill_state) (r0 : Z) :
  frontier None st -> coord_stack st = [] -> 0 <= r0 < H ->
  row_written (fill_mask st) r0 ->
  forall k : nat,
    (r0 + Z.of_nat k < H -> row_written (fill_mask st) (r0 + Z.of_nat k)) /\
    (0 <= r0 - Z.of_nat k -> row_written (fill_mask st) (r0 - Z.of_nat k)).
Proof.
  intros Hf He Hr0 Hw. induction k as [|k [IHu IHd]].
  - rewrite Z.add_0_r, Z.sub_0_r. auto.
  - split; intros Hb.
    + destruct (Hf (r0 + Z.of_nat k) (r0 + Z.of_nat (S k)))
        as [H1|[[s [e H1]]|H1]];
        try lia; try (left; lia); try (apply IHu; lia);
        [exact H1| |discriminate].
      rewrite He in H1. contradiction.
    + destruct (Hf (r0 - Z.of_nat k) (r0 - Z.of_nat (S k)))
        as [H1|[[s [e H1]]|H1]];
        try lia; try (right; lia); try (apply IHd; lia);
        [exact H1| |discriminate].
      rewrite He in H1. contradiction.
Qed.

(** With enough fuel the driver returns, and the mask then holds the
    similarity of every pixel of the extent. *)
Lemma fill_all (x y : Z) (fuel : nat) :
  0 <= x < W -> 0 <= y < H -> (2 * cells + 1 <= fuel)%nat ->
  exists st,
    drain_ fuel (start_state x y) = Some st /\
    mask_ok (fill_mask st) /\
    forall c r, 0 <= c < W -> 0 <= r < H ->
                mask_cell (fill_mask st) c r = similarity c r.
Proof.
  intros Hx Hy Hfuel.
  destruct (helper_returns spreading x y fuel Hx Hy Hfuel)
    as (st & E & Hm & Hempty & (Hi & Hf & Hsome)).
  - split; [|split].
    + intros y' s e [E|[]]. inversion E; subst. lia.
    + intros r r' _ _ _ [c []].
    + right. discriminate.
  - intros st Hm Hq Hsp Hne. now apply pop_and_scan_spreading.
  - exists st. split; [exact E|]. split; [exact Hm|].
    intros c r Hc Hr.
    destruct Hsome as [[r0 Hw0]|Hne]; [|contradiction].
    assert (Hr0 : 0 <= r0 < H).
    { destruct Hw0 as [c0 Hw0].
      now destruct (written_in_extent _ c0 r0 Hm Hw0). }
    apply written_cell; [exact Hm|].
    apply row_written_all; [exact Hm| |exact Hc].
    destruct (Z_le_gt_dec r0 r) as [Hle|Hgt].
    + destruct (rows_connected st r0 Hf Hempty Hr0 Hw0 (Z.to_nat (r - r0)))
        as [Hu _].
      replace r with (r0 + Z.of_nat (Z.to_nat (r - r0))) by lia.
      apply Hu. lia.
    + destruct (rows_connected st r0 Hf Hempty Hr0 Hw0 (Z.to_nat (r0 - r)))
        as [_ Hd].
      replace r with (r0 - Z.of_nat (Z.to_nat (r0 - r))) by lia.
      apply Hd. lia.
Qed.

End AllMatch.

(** A seed that the similarity function rejects ends the search after one
    pass, with nothing stored. *)
Lemma drain_unmatched (x y : Z) (fuel : nat) (m : MaskBuffer) :
  nonzero (mask_sample m x y) = false ->
  nonzero (similarity x y) = false ->
  drain_ (S fuel) {| coord_stack := [(y, x - 1, x + 1)]; fill_mask := m |}
  = Some {| coord_stack := []; fill_mask := m |}.
Proof.
  intros Hm Hz.
  assert (Hv : visit_ y x {| coord_stack := []; fill_mask := m |}
               = {| coord_stack := []; fill_mask := m |}).
  { unfold visit. cbn [fill_mask]. rewrite Hm.
    unfold find_contiguous_segment. cbv beta zeta.
    unfold similarity in Hz. now rewrite Hz. }
  cbn [drain]. unfold pop_and_scan. cbn [coord_stack fill_mask].
  replace (Z.to_nat (x + 1 - (x - 1 + 1))) with 1%nat by lia.
  replace (x - 1 + 1) with x by lia.
  cbn [for_x]. rewrite Hv. reflexivity.
Qed.

(** *** The region of the seed *)

Lemma joined_mono (P Q : Z -> Z -> Prop) (x y c r : Z) :
  (forall c' r', P c' r' -> Q c' r') -> joined P x y c r -> joined Q x y c r.
Proof.
  intros HPQ Hj. induction Hj as [Hs|c r c' r' _ IH Hn Hr].
  - apply joined_seed. now apply HPQ.
  - apply (joined_step Q x y c r c' r' IH Hn). now apply HPQ.
Qed.

Lemma joined_in (P : Z -> Z -> Prop) (x y c r : Z) :
  joined P x y c r -> P c r.
Proof. intros Hj. now destruct Hj. Qed.




Lemma joined_right (P : Z -> Z -> Prop) (x y r : Z) (k : nat) :
  forall c, joined P x y c r ->
            (forall c', c < c' <= c + Z.of_nat k -> P c' r) ->
            joined P x y (c + Z.of_nat k) r.
Proof.
  induction k as [|k IH]; intros c Hj Hrun.
  - now replace (c + Z.of_nat 0) with c by lia.
  - replace (c + Z.of_nat (S k)) with (c + Z.of_nat k + 1) by lia.
    apply (joined_step P x y (c + Z.of_nat k) r).
    + apply IH; [exact Hj|]. intros c' Hc'. apply Hrun. lia.
    + left. lia.
    + apply Hrun. lia.
Qed.

Lemma joined_left (P : Z -> Z -> Prop) (x y r : Z) (k : nat) :
  forall c, joined P x y c r ->
            (forall c', c - Z.of_nat k <= c' < c -> P c' r) ->
            joined P x y (c - Z.of_nat k) r.
Proof.
  induction k as [|k IH]; intros c Hj Hrun.
  - now replace (c - Z.of_nat 0) with c by lia.
  - replace (c - Z.of_nat (S k)) with (c - Z.of_nat k - 1) by lia.
    apply (joined_step P x y (c - Z.of_nat k) r).
    + apply IH; [exact Hj|]. intros c' Hc'. apply Hrun. lia.
    + left. lia.
    + apply Hrun. lia.
Qed.

(** A walk that has reached a row goes on along it. *)
Lemma joined_row (P : Z -> Z -> Prop) (x y r c d : Z) :
  joined P x y c r ->
  (forall c', Z.min c d <= c' <= Z.max c d -> P c' r) ->
  joined P x y d r.
Proof.
  intros Hj Hrun. destruct (Z_le_gt_dec c d) as [Hle|Hgt].
  - replace d with (c + Z.of_nat (Z.to_nat (d - c))) by lia.
    apply joined_right; [exact Hj|]. intros c' Hc'. apply Hrun. lia.
  - replace d with (c - Z.of_nat (Z.to_nat (c - d))) by lia.
    apply joined_left; [exact Hj|]. intros c' Hc'. apply Hrun. lia.
Qed.

(** The selected cells are the stored cells of matching pixels. *)
Lemma selected_iff (m : MaskBuffer) (c r : Z) :
  mask_ok m ->
  (selected m c r <-> written m c r /\ nonzero (similarity c r) = true).
Proof.
  intros Hok. unfold selected. split.
  - intros Hs. pose proof (nonzero_written m c r Hok Hs) as Hw.
    split; [exact Hw|]. now rewrite <- (written_cell m c r Hok Hw).
  - intros [Hw Hnz]. now rewrite (written_cell m c r Hok Hw).
Qed.

(** A successful segment selects the columns strictly between its two stop
    columns, and nothing else changes. *)
Lemma selected_after (m m' : MaskBuffer) (x0 y0 s e c r : Z) :
  mask_ok m -> 0 <= x0 < W -> 0 <= y0 < H ->
  nonzero (mask_cell m x0 y0) = false ->
  segment_post m x0 y0 m' s e ->
  (selected m' c r <-> selected m c r \/ (r = y0 /\ s < c < e)).
Proof.
  intros Hok Hx0 Hy0 Hb Hseg.
  pose proof (segment_ok m m' x0 y0 s e Hok Hx0 Hy0 Hb Hseg) as Hok'.
  pose proof (seg_start _ _ _ _ _ _ Hseg) as Hs.
  pose proof (seg_end _ _ _ _ _ _ Hseg) as He.
  assert (Hwa : written m' c r <->
                written m c r \/ (r = y0 /\ 0 <= c /\ s <= c < e))
    by (eapply written_after; eassumption).
  rewrite (selected_iff m' c r Hok'), (selected_iff m c r Hok), Hwa.
  split.
  - intros [[Hold|(-> & Hc0 & Hc)] Hnz]; [left; now split|right].
    split; [reflexivity|].
    destruct (Z.eq_dec c s) as [E|E]; [|lia].
    subst c. rewrite (seg_left_stop _ _ _ _ _ _ Hseg Hc0) in Hnz.
    discriminate.
  - intros [[Hw Hnz]|(-> & Hc)].
    + split; [now left|exact Hnz].
    + split; [right; lia|]. now apply (seg_run _ _ _ _ _ _ Hseg).
Qed.

Lemma visit_selected (y0 x0 : Z) (st : fill_state) (c r : Z) :
  0 <= x0 < W -> 0 <= y0 < H -> mask_ok (fill_mask st) ->
  selected (fill_mask st) c r -> selected (fill_mask (visit_ y0 x0 st)) c r.
Proof.
  intros Hx0 Hy0 Hm Hsel.
  destruct (visit_cases y0 x0 st Hx0 Hy0 Hm)
    as [_ ->|_ _ ->|m' s e Hc Hseg ->]; try exact Hsel.
  simpl. apply (selected_after (fill_mask st) m' x0 y0 s e c r); auto.
Qed.

Section Region.

Variables (x y : Z).

Local Abbreviation matching :=
  (matching src_buffer format select_transparent select_criterion antialias
     threshold col).
Local Abbreviation rooted := (rooted x y).
Local Abbreviation grown := (grown x y).
Local Abbreviation settled :=
  (settled src_buffer format select_transparent select_criterion antialias
     threshold col).
Local Abbreviation closed :=
  (closed src_buffer format select_transparent select_criterion antialias
     threshold col x y).

(** **** Every selected cell is joined to the seed *)

Lemma rooted_mono (m m' : MaskBuffer) (c r : Z) :
  (forall c' r', selected m c' r' -> selected m' c' r') ->
  rooted m c r -> rooted m' c r.
Proof.
  intros Hsub [Hseed|[r' [Ha Hj]]]; [now left|right].
  exists r'. split; [exact Ha|]. now apply (joined_mono (selected m)).
Qed.

Lemma visit_grown (y0 x0 : Z) (st : fill_state) :
  0 <= x0 < W -> 0 <= y0 < H -> mask_ok (fill_mask st) ->
  grown st -> rooted (fill_mask st) x0 y0 -> grown (visit_ y0 x0 st).
Proof.
  intros Hx0 Hy0 Hm [Hg Hq] Hroot.
  destruct (visit_cases y0 x0 st Hx0 Hy0 Hm)
    as [_ ->|_ _ ->|m' s e Hc Hseg ->]; try (now split).
  pose proof (seg_start _ _ _ _ _ _ Hseg) as Hs.
  pose proof (seg_end _ _ _ _ _ _ Hseg) as He.
  assert (Hsa : forall c r, selected m' c r <->
                            selected (fill_mask st) c r \/
                            (r = y0 /\ s < c < e)).
  { intros c r. now apply (selected_after (fill_mask st) m' x0 y0 s e). }
  assert (Hsub : forall c r, selected (fill_mask st) c r -> selected m' c r).
  { intros c r Hsel. apply Hsa. now left. }
  assert (Hrun : forall c, s < c < e -> selected m' c y0).
  { intros c Hcr. apply Hsa. now right. }
  assert (Hx0j : joined (selected m') x y x0 y0).
  { destruct Hroot as [[-> ->]|[r' [Ha Hj]]].
    - apply joined_seed. apply Hrun. lia.
    - apply (joined_step _ x y x0 r').
      + now apply (joined_mono (selected (fill_mask st))).
      + right. unfold adjacent in Ha. lia.
      + apply Hrun. lia. }
  assert (Hrow : forall c, s < c < e -> joined (selected m') x y c y0).
  { intros c Hcr. apply (joined_row _ x y y0 x0 c Hx0j).
    intros c' Hc'. apply Hrun. lia. }
  split; simpl.
  - intros c r Hsel. apply Hsa in Hsel.
    destruct Hsel as [Hold|(-> & Hcr)].
    + apply (joined_mono (selected (fill_mask st))); auto.
    + now apply Hrow.
  - intros r s' e' c Hin Hcr. apply in_push_rows in Hin.
    destruct Hin as [Hin|[[E Hb]|[E Hb]]].
    + apply (rooted_mono (fill_mask st)); [exact Hsub|].
      now apply (Hq r s' e' c).
    + inversion E; subst. right. exists y0.
      split; [right; lia|]. now apply Hrow.
    + inversion E; subst. right. exists y0.
      split; [left; lia|]. now apply Hrow.
Qed.

Lemma for_x_grown (y0 : Z) (k : nat) :
  0 <= y0 < H ->
  forall x0 st,
    0 <= x0 -> x0 + Z.of_nat k <= W ->
    mask_ok (fill_mask st) -> queue_ok (coord_stack st) ->
    grown st ->
    (forall c, x0 <= c < x0 + Z.of_nat k -> rooted (fill_mask st) c y0) ->
    grown (for_x_ k y0 x0 st).
Proof.
  intros Hy0. induction k as [|k IH]; intros x0 st Hx0 Hxk Hm Hq Hg Hroot.
  - exact Hg.
  - simpl.
    pose proof (visit_ok y0 x0 st ltac:(lia) Hy0 Hm Hq) as [M Q _ _].
    apply IH; try lia; try assumption.
    + apply visit_grown; try assumption; try lia. apply Hroot. lia.
    + intros c Hc. apply (rooted_mono (fill_mask st)).
      * intros c' r' Hsel. apply visit_selected; try assumption; lia.
      * apply Hroot. lia.
Qed.

Lemma pop_and_scan_grown (st : fill_state) :
  mask_ok (fill_mask st) -> queue_ok (coord_stack st) ->
  grown st -> grown (pop_and_scan_ st).
Proof.
  intros Hm Hq [Hg Hp]. unfold pop_and_scan.
  destruct (coord_stack st) as [|[[y0 s] e] rest] eqn:E.
  { split; [exact Hg|]. rewrite E. exact Hp. }
  destruct (Hq y0 s e ltac:(now left)) as (Hy0 & Hs & He).
  set (st1 := {| coord_stack := rest; fill_mask := fill_mask st |}).
  assert (Hq1 : queue_ok (coord_stack st1)).
  { intros y' s' e' Hin. apply Hq. now right. }
  assert (Hg1 : grown st1).
  { split; [exact Hg|]. intros r s' e' c Hin. apply (Hp r s' e' c).
    now right. }
  destruct (Z_lt_le_dec (s + 1) e) as [Hlt|Hge].
  - apply for_x_grown; try assumption; try lia.
    intros c Hc. apply (Hp y0 s e c); [now left|lia].
  - replace (Z.to_nat (e - (s + 1))) with 0%nat by lia. exact Hg1.
Qed.

(** **** Every matching pixel joined to the seed is stored *)

Lemma settled_weaken (y0 lo hi : Z) (st : fill_state) (c r : Z) :
  hi <= lo -> settled (Some (y0, lo, hi)) st c r -> settled None st c r.
Proof.
  intros Hle [Hw|[Hz|[Hq|(lo' & hi' & E & Hc)]]].
  - now left.
  - right. now left.
  - right. right. now left.
  - inversion E; subst. lia.
Qed.

Lemma visit_settled (y0 x0 hi : Z) (st : fill_state) (c r : Z) :
  0 <= x0 < W -> 0 <= y0 < H -> mask_ok (fill_mask st) ->
  settled (Some (y0, x0, hi)) st c r ->
  settled (Some (y0, x0 + 1, hi)) (visit_ y0 x0 st) c r.
Proof.
  intros Hx0 Hy0 Hm Hset.
  assert (Hcur : forall st',
             (c = x0 /\ r = y0 ->
              written (fill_mask st') c r \/
              nonzero (similarity c r) = false) ->
             (forall c' r', written (fill_mask st) c' r' ->
                            written (fill_mask st') c' r') ->
             (forall t, In t (coord_stack st) -> In t (coord_stack st')) ->
             settled (Some (y0, x0 + 1, hi)) st' c r).
  { intros st' Hhere Hw Hq.
    destruct Hset as [H1|[H1|[(s' & e' & Hin & Hc)|(lo & hi' & E & Hc)]]].
    - left. now apply Hw.
    - right. now left.
    - right. right. left. exists s', e'. split; [now apply Hq|exact Hc].
    - injection E as Er El Eh. subst lo hi' r.
      destruct (Z.eq_dec c x0) as [Ec|Hne].
      + destruct (Hhere (conj Ec eq_refl)) as [H1|H1];
          [now left|right; now left].
      + right. right. right. exists (x0 + 1), hi. split; [reflexivity|lia]. }
  destruct (visit_cases y0 x0 st Hx0 Hy0 Hm)
    as [Hc ->|_ Hz ->|m' s e Hc Hseg ->].
  - apply Hcur; auto. intros [-> ->]. left. now apply nonzero_written.
  - apply Hcur; auto. intros [-> ->]. now right.
  - pose proof (seg_start _ _ _ _ _ _ Hseg) as Hs.
    pose proof (seg_end _ _ _ _ _ _ Hseg) as He.
    assert (Hwa : forall c' r',
               written m' c' r' <->
               written (fill_mask st) c' r' \/
               (r' = y0 /\ 0 <= c' /\ s <= c' < e)).
    { intros c' r'. eapply written_after; eassumption. }
    apply Hcur; simpl.
    + intros [-> ->]. left. apply Hwa. right. lia.
    + intros c' r' Hw. apply Hwa. now left.
    + intros t Hin. apply in_push_rows. now left.
Qed.

Lemma visit_closed (y0 x0 hi : Z) (st : fill_state) :
  0 <= x0 < W -> 0 <= y0 < H -> mask_ok (fill_mask st) ->
  closed (Some (y0, x0, hi)) st ->
  closed (Some (y0, x0 + 1, hi)) (visit_ y0 x0 st).
Proof.
  intros Hx0 Hy0 Hm [Hseed Hcl].
  split; [now apply visit_settled|].
  intros c r r' Hw Hnz Ha Hr'.
  destruct (visit_cases y0 x0 st Hx0 Hy0 Hm)
    as [Hc E|Hc Hz E|m' s e Hc Hseg E].
  - rewrite E in Hw. apply visit_settled; try assumption.
    now apply (Hcl c r r').
  - rewrite E in Hw. apply visit_settled; try assumption.
    now apply (Hcl c r r').
  - pose proof (seg_start _ _ _ _ _ _ Hseg) as Hs.
    pose proof (seg_end _ _ _ _ _ _ Hseg) as He.
    assert (Hwa : written m' c r <->
                  written (fill_mask st) c r \/
                  (r = y0 /\ 0 <= c /\ s <= c < e))
      by (eapply written_after; eassumption).
    rewrite E in Hw. simpl in Hw. apply Hwa in Hw.
    destruct Hw as [Hold|(-> & Hc0 & Hcr)].
    + apply visit_settled; try assumption. now apply (Hcl c r r').
    + rewrite E. right. right. left. exists s, e. simpl. split.
      * apply in_push_rows. right.
        destruct Ha as [-> | ->]; [left|right]; split; auto; lia.
      * destruct (Z.eq_dec c s) as [Ec|Ec]; [|lia].
        subst c. rewrite (seg_left_stop _ _ _ _ _ _ Hseg Hc0) in Hnz.
        discriminate.
Qed.

Lemma for_x_closed (y0 : Z) (k : nat) :
  0 <= y0 < H ->
  forall x0 st,
    0 <= x0 -> x0 + Z.of_nat k <= W ->
    mask_ok (fill_mask st) -> queue_ok (coord_stack st) ->
    closed (Some (y0, x0, x0 + Z.of_nat k)) st ->
    closed None (for_x_ k y0 x0 st).
Proof.
  intros Hy0. induction k as [|k IH]; intros x0 st Hx0 Hxk Hm Hq [Hseed Hcl].
  - simpl. split.
    + apply (settled_weaken y0 x0 (x0 + Z.of_nat 0)); [lia|exact Hseed].
    + intros c r r' Hw Hnz Ha Hr'.
      apply (settled_weaken y0 x0 (x0 + Z.of_nat 0)); [lia|].
      now apply (Hcl c r r').
  - simpl.
    pose proof (visit_ok y0 x0 st ltac:(lia) Hy0 Hm Hq) as [M Q _ _].
    apply IH; try lia; try assumption.
    replace (x0 + 1 + Z.of_nat k) with (x0 + Z.of_nat (S k)) by lia.
    apply visit_closed; try assumption; try lia. now split.
Qed.

Lemma pop_and_scan_closed (st : fill_state) :
  mask_ok (fill_mask st) -> queue_ok (coord_stack st) ->
  closed None st -> closed None (pop_and_scan_ st).
Proof.
  intros Hm Hq Hcl. unfold pop_and_scan.
  destruct (coord_stack st) as [|[[y0 s] e] rest] eqn:E; [exact Hcl|].
  destruct (Hq y0 s e ltac:(now left)) as (Hy0 & Hs & He).
  set (st1 := {| coord_stack := rest; fill_mask := fill_mask st |}).
  assert (Hq1 : queue_ok (coord_stack st1)).
  { intros y' s' e' Hin. apply Hq. now right. }
  assert (Hset : forall c r,
             settled None st c r ->
             settled (Some (y0, s + 1,
                            s + 1 + Z.of_nat (Z.to_nat (e - (s + 1))))) st1 c r).
  { intros c r [H1|[H1|[(s' & e' & Hin & Hc)|(lo & hi & E' & _)]]].
    - now left.
    - right. now left.
    - rewrite E in Hin. destruct Hin as [Hin|Hin].
      + inversion Hin; subst. right. right. right.
        eexists _, _. split; [reflexivity|lia].
      + right. right. left. now exists s', e'.
    - discriminate. }
  assert (Hcl1 : closed (Some (y0, s + 1,
                               s + 1 + Z.of_nat (Z.to_nat (e - (s + 1)))))
                   st1).
  { destruct Hcl as [Hseed Hcl]. split; [now apply Hset|].
    intros c r r' Hw Hnz Ha Hr'. apply Hset. now apply (Hcl c r r'). }
  destruct (Z_lt_le_dec (s + 1) e) as [Hlt|Hge].
  - apply for_x_closed; try assumption; lia.
  - revert Hcl1. replace (Z.to_nat (e - (s + 1))) with 0%nat by lia.
    intros [Hseed1 Hcl1]. simpl. split.
    + apply (settled_weaken y0 (s + 1) (s + 1 + Z.of_nat 0)); [lia|].
      exact Hseed1.
    + intros c r r' Hw Hnz Ha Hr'.
      apply (settled_weaken y0 (s + 1) (s + 1 + Z.of_nat 0)); [lia|].
      now apply (Hcl1 c r r').
Qed.

(** When the work list is empty the stored cells of matching pixels are
    closed under steps to matching neighbours. *)
Lemma closed_joined (st : fill_state) (c r : Z) :
  mask_ok (fill_mask st) -> coord_stack st = [] -> closed None st ->
  joined matching x y c r ->
  written (fill_mask st) c r.
Proof.
  intros Hm He [Hseed Hcl] Hj.
  assert (Hdone : forall c' r',
             settled None st c' r' -> nonzero (similarity c' r') = true ->
             written (fill_mask st) c' r').
  { intros c' r' [H1|[H1|[(s & e & Hin & _)|(lo & hi & E & _)]]] Hnz.
    - exact H1.
    - rewrite H1 in Hnz. discriminate.
    - rewrite He in Hin. contradiction.
    - discriminate. }
  induction Hj as [(_ & _ & Hnz)|c r c' r' Hj IH Hn (Hc' & Hr' & Hnz')].
  - now apply Hdone.
  - pose proof (joined_in _ _ _ _ _ Hj) as (Hc & Hr & Hnz).
    destruct Hn as [[-> [-> | ->]]|[-> Hv]].
    + apply (ok_right _ Hm c r IH Hnz); [lia|exact Hnz'].
    + apply (ok_left _ Hm c r IH Hnz); [lia|exact Hnz'].
    + apply Hdone; [|exact Hnz']. apply (Hcl c r r'); auto.
Qed.

(** With enough fuel the driver returns; the selected cells are then the
    matching pixels joined to the seed through matching pixels, each with
    its similarity. *)
Lemma fill_region (fuel : nat) :
  0 <= x < W -> 0 <= y < H -> (2 * cells + 1 <= fuel)%nat ->
  exists st,
    drain_ fuel (start_state x y) = Some st /\
    mask_ok (fill_mask st) /\
    (forall c r, selected (fill_mask st) c r ->
                 joined (selected (fill_mask st)) x y c r) /\
    (forall c r, joined matching x y c r ->
                 mask_cell (fill_mask st) c r = similarity c r).
Proof.
  intros Hx Hy Hfuel.
  destruct (helper_returns (fun st => grown st /\ closed None st)
              x y fuel Hx Hy Hfuel)
    as (st & E & Hm & Hempty & (Hg & Hcl)).
  - split; [split|split].
    + intros c r Hsel. discriminate.
    + intros r s e c [Ein|[]] Hc. inversion Ein; subst. left. lia.
    + right. right. left. exists (x - 1), (x + 1).
      split; [now left|lia].
    + intros c r r' [].
  - intros st Hm Hq [Hg Hcl] _. split.
    + now apply pop_and_scan_grown.
    + now apply pop_and_scan_closed.
  - exists st. split; [exact E|]. split; [exact Hm|]. split.
    + apply Hg.
    + intros c r Hj. apply written_cell; [exact Hm|].
      now apply closed_joined.
Qed.

End Region.

End Fill.

(** ** One call of the seeded entry point *)

Section SeedCall.

Variables (image : GimpImage) (drawable : GimpDrawable).
Variables (sample_merged antialias : bool) (threshold : gfloat).
Variables (select_transparent : bool) (select_criterion : GimpSelectCriterion).
Variables (x y : Z).

Local Abbreviation seed_source := (seed_source image drawable sample_merged).
Local Abbreviation seed_format := (seed_format image drawable sample_merged).
Local Abbreviation seed_color :=
  (seed_color image drawable sample_merged x y).
Local Abbreviation seed_transparent :=
  (seed_transparent image drawable sample_merged select_transparent x y).
Local Abbreviation seed_pass :=
  (seed_pass image drawable sample_merged antialias threshold
     select_transparent select_criterion x y).
Local Abbreviation seed_start := (seed_start image drawable sample_merged x y).
Local Abbreviation seed_ok :=
  (seed_ok image drawable sample_merged antialias threshold
     select_transparent select_criterion x y).
Local Abbreviation seed_similarity :=
  (seed_similarity image drawable sample_merged antialias threshold
     select_transparent select_criterion x y).
Local Abbreviation seed_matching :=
  (seed_matching image drawable sample_merged antialias threshold
     select_transparent select_criterion x y).

Lemma by_seed_run (fuel : nat) :
  gimp_image_contiguous_region_by_seed fuel (Some image) (Some drawable)
    sample_merged antialias threshold select_transparent select_criterion x y
  = match drain seed_source seed_format seed_transparent select_criterion
            antialias threshold seed_color fuel seed_start with
    | Some st => Selected (fill_mask st)
    | None => Unfinished
    end.
Proof.
  unfold gimp_image_contiguous_region_by_seed, find_contiguous_region_helper.
  fold seed_source. fold seed_format. fold seed_color. fold seed_transparent.
  unfold seed_start, start_state.
  destruct (drain _ _ _ _ _ _ _ _ _); reflexivity.
Qed.

(** The states of a call are the iterates of [seed_pass]. *)
Lemma drain_iter (fuel : nat) :
  forall st st',
    drain seed_source seed_format seed_transparent select_criterion
      antialias threshold seed_color fuel st = Some st' ->
    exists n, st' = Nat.iter n seed_pass st.
Proof.
  induction fuel as [|fuel IH]; intros st st' E; [discriminate|].
  simpl in E. fold (seed_pass st) in E.
  destruct (coord_stack (seed_pass st)) eqn:Eq.
  - inversion E; subst. now exists 1%nat.
  - destruct (IH _ _ E) as [n ->]. exists (S n).
    now rewrite Nat.iter_succ_r.
Qed.

(** A seed that is not similar to itself: the call returns the fresh mask. *)
Lemma seed_unmatched (fuel : nat) :
  nonzero (seed_similarity x y) = false ->
  gimp_image_contiguous_region_by_seed (S fuel) (Some image) (Some drawable)
    sample_merged antialias threshold select_transparent select_criterion x y
  = Selected (gimp_channel_new_mask (pickable_width seed_source)
                (pickable_height seed_source)).
Proof.
  intros Hz. rewrite by_seed_run. unfold seed_start, start_state.
  rewrite drain_unmatched; [reflexivity| |exact Hz].
  unfold mask_sample. cbn [gimp_channel_new_mask mask_cell].
  now destruct (in_extent _ _ x y).
Qed.

Hypothesis Hx : 0 <= x < pickable_width seed_source.
Hypothesis Hy : 0 <= y < pickable_height seed_source.

Lemma seed_iter_ok (n : nat) : seed_ok (fill_mask (Nat.iter n seed_pass seed_start)).
Proof.
  assert (G : seed_ok (fill_mask (Nat.iter n seed_pass seed_start)) /\
              queue_ok seed_source
                (coord_stack (Nat.iter n seed_pass seed_start))).
  { induction n as [|n IH].
    - apply start_state_ok; assumption.
    - simpl. now apply pop_and_scan_keeps. }
  apply G.
Qed.

(** Between passes the work list holds triples within the buffer, and no
    more than two for each cell stored so far, and one. *)
Lemma seed_iter_queue (n : nat) :
  let st := Nat.iter n seed_pass seed_start in
  seed_ok (fill_mask st) /\
  queue_ok seed_source (coord_stack st) /\
  (length (coord_stack st) <= 2 * writes st + 1)%nat.
Proof.
  induction n as [|n (Hm & Hq & Hl)].
  - destruct (start_state_ok seed_source seed_format seed_transparent
                select_criterion antialias threshold seed_color x y Hx Hy)
      as [Hm Hq].
    split; [exact Hm|]. split; [exact Hq|]. simpl. lia.
  - set (st := Nat.iter n seed_pass seed_start) in *.
    change (Nat.iter (S n) seed_pass seed_start) with (seed_pass st).
    cbv zeta. destruct (coord_stack st) as [|t q] eqn:E.
    + assert (Hsame : seed_pass st = st).
      { unfold seed_pass, pop_and_scan. now rewrite E. }
      rewrite Hsame, E. split; [exact Hm|]. split; [exact Hq|]. simpl. lia.
    + rewrite <- E in Hq, Hl.
      destruct (pop_and_scan_ok seed_source seed_format seed_transparent
                  select_criterion antialias threshold seed_color st Hm Hq)
        as (M & Q & Mo & Pa); [rewrite E; discriminate|].
      split; [exact M|]. split; [exact Q|].
      fold (seed_pass st) in Pa, Mo. lia.
Qed.

Lemma seed_returns (fuel : nat) :
  (2 * cells seed_source + 1 <= fuel)%nat ->
  exists m,
    gimp_image_contiguous_region_by_seed fuel (Some image) (Some drawable)
      sample_merged antialias threshold select_transparent select_criterion
      x y = Selected m /\
    seed_ok m /\
    exists n, m = fill_mask (Nat.iter n seed_pass seed_start).
Proof.
  intros Hfuel.
  destruct (helper_returns seed_source seed_format seed_transparent
              select_criterion antialias threshold seed_color
              (fun _ => True) x y fuel Hx Hy Hfuel I)
    as (st & E & Hm & _); [auto|].
  exists (fill_mask st). rewrite by_seed_run. fold seed_start in E.
  rewrite E. split; [reflexivity|]. split; [exact Hm|].
  destruct (drain_iter _ _ _ E) as [n ->]. now exists n.
Qed.

(** The mask a call returns holds the region of the seed. *)
Lemma seed_region (fuel : nat) :
  (2 * cells seed_source + 1 <= fuel)%nat ->
  exists m,
    gimp_image_contiguous_region_by_seed fuel (Some image) (Some drawable)
      sample_merged antialias threshold select_transparent select_criterion
      x y = Selected m /\
    seed_ok m /\
    (forall c r, selected m c r -> joined (selected m) x y c r) /\
    (forall c r, joined seed_matching x y c r ->
                 mask_cell m c r = seed_similarity c r).
Proof.
  intros Hfuel.
  destruct (fill_region seed_source seed_format seed_transparent
              select_criterion antialias threshold seed_color x y fuel
              Hx Hy Hfuel)
    as (st & E & Hm & Hsound & Hfull).
  exists (fill_mask st). rewrite by_seed_run. fold seed_start in E.
  rewrite E. split; [reflexivity|]. split; [exact Hm|]. now split.
Qed.

End SeedCall.


(** ** The claims *)

(** C1 (the code departs from the claim).  On the row black, white, white a
    probe at column 1 matches and stops at [start = 0] and [end = 3]; the
    bulk write stores columns 0, 1 and 2: the left stop column is written,
    with its evaluated value 0. *)
Theorem C1_bulk_write_reaches_start_column :
  exists m,
    find_contiguous_segment white strip (gimp_channel_new_mask 3 2) RGB_float
      3 false 3 false GIMP_SELECT_CRITERION_COMPOSITE false zero 1 0
    = Some (m, 0, 3) /\
    mask_writes m = [(0, 0, zero); (1, 0, one); (2, 0, one)].
Proof.
  eexists. split.
  - vm_compute. reflexivity.
  - reflexivity.
Qed.

(** C2, as stated, fails: a uniform image whose color is fully transparent,
    selected with transparency selection off, keeps its cell at 0. *)
Lemma C2_counterexample :
  selected_cell
    (gimp_image_contiguous_region_by_seed 3 (Some (image_of clear))
       (Some clear) false false zero false GIMP_SELECT_CRITERION_COMPOSITE
       0 0) 0 0 = Some zero /\
  Some zero <> Some one.
Proof. split; [vm_compute; reflexivity|discriminate]. Qed.

(** C2 (amended).  On an image whose pixels all have the color [c0], a seeded
    selection at an in-bounds seed with threshold 0 and antialiasing off
    returns (the work list drains within 2 W H + 1 passes) and every cell of
    the mask holds 1, provided the color is not excluded as fully
    transparent (the format has no alpha, or transparency selection is
    requested, or the alpha of [c0] is not 0) and the criterion reads a
    component that sampling fills (criterion G needs a comparison format of
    at least 2 components, criterion B one of at least 3; elsewhere the code
    compares array slots that were never initialised). *)
Theorem C2_uniform_image_full_select
        (image : GimpImage) (drawable : GimpDrawable) (sample_merged : bool)
        (select_transparent : bool) (select_criterion : GimpSelectCriterion)
        (x y : Z) (c0 : color) (fuel : nat) :
  let src := seed_source image drawable sample_merged in
  let format := seed_format image drawable sample_merged in
  (forall c r, 0 <= c < pickable_width src -> 0 <= r < pickable_height src ->
               pickable_pixel src format c r = c0) ->
  0 <= x < pickable_width src -> 0 <= y < pickable_height src ->
  babl_format_has_alpha format = false \/ select_transparent = true \/
  eq (chan c0 (babl_format_get_n_components format - 1)) zero = false ->
  criterion_sampled (babl_format_get_n_components format) select_criterion
  = true ->
  (2 * cells src + 1 <= fuel)%nat ->
  exists m,
    gimp_image_contiguous_region_by_seed fuel (Some image) (Some drawable)
      sample_merged false zero select_transparent select_criterion x y
    = Selected m /\
    mask_width m = pickable_width src /\
    mask_height m = pickable_height src /\
    forall c r, 0 <= c < pickable_width src -> 0 <= r < pickable_height src ->
                mask_cell m c r = one.
Proof.
  intros src format Huni Hx Hy Hopaque _ Hfuel.
  assert (Hsample : forall c r, 0 <= c < pickable_width src ->
                                0 <= r < pickable_height src ->
                                gegl_buffer_sample src c r format = c0).
  { intros c r Hc Hr. unfold gegl_buffer_sample, in_extent.
    replace (0 <=? c) with true by (symmetry; apply Z.leb_le; lia).
    replace (c <? pickable_width src) with true
      by (symmetry; apply Z.ltb_lt; lia).
    replace (0 <=? r) with true by (symmetry; apply Z.leb_le; lia).
    replace (r <? pickable_height src) with true
      by (symmetry; apply Z.ltb_lt; lia).
    now apply Huni. }
  set (st := seed_select_transparent format c0 select_transparent).
  assert (Hexit : transparent_exit st (babl_format_has_alpha format) c0
                    (babl_format_get_n_components format) = false).
  { unfold transparent_exit, st, seed_select_transparent.
    destruct (babl_format_has_alpha format); [|now rewrite andb_false_r].
    destruct select_transparent.
    - destruct (gt (chan c0 (babl_format_get_n_components format - 1)) zero)
        eqn:G; [|reflexivity].
      now rewrite (gt_zero_not_eq _ G).
    - destruct Hopaque as [Ha|[Hs|Hz]]; try discriminate.
      now rewrite Hz. }
  assert (Hsim : forall c r, 0 <= c < pickable_width src ->
                             0 <= r < pickable_height src ->
                             similarity src format st select_criterion false
                               zero c0 c r = one).
  { intros c r Hc Hr. unfold similarity. rewrite (Hsample c r Hc Hr).
    now apply pixel_difference_self. }
  destruct (fill_all src format st select_criterion false zero c0)
    with (x := x) (y := y) (fuel := fuel) as (s & E & Hm & Hcells);
    try assumption.
  { intros c r Hc Hr. now rewrite (Hsim c r Hc Hr). }
  exists (fill_mask s). rewrite by_seed_run.
  fold src. fold format. unfold seed_transparent, seed_color, seed_start.
  fold src. fold format. rewrite (Hsample x y Hx Hy). fold st. rewrite E.
  split; [reflexivity|].
  split; [apply (ok_width _ Hm)|].
  split; [apply (ok_height _ Hm)|].
  intros c r Hc Hr. rewrite (Hcells c r Hc Hr). now apply Hsim.
Qed.

(** C2 (amended) on the all-white 3 x 3 image, seed in the center. *)
Lemma C2_witness :
  exists m,
    gimp_image_contiguous_region_by_seed 19 (Some (image_of snow)) (Some snow)
      false false zero false GIMP_SELECT_CRITERION_COMPOSITE 1 1
    = Selected m /\
    mask_width m = 3 /\ mask_height m = 3 /\
    forall c r, 0 <= c < 3 -> 0 <= r < 3 -> mask_cell m c r = one.
Proof.
  apply (C2_uniform_image_full_select (image_of snow) snow
           false false GIMP_SELECT_CRITERION_COMPOSITE 1 1 white 19).
  - reflexivity.
  - simpl. lia.
  - simpl. lia.
  - left. reflexivity.
  - reflexivity.
  - vm_compute. lia.
Defined.

(** C3, as stated, fails: a seed outside the 1 x 1 source is not rejected;
    the call runs and returns a mask. *)
Lemma C3_counterexample :
  in_extent (pickable_width clear) (pickable_height clear) 5 5 = false /\
  gimp_image_contiguous_region_by_seed 1 (Some (image_of clear)) (Some clear)
    false false zero false GIMP_SELECT_CRITERION_COMPOSITE 5 5 <> Rejected /\
  selected_cell
    (gimp_image_contiguous_region_by_seed 1 (Some (image_of clear))
       (Some clear) false false zero false GIMP_SELECT_CRITERION_COMPOSITE
       5 5) 0 0 = Some zero.
Proof.
  split; [reflexivity|]. split; [|vm_compute; reflexivity].
  vm_compute. discriminate.
Qed.

(** C3 (amended).  A null or invalid image or drawable is rejected by both
    entry points, and a null reference color by the color entry point, with
    the null result and before anything is computed; these are the only
    rejections: the seeded entry point does not check the seed coordinate. *)
Theorem C3_rejected_arguments :
  (forall fuel drawable sample_merged antialias threshold select_transparent
          select_criterion x y,
      gimp_image_contiguous_region_by_seed fuel None drawable sample_merged
        antialias threshold select_transparent select_criterion x y
      = Rejected) /\
  (forall fuel image sample_merged antialias threshold select_transparent
          select_criterion x y,
      gimp_image_contiguous_region_by_seed fuel image None sample_merged
        antialias threshold select_transparent select_criterion x y
      = Rejected) /\
  (forall drawable color sample_merged antialias threshold
          select_transparent select_criterion,
      gimp_image_contiguous_region_by_color None drawable sample_merged
        antialias threshold select_transparent select_criterion color
      = Rejected) /\
  (forall image color sample_merged antialias threshold
          select_transparent select_criterion,
      gimp_image_contiguous_region_by_color image None sample_merged
        antialias threshold select_transparent select_criterion color
      = Rejected) /\
  (forall image drawable sample_merged antialias threshold
          select_transparent select_criterion,
      gimp_image_contiguous_region_by_color image drawable sample_merged
        antialias threshold select_transparent select_criterion None
      = Rejected) /\
  (forall fuel image drawable sample_merged antialias threshold
          select_transparent select_criterion x y,
      gimp_image_contiguous_region_by_seed fuel (Some image) (Some drawable)
        sample_merged antialias threshold select_transparent select_criterion
        x y <> Rejected) /\
  (forall image drawable color sample_merged antialias threshold
          select_transparent select_criterion,
      gimp_image_contiguous_region_by_color (Some image) (Some drawable)
        sample_merged antialias threshold select_transparent select_criterion
        (Some color) <> Rejected).
Proof.
  split; [reflexivity|].
  split; [intros; now destruct image|].
  split; [reflexivity|].
  split; [intros; now destruct image|].
  split; [intros; destruct image; [destruct drawable|]; reflexivity|].
  split; [|discriminate].
  intros. rewrite by_seed_run. now destruct (drain _ _ _ _ _ _ _ _ _).
Qed.

(** C4, as stated, fails: two identical fully transparent colors differ by 0
    in every channel, yet with alpha and transparency selection off the
    comparison returns 0 at line 262, with antialiasing on and threshold 1,
    where the claim gives 1 for a difference of 0. *)
Lemma C4_counterexample :
  gt one zero = true /\
  pixel_max [zero; zero; zero; zero] [zero; zero; zero; zero] 4 true false
    GIMP_SELECT_CRITERION_COMPOSITE = zero /\
  pixel_difference [zero; zero; zero; zero] [zero; zero; zero; zero] true one
    4 true false GIMP_SELECT_CRITERION_COMPOSITE = zero /\
  zero <> one.
Proof.
  split; [reflexivity|]. split; [reflexivity|]. split; [reflexivity|].
  discriminate.
Qed.

(** C4 (amended).  With antialiasing on and a threshold T > 0, a comparison
    that the early return of line 262 does not end, so that its raw
    difference [max] is computed, returns the three-zone ramp of
    [aa = 1.5 - max / T]:
    0 when [aa <= 0], [aa * 2] when [0 < aa < 0.5], 1 otherwise.  In
    particular a difference of 0 gives 1, a difference of exactly 0.75 T
    gives 1 and a difference of at least 1.5 T gives 0 (finite differences
    and thresholds, compared as exact rationals). *)
Theorem C4_antialias_ramp
        (col1 col2 : color) (threshold : gfloat) (n_components : Z)
        (has_alpha select_transparent : bool)
        (select_criterion : GimpSelectCriterion) (max : gfloat) :
  gt threshold zero = true ->
  raw_difference col1 col2 n_components has_alpha select_transparent
    select_criterion = Some max ->
  let aa := aa_of max threshold in
  let result := pixel_difference col1 col2 true threshold n_components
                  has_alpha select_transparent select_criterion in
  result = (if le aa zero then zero
            else if lt aa half then to_float (mul64 (to_double aa) d2_0)
            else one) /\
  (eq max zero = true -> result = one) /\
  (finite_positive max = true -> finite_positive threshold = true ->
   (value max == (3 # 4) * value threshold)%Q -> result = one) /\
  (finite_positive max = true -> finite_positive threshold = true ->
   ((3 # 2) * value threshold <= value max)%Q -> result = zero).
Proof.
  intros HT Hraw aa result.
  assert (Hr : result = (if le aa zero then zero
                         else if lt aa half
                              then to_float (mul64 (to_double aa) d2_0)
                              else one)).
  { unfold result. rewrite (pixel_difference_raw _ _ _ _ _ _ _ _ _ Hraw).
    unfold pixel_result. rewrite HT. reflexivity. }
  split; [exact Hr|]. rewrite Hr. unfold aa, aa_of. clear Hr Hraw.
  split; [|split].
  - intros Hz. destruct max as [s|s| |s m e]; try discriminate;
      try (destruct s; discriminate).
    destruct threshold as [[]|[]| |[] m e]; try discriminate;
      destruct s; reflexivity.
  - intros Hm Ht Hv.
    destruct max as [| | |[] mx ex]; try discriminate.
    destruct threshold as [| | |[] my ey]; try discriminate.
    destruct (div32_three_quarters mx my ex ey) as [E|E].
    + apply (ratio_eq_scaled mx my ex ey 3 4).
      change (inject_Z 3) with 3%Q. change (inject_Z 4) with 4%Q.
      rewrite Hv. ring.
    + unfold div32. rewrite E. reflexivity.
    + unfold div32. rewrite E. reflexivity.
  - intros Hm Ht Hv.
    destruct max as [| | |[] mx ex]; try discriminate.
    destruct threshold as [| | |[] my ey]; try discriminate.
    rewrite aa_not_positive; [reflexivity|].
    apply div32_at_least.
    apply (ratio_le_scaled mx my ex ey 3 2).
    change (inject_Z 3) with 3%Q. change (inject_Z 2) with 2%Q.
    setoid_replace (3 * value (S754_finite false my ey))%Q
      with (2 * ((3 # 2) * value (S754_finite false my ey)))%Q by ring.
    apply (proj2 (Qmult_le_l _ _ 2%Q eq_refl)). exact Hv.
Qed.

(** C4 (amended) at threshold 1 on the red channel: differences 0.75, 1.5 and 0. *)
Lemma C4_witness :
  pixel_difference [f0_75; zero; zero] black true one 3 false false
    GIMP_SELECT_CRITERION_R = one /\
  pixel_difference [f1_5; zero; zero] black true one 3 false false
    GIMP_SELECT_CRITERION_R = zero /\
  pixel_difference black black true one 3 false false
    GIMP_SELECT_CRITERION_R = one.
Proof.
  split; [|split].
  - destruct (C4_antialias_ramp [f0_75; zero; zero] black one 3 false false
                GIMP_SELECT_CRITERION_R f0_75 eq_refl eq_refl)
      as (_ & _ & H & _).
    apply H; reflexivity.
  - destruct (C4_antialias_ramp [f1_5; zero; zero] black one 3 false false
                GIMP_SELECT_CRITERION_R f1_5 eq_refl eq_refl)
      as (_ & _ & _ & H).
    apply H; [reflexivity|reflexivity|]. vm_compute. discriminate.
  - destruct (C4_antialias_ramp black black one 3 false false
                GIMP_SELECT_CRITERION_R zero eq_refl eq_refl) as (_ & H & _).
    apply H. reflexivity.
Defined.

(** C5, as stated, fails: two identical fully transparent colors have the
    raw difference 0, which is at most the threshold 0, yet with alpha and
    transparency selection off the comparison returns 0 at line 262, with
    antialiasing off, where the claim gives 1. *)
Lemma C5_counterexample :
  pixel_max [zero; zero; zero; zero] [zero; zero; zero; zero] 4 true false
    GIMP_SELECT_CRITERION_COMPOSITE = zero /\
  le zero zero = true /\
  pixel_difference [zero; zero; zero; zero] [zero; zero; zero; zero] false
    zero 4 true false GIMP_SELECT_CRITERION_COMPOSITE = zero /\
  zero <> one.
Proof.
  split; [reflexivity|]. split; [reflexivity|]. split; [reflexivity|].
  discriminate.
Qed.

(** C5 (amended).  With antialiasing off or threshold 0, a comparison that
    the early return of line 262 does not end, so that its raw difference
    [max] is computed, returns exactly 1 when [max] is at most the threshold
    and exactly 0 when it exceeds it; as a function of the raw difference the
    result is monotone non-increasing. *)
Theorem C5_hard_cutoff
        (col1 col2 : color) (antialias : bool) (threshold : gfloat)
        (n_components : Z) (has_alpha select_transparent : bool)
        (select_criterion : GimpSelectCriterion) (max : gfloat) :
  antialias = false \/ eq threshold zero = true ->
  raw_difference col1 col2 n_components has_alpha select_transparent
    select_criterion = Some max ->
  let result := pixel_difference col1 col2 antialias threshold n_components
                  has_alpha select_transparent select_criterion in
  (le max threshold = true -> result = one) /\
  (gt max threshold = true -> result = zero) /\
  (forall max1 max2,
      le max1 max2 = true ->
      le (pixel_result antialias threshold max2)
         (pixel_result antialias threshold max1) = true).
Proof.
  intros Hhard Hraw result.
  assert (Hres : forall m, pixel_result antialias threshold m
                           = if gt m threshold then zero else one).
  { intros m. destruct Hhard as [->|Ht].
    - apply pixel_result_hard.
    - now apply pixel_result_threshold_zero. }
  assert (Hr : result = if gt max threshold then zero else one).
  { unfold result. rewrite (pixel_difference_raw _ _ _ _ _ _ _ _ _ Hraw).
    apply Hres. }
  split; [|split].
  - intros Hle. rewrite Hr. unfold gt.
    now rewrite (SFleb_not_gt _ _ Hle).
  - intros Hgt. now rewrite Hr, Hgt.
  - intros m1 m2 Hle. rewrite !Hres.
    destruct (gt m1 threshold) eqn:G1.
    + unfold gt in *. now rewrite (SFltb_leb_trans _ _ _ G1 Hle).
    + now destruct (gt m2 threshold).
Qed.

(** C5 (amended) on white against black, threshold 0: the raw difference
    is 1. *)
Lemma C5_witness :
  (le one zero = true ->
   pixel_difference white black false zero 3 false false
     GIMP_SELECT_CRITERION_COMPOSITE = one) /\
  (gt one zero = true ->
   pixel_difference white black false zero 3 false false
     GIMP_SELECT_CRITERION_COMPOSITE = zero) /\
  (forall max1 max2,
      le max1 max2 = true ->
      le (pixel_result false zero max2) (pixel_result false zero max1) = true).
Proof.
  apply (C5_hard_cutoff white black false zero 3 false false
           GIMP_SELECT_CRITERION_COMPOSITE one).
  - left. reflexivity.
  - reflexivity.
Defined.

(** C6.  A sample whose alpha is exactly 0, in a format with alpha and
    with transparency selection off, evaluates to 0 whatever the reference
    color, the criterion, the antialias setting and the threshold.  So in a
    seeded selection with transparency selection off, the mask cell of every
    fully transparent pixel is 0 when the call returns, wherever the seed is
    (next to the pixel in particular). *)
Theorem C6_transparent_pixel_excluded
        (col1 col2 : color) (antialias' : bool) (threshold' : gfloat)
        (n_components : Z) (criterion' : GimpSelectCriterion)
        (image : GimpImage) (drawable : GimpDrawable)
        (sample_merged antialias : bool) (threshold : gfloat)
        (select_criterion : GimpSelectCriterion) (x y px py : Z)
        (fuel : nat) :
  let src := seed_source image drawable sample_merged in
  let format := seed_format image drawable sample_merged in
  eq (chan col2 (n_components - 1)) zero = true ->
  babl_format_has_alpha format = true ->
  0 <= x < pickable_width src -> 0 <= y < pickable_height src ->
  0 <= px < pickable_width src -> 0 <= py < pickable_height src ->
  eq (chan (pickable_pixel src format px py)
        (babl_format_get_n_components format - 1)) zero = true ->
  (2 * cells src + 1 <= fuel)%nat ->
  pixel_difference col1 col2 antialias' threshold' n_components true false
    criterion' = zero /\
  exists m,
    gimp_image_contiguous_region_by_seed fuel (Some image) (Some drawable)
      sample_merged antialias threshold false select_criterion x y
    = Selected m /\
    mask_cell m px py = zero.
Proof.
  intros src format Hcol2 Halpha Hx Hy Hpx Hpy Hclear Hfuel.
  split; [now apply pixel_difference_transparent|].
  destruct (seed_returns image drawable sample_merged antialias threshold
              false select_criterion x y Hx Hy fuel Hfuel)
    as (m & E & Hok & _).
  exists m. split; [exact E|].
  destruct (written_dec m px py) as [Hw|Hn].
  - rewrite (written_cell _ _ _ _ _ _ _ m px py Hok Hw).
    unfold similarity, seed_transparent, seed_select_transparent.
    fold format. rewrite Halpha.
    unfold gegl_buffer_sample, in_extent. fold src.
    replace (0 <=? px) with true by (symmetry; apply Z.leb_le; lia).
    replace (px <? pickable_width src) with true
      by (symmetry; apply Z.ltb_lt; lia).
    replace (0 <=? py) with true by (symmetry; apply Z.leb_le; lia).
    replace (py <? pickable_height src) with true
      by (symmetry; apply Z.ltb_lt; lia).
    simpl. now apply pixel_difference_transparent.
  - apply (ok_blank m Hok px py Hn).
Qed.

(** C6 on the 2 x 1 image [hole]: seed on the opaque pixel, the transparent
    pixel right of it stays 0. *)
Lemma C6_witness :
  pixel_difference white [one; one; one; zero] true one 4 true false
    GIMP_SELECT_CRITERION_R = zero /\
  exists m,
    gimp_image_contiguous_region_by_seed 5 (Some (image_of hole)) (Some hole)
      false false zero false GIMP_SELECT_CRITERION_COMPOSITE 0 0
    = Selected m /\
    mask_cell m 1 0 = zero.
Proof.
  apply (C6_transparent_pixel_excluded white [one; one; one; zero] true one 4
           GIMP_SELECT_CRITERION_R (image_of hole) hole false false zero
           GIMP_SELECT_CRITERION_COMPOSITE 0 0 1 0 5).
  - reflexivity.
  - reflexivity.
  - simpl. lia.
  - simpl. lia.
  - simpl. lia.
  - simpl. lia.
  - reflexivity.
  - vm_compute. lia.
Defined.

(** C7, as stated, fails: a reference color whose alpha is -1 is not exactly
    zero, yet line 205 tests [col[3] > 0.0] and the color entry point keeps
    transparency selection on for it. *)
Lemma C7_counterexample :
  eq (chan [zero; zero; zero; S754_finite true 8388608 (-23)] 3) zero
  = false /\
  gimp_image_contiguous_region_by_color (Some (image_of hole)) (Some hole)
    false false zero true GIMP_SELECT_CRITERION_COMPOSITE
    (Some [zero; zero; zero; S754_finite true 8388608 (-23)])
  = Selected
      (scan_all hole
         (fun s => pixel_difference
                     [zero; zero; zero; S754_finite true 8388608 (-23)] s
                     false zero 4 true true
                     GIMP_SELECT_CRITERION_COMPOSITE)) /\
  color_select_transparent true
    [zero; zero; zero; S754_finite true 8388608 (-23)] true = true /\
  true <> false.
Proof.
  split; [reflexivity|]. split; [reflexivity|]. split; [reflexivity|].
  discriminate.
Qed.

(** C7 (amended).  The color entry point runs its scan with transparency
    selection switched off when the source has no alpha or the alpha of the
    reference color is greater than 0, and as requested otherwise.  The
    seeded entry point runs its search with it switched off when its
    comparison format has no alpha or the alpha sampled at the seed is
    greater than 0, and as requested otherwise; the comparison format has
    alpha when the source has alpha and also when the source is a palette,
    which is compared as "RGBA float". *)
Theorem C7_transparency_switch
        (image : GimpImage) (drawable : GimpDrawable)
        (sample_merged antialias : bool) (threshold : gfloat)
        (select_transparent : bool) (select_criterion : GimpSelectCriterion)
        (col : color) (x y : Z) (fuel : nat) :
  let src := seed_source image drawable sample_merged in
  let has_alpha := babl_format_has_alpha (pickable_format src) in
  let by_color := color_select_transparent has_alpha col select_transparent in
  let format := seed_format image drawable sample_merged in
  let start_col := seed_color image drawable sample_merged x y in
  let alpha := chan start_col (babl_format_get_n_components format - 1) in
  let by_seed := seed_select_transparent format start_col select_transparent in
  gimp_image_contiguous_region_by_color (Some image) (Some drawable)
    sample_merged antialias threshold select_transparent select_criterion
    (Some col)
  = Selected
      (scan_all src
         (fun s => pixel_difference col s antialias threshold
                     (if has_alpha then 4 else 3) has_alpha by_color
                     select_criterion)) /\
  (has_alpha = false \/ gt (chan col 3) zero = true -> by_color = false) /\
  (has_alpha = true /\ gt (chan col 3) zero = false ->
   by_color = select_transparent) /\
  gimp_image_contiguous_region_by_seed fuel (Some image) (Some drawable)
    sample_merged antialias threshold select_transparent select_criterion x y
  = match find_contiguous_region_helper src format by_seed select_criterion
            antialias threshold start_col fuel
            (gimp_channel_new_mask (pickable_width src) (pickable_height src))
            x y with
    | Some mask => Selected mask
    | None => Unfinished
    end /\
  babl_format_has_alpha format
  = babl_format_is_palette (pickable_format src) || has_alpha /\
  (babl_format_has_alpha format = false \/ gt alpha zero = true ->
   by_seed = false) /\
  (babl_format_has_alpha format = true /\ gt alpha zero = false ->
   by_seed = select_transparent).
Proof.
  intros src has_alpha by_color format start_col alpha by_seed.
  split; [reflexivity|].
  split; [|split; [|split; [reflexivity|split; [|split]]]].
  - unfold by_color, color_select_transparent. intros [-> | G].
    + reflexivity.
    + rewrite G. now destruct has_alpha, select_transparent.
  - unfold by_color, color_select_transparent. intros [-> G].
    rewrite G. now destruct select_transparent.
  - unfold format, seed_format, comparison_format, has_alpha. fold src.
    now destruct (babl_format_is_palette (pickable_format src)).
  - unfold by_seed, seed_select_transparent. intros [-> | G].
    + reflexivity.
    + fold alpha. rewrite G.
      now destruct (babl_format_has_alpha format), select_transparent.
  - unfold by_seed, seed_select_transparent. intros [-> G].
    fold alpha. rewrite G. now destruct select_transparent.
Qed.

(** C7 (amended) on the image [hole] with an opaque reference color. *)
Lemma C7_witness :
  color_select_transparent true [one; zero; zero; one] true = false /\
  seed_select_transparent RGBA_float [one; zero; zero; one] true = false.
Proof.
  pose proof (C7_transparency_switch (image_of hole) hole false false zero
                true GIMP_SELECT_CRITERION_COMPOSITE [one; zero; zero; one]
                0 0 5) as (_ & Hc & _ & _ & _ & Hs & _).
  split.
  - apply Hc. right. reflexivity.
  - apply Hs. right. reflexivity.
Defined.

(** C8, as stated, fails: with alpha and transparency selection off, an
    opaque black and a fully transparent black are 1 in one order and 0 in
    the other, because step 1 looks at the alpha of the second color only. *)
Lemma C8_counterexample :
  pixel_difference [zero; zero; zero; zero] [zero; zero; zero; one] false zero
    4 true false GIMP_SELECT_CRITERION_COMPOSITE = one /\
  pixel_difference [zero; zero; zero; one] [zero; zero; zero; zero] false zero
    4 true false GIMP_SELECT_CRITERION_COMPOSITE = zero /\
  one <> zero.
Proof. split; [reflexivity|]. split; [reflexivity|discriminate]. Qed.

(** C8 (amended).  For the composite criterion the result is the same in
    both orders whenever step 1 treats the two colors alike, which is the
    case when the source has no alpha, when transparency selection is on, and
    when the two alphas are both 0 or both different from 0. *)
Theorem C8_composite_symmetry
        (a b : color) (antialias : bool) (threshold : gfloat)
        (n_components : Z) (has_alpha select_transparent : bool) :
  transparent_exit select_transparent has_alpha a n_components
  = transparent_exit select_transparent has_alpha b n_components ->
  pixel_difference a b antialias threshold n_components has_alpha
    select_transparent GIMP_SELECT_CRITERION_COMPOSITE
  = pixel_difference b a antialias threshold n_components has_alpha
      select_transparent GIMP_SELECT_CRITERION_COMPOSITE.
Proof.
  intros Hexit. unfold pixel_difference.
  now rewrite Hexit, pixel_max_comm.
Qed.

(** C8 (amended) on black and white, both opaque. *)
Lemma C8_witness :
  pixel_difference [zero; zero; zero; one] [one; one; one; one] true one 4
    true false GIMP_SELECT_CRITERION_COMPOSITE
  = pixel_difference [one; one; one; one] [zero; zero; zero; one] true one 4
      true false GIMP_SELECT_CRITERION_COMPOSITE.
Proof.
  apply (C8_composite_symmetry [zero; zero; zero; one] [one; one; one; one]
           true one 4 true false).
  reflexivity.
Defined.




(** C10.  At every moment of a seeded selection at an in-bounds seed (after
    any number of passes of the driver, and after any prefix of the stores
    made so far) every cell of the mask is 0 or the similarity of its pixel
    to the seed color; each store writes that similarity into a cell that
    still held 0, so no non-zero cell is ever overwritten with another
    value; and the mask a call returns is one of these states. *)
Theorem C10_mask_values
        (image : GimpImage) (drawable : GimpDrawable)
        (sample_merged antialias : bool) (threshold : gfloat)
        (select_transparent : bool) (select_criterion : GimpSelectCriterion)
        (x y : Z) :
  let src := seed_source image drawable sample_merged in
  let sim := seed_similarity image drawable sample_merged antialias threshold
               select_transparent select_criterion x y in
  let state n :=
    Nat.iter n
      (seed_pass image drawable sample_merged antialias threshold
         select_transparent select_criterion x y)
      (seed_start image drawable sample_merged x y) in
  0 <= x < pickable_width src -> 0 <= y < pickable_height src ->
  (forall fuel m,
      gimp_image_contiguous_region_by_seed fuel (Some image) (Some drawable)
        sample_merged antialias threshold select_transparent select_criterion
        x y = Selected m ->
      exists n, m = fill_mask (state n)) /\
  forall n,
    let m := fill_mask (state n) in
    (forall c r, mask_cell m c r = replay (mask_writes m) c r) /\
    (forall before after c r,
        mask_writes m = before ++ after ->
        replay before c r = zero \/ replay before c r = sim c r) /\
    (forall before after c r v,
        mask_writes m = before ++ (c, r, v) :: after ->
        v = sim c r /\ replay before c r = zero).
Proof.
  intros src sim state Hx Hy. split.
  - intros fuel m E. rewrite by_seed_run in E.
    destruct (drain _ _ _ _ _ _ _ _ _) as [st|] eqn:Ed; [|discriminate].
    inversion E; subst.
    destruct (drain_iter _ _ _ _ _ _ _ _ _ _ _ _ Ed) as [n ->].
    now exists n.
  - intros n m.
    pose proof (seed_iter_ok image drawable sample_merged antialias threshold
                  select_transparent select_criterion x y Hx Hy n) as Hok.
    fold (state n) in Hok. fold m in Hok. unfold seed_ok in Hok.
    split; [apply (ok_replay m Hok)|]. split.
    + intros before after c r Hsplit. apply replay_values.
      intros c' r' v' Hin.
      apply (ok_log m Hok c' r' v').
      rewrite Hsplit. apply in_or_app. now left.
    + intros before after c r v Hsplit. split.
      * apply (ok_log m Hok c r v).
        rewrite Hsplit. apply in_or_app. right. now left.
      * apply replay_untouched.
        pose proof (ok_nodup m Hok) as Hnd.
        rewrite Hsplit, map_app in Hnd. simpl in Hnd.
        apply NoDup_remove_2 in Hnd. intros Hin. apply Hnd.
        apply in_or_app. now left.
Qed.

(** C10 on the image [strip], seed at (1, 0). *)
Lemma C10_witness :
  let state n :=
    Nat.iter n
      (seed_pass (image_of strip) strip false false zero false
         GIMP_SELECT_CRITERION_COMPOSITE 1 0)
      (seed_start (image_of strip) strip false 1 0) in
  let sim := seed_similarity (image_of strip) strip false false zero false
               GIMP_SELECT_CRITERION_COMPOSITE 1 0 in
  (forall fuel m,
      gimp_image_contiguous_region_by_seed fuel (Some (image_of strip))
        (Some strip) false false zero false GIMP_SELECT_CRITERION_COMPOSITE
        1 0 = Selected m ->
      exists n, m = fill_mask (state n)) /\
  forall n,
    let m := fill_mask (state n) in
    (forall c r, mask_cell m c r = replay (mask_writes m) c r) /\
    (forall before after c r,
        mask_writes m = before ++ after ->
        replay before c r = zero \/ replay before c r = sim c r) /\
    (forall before after c r v,
        mask_writes m = before ++ (c, r, v) :: after ->
        v = sim c r /\ replay before c r = zero).
Proof.
  apply (C10_mask_values (image_of strip) strip false false zero false
           GIMP_SELECT_CRITERION_COMPOSITE 1 0).
  - simpl. lia.
  - simpl. lia.
Defined.

(** ** Further properties of the code *)

(** X1.  The selection of a seeded call is contiguous: when the call
    returns, every selected (non-zero) cell of the mask lies in the buffer
    and is joined to the seed by a walk through selected cells, each step
    going to the next cell along a row or along a column. *)
Theorem X1_selection_is_contiguous
        (image : GimpImage) (drawable : GimpDrawable)
        (sample_merged antialias : bool) (threshold : gfloat)
        (select_transparent : bool) (select_criterion : GimpSelectCriterion)
        (x y : Z) (fuel : nat) :
  let src := seed_source image drawable sample_merged in
  0 <= x < pickable_width src -> 0 <= y < pickable_height src ->
  (2 * cells src + 1 <= fuel)%nat ->
  exists m,
    gimp_image_contiguous_region_by_seed fuel (Some image) (Some drawable)
      sample_merged antialias threshold select_transparent select_criterion
      x y = Selected m /\
    forall c r,
      selected m c r ->
      0 <= c < pickable_width src /\ 0 <= r < pickable_height src /\
      joined (selected m) x y c r.
Proof.
  intros src Hx Hy Hfuel.
  destruct (seed_region image drawable sample_merged antialias threshold
              select_transparent select_criterion x y Hx Hy fuel Hfuel)
    as (m & E & Hok & Hsound & _).
  exists m. split; [exact E|]. intros c r Hsel.
  pose proof (nonzero_written _ _ _ _ _ _ _ m c r Hok Hsel) as Hw.
  destruct (written_in_extent _ _ _ _ _ _ _ m c r Hok Hw) as [Hc Hr].
  split; [exact Hc|]. split; [exact Hr|]. now apply Hsound.
Qed.

(** X1 on the image [strip], seed at (1, 0). *)
Lemma X1_witness :
  exists m,
    gimp_image_contiguous_region_by_seed 13 (Some (image_of strip))
      (Some strip) false false zero false GIMP_SELECT_CRITERION_COMPOSITE
      1 0 = Selected m /\
    forall c r,
      selected m c r ->
      0 <= c < 3 /\ 0 <= r < 2 /\ joined (selected m) 1 0 c r.
Proof.
  apply (X1_selection_is_contiguous (image_of strip) strip false false zero
           false GIMP_SELECT_CRITERION_COMPOSITE 1 0 13).
  - simpl. lia.
  - simpl. lia.
  - vm_compute. lia.
Defined.



(** X3.  A seed that the similarity function rejects (its similarity to the
    seed color is 0) selects nothing: whatever the coordinate, in the buffer
    or outside, the call returns after a single pass of the work list with
    the fresh mask of the size of the source, every cell 0 and nothing
    stored.  The source is not empty: the segment finder declares a scratch
    row of [width] elements. *)
Theorem X3_rejected_seed_selects_nothing
        (image : GimpImage) (drawable : GimpDrawable)
        (sample_merged antialias : bool) (threshold : gfloat)
        (select_transparent : bool) (select_criterion : GimpSelectCriterion)
        (x y : Z) (fuel : nat) :
  let src := seed_source image drawable sample_merged in
  0 < pickable_width src ->
  nonzero (seed_similarity image drawable sample_merged antialias threshold
             select_transparent select_criterion x y x y) = false ->
  gimp_image_contiguous_region_by_seed (S fuel) (Some image) (Some drawable)
    sample_merged antialias threshold select_transparent select_criterion x y
  = Selected (gimp_channel_new_mask (pickable_width src)
                (pickable_height src)).
Proof. intros src _ Hz. now apply seed_unmatched. Qed.

(** X3 on the image [clear], whose only pixel is fully transparent. *)
Lemma X3_witness :
  gimp_image_contiguous_region_by_seed 1 (Some (image_of clear)) (Some clear)
    false true one false GIMP_SELECT_CRITERION_COMPOSITE 0 0
  = Selected (gimp_channel_new_mask 1 1).
Proof.
  apply (X3_rejected_seed_selects_nothing (image_of clear) clear false true
           one false GIMP_SELECT_CRITERION_COMPOSITE 0 0 0).
  - simpl. lia.
  - reflexivity.
Defined.

(** X4.  With transparency selection off and a comparison format with alpha,
    a seed on a fully transparent pixel, and likewise a seed outside the
    extent of the source (where sampling reads 0 in every component), gives
    the empty selection: the fresh all-zero mask, after one pass.  The
    source is not empty. *)
Theorem X4_transparent_seed_selects_nothing
        (image : GimpImage) (drawable : GimpDrawable)
        (sample_merged antialias : bool) (threshold : gfloat)
        (select_criterion : GimpSelectCriterion) (x y : Z) (fuel : nat) :
  let src := seed_source image drawable sample_merged in
  let format := seed_format image drawable sample_merged in
  0 < pickable_width src ->
  babl_format_has_alpha format = true ->
  in_extent (pickable_width src) (pickable_height src) x y = false \/
  eq (chan (pickable_pixel src format x y)
        (babl_format_get_n_components format - 1)) zero = true ->
  gimp_image_contiguous_region_by_seed (S fuel) (Some image) (Some drawable)
    sample_merged antialias threshold false select_criterion x y
  = Selected (gimp_channel_new_mask (pickable_width src)
                (pickable_height src)).
Proof.
  intros src format _ Halpha Hseed. apply seed_unmatched.
  assert (Ha : eq (chan (gegl_buffer_sample src x y format)
                     (babl_format_get_n_components format - 1)) zero = true).
  { destruct (in_extent (pickable_width src) (pickable_height src) x y)
      eqn:Hin.
    - destruct Hseed as [Hout|Hz]; [discriminate|].
      unfold gegl_buffer_sample. now rewrite Hin.
    - now rewrite sample_outside_alpha. }
  unfold seed_similarity, similarity, seed_transparent,
    seed_select_transparent.
  fold src. fold format. rewrite Halpha.
  now rewrite pixel_difference_transparent.
Qed.

(** X4 on the image [clear]: a seed on its transparent pixel and a seed
    outside its extent. *)
Lemma X4_witness :
  gimp_image_contiguous_region_by_seed 1 (Some (image_of clear)) (Some clear)
    false true one false GIMP_SELECT_CRITERION_COMPOSITE 0 0
  = Selected (gimp_channel_new_mask 1 1) /\
  gimp_image_contiguous_region_by_seed 1 (Some (image_of clear)) (Some clear)
    false true one false GIMP_SELECT_CRITERION_COMPOSITE 7 (-2)
  = Selected (gimp_channel_new_mask 1 1).
Proof.
  split.
  - apply (X4_transparent_seed_selects_nothing (image_of clear) clear false
             true one GIMP_SELECT_CRITERION_COMPOSITE 0 0 0).
    + simpl. lia.
    + reflexivity.
    + right. reflexivity.
  - apply (X4_transparent_seed_selects_nothing (image_of clear) clear false
             true one GIMP_SELECT_CRITERION_COMPOSITE 7 (-2) 0).
    + simpl. lia.
    + reflexivity.
    + left. reflexivity.
Defined.

(** X5.  The seed itself is always selected in full: for a seed in the
    buffer and a threshold that is not negative, antialiasing on or off and
    whatever the criterion, the cell of the seed holds 1 when the call
    returns, unless the seed pixel is excluded as fully transparent (the
    comparison format has alpha, transparency selection is off and the alpha
    of the seed pixel is 0).  The criterion is one that reads a component
    that sampling fills: G needs a comparison format of at least 2
    components, B one of at least 3. *)
Theorem X5_seed_is_selected
        (image : GimpImage) (drawable : GimpDrawable)
        (sample_merged antialias : bool) (threshold : gfloat)
        (select_transparent : bool) (select_criterion : GimpSelectCriterion)
        (x y : Z) (fuel : nat) :
  let src := seed_source image drawable sample_merged in
  let format := seed_format image drawable sample_merged in
  0 <= x < pickable_width src -> 0 <= y < pickable_height src ->
  gt zero threshold = false ->
  babl_format_has_alpha format = false \/ select_transparent = true \/
  eq (chan (pickable_pixel src format x y)
        (babl_format_get_n_components format - 1)) zero = false ->
  criterion_sampled (babl_format_get_n_components format) select_criterion
  = true ->
  (2 * cells src + 1 <= fuel)%nat ->
  exists m,
    gimp_image_contiguous_region_by_seed fuel (Some image) (Some drawable)
      sample_merged antialias threshold select_transparent select_criterion
      x y = Selected m /\
    mask_cell m x y = one.
Proof.
  intros src format Hx Hy Ht Hopaque _ Hfuel.
  destruct (seed_region image drawable sample_merged antialias threshold
              select_transparent select_criterion x y Hx Hy fuel Hfuel)
    as (m & E & _ & _ & Hfull).
  exists m. split; [exact E|].
  assert (Hsim : seed_similarity image drawable sample_merged antialias
                   threshold select_transparent select_criterion x y x y
                 = one).
  { unfold seed_similarity, similarity, seed_transparent.
    fold (seed_color image drawable sample_merged x y).
    apply pixel_difference_same; [|exact Ht].
    unfold seed_color. fold src. fold format.
    rewrite (sample_inside src format x y Hx Hy).
    unfold transparent_exit, seed_select_transparent.
    destruct (babl_format_has_alpha format); [|now rewrite andb_false_r].
    destruct select_transparent.
    - destruct (gt (chan (pickable_pixel src format x y)
                      (babl_format_get_n_components format - 1)) zero)
        eqn:G; [|reflexivity].
      now rewrite (gt_zero_not_eq _ G).
    - destruct Hopaque as [Ha|[Hs|Hz]]; try discriminate.
      now rewrite Hz. }
  rewrite (Hfull x y); [exact Hsim|].
  apply joined_seed. split; [exact Hx|]. split; [exact Hy|].
  fold (seed_similarity image drawable sample_merged antialias threshold
          select_transparent select_criterion x y x y).
  now rewrite Hsim.
Qed.

(** X5 on the image [strip], seed on its black pixel, antialiasing on. *)
Lemma X5_witness :
  exists m,
    gimp_image_contiguous_region_by_seed 13 (Some (image_of strip))
      (Some strip) false true half false GIMP_SELECT_CRITERION_R 0 0
    = Selected m /\
    mask_cell m 0 0 = one.
Proof.
  apply (X5_seed_is_selected (image_of strip) strip false true half false
           GIMP_SELECT_CRITERION_R 0 0 13).
  - simpl. lia.
  - simpl. lia.
  - reflexivity.
  - left. reflexivity.
  - reflexivity.
  - vm_compute. lia.
Defined.

(** X6.  Under the hard cutoff (antialiasing off, or a threshold that is
    not greater than 0) the mask of a seeded call is binary: every cell
    holds exactly 0 or exactly 1. *)
Theorem X6_hard_seed_selection_is_binary
        (image : GimpImage) (drawable : GimpDrawable)
        (sample_merged antialias : bool) (threshold : gfloat)
        (select_transparent : bool) (select_criterion : GimpSelectCriterion)
        (x y : Z) (fuel : nat) :
  let src := seed_source image drawable sample_merged in
  antialias = false \/ gt threshold zero = false ->
  0 <= x < pickable_width src -> 0 <= y < pickable_height src ->
  (2 * cells src + 1 <= fuel)%nat ->
  exists m,
    gimp_image_contiguous_region_by_seed fuel (Some image) (Some drawable)
      sample_merged antialias threshold select_transparent select_criterion
      x y = Selected m /\
    forall c r, mask_cell m c r = zero \/ mask_cell m c r = one.
Proof.
  intros src Hhard Hx Hy Hfuel.
  destruct (seed_returns image drawable sample_merged antialias threshold
              select_transparent select_criterion x y Hx Hy fuel Hfuel)
    as (m & E & Hok & _).
  exists m. split; [exact E|]. intros c r.
  destruct (written_dec m c r) as [Hw|Hn].
  - rewrite (written_cell _ _ _ _ _ _ _ m c r Hok Hw).
    now apply pixel_difference_binary.
  - left. apply (ok_blank m Hok c r Hn).
Qed.

(** X6 on the image [strip], seed at (1, 0). *)
Lemma X6_witness :
  exists m,
    gimp_image_contiguous_region_by_seed 13 (Some (image_of strip))
      (Some strip) false false half false GIMP_SELECT_CRITERION_COMPOSITE
      1 0 = Selected m /\
    forall c r, mask_cell m c r = zero \/ mask_cell m c r = one.
Proof.
  apply (X6_hard_seed_selection_is_binary (image_of strip) strip false false
           half false GIMP_SELECT_CRITERION_COMPOSITE 1 0 13).
  - left. reflexivity.
  - simpl. lia.
  - simpl. lia.
  - vm_compute. lia.
Defined.

(** X7.  A seeded selection is the part of the selection by color that
    hangs together with the seed.  On a source with alpha that is not
    grayscale, where both entry points compare "RGBA float" pixels, take the
    mask that the color entry point computes with the color of the seed
    pixel as its reference and the same settings: the cells that the seeded
    call selects are exactly the cells joined to the seed by a walk through
    selected cells of that mask, and they hold the same values in both
    masks. *)
Theorem X7_seed_selection_is_component_of_color_selection
        (image : GimpImage) (drawable : GimpDrawable)
        (sample_merged antialias : bool) (threshold : gfloat)
        (select_transparent : bool) (select_criterion : GimpSelectCriterion)
        (x y : Z) (fuel : nat) :
  let src := seed_source image drawable sample_merged in
  babl_format_has_alpha (pickable_format src) = true ->
  babl_base_type (pickable_format src) <> GIMP_GRAY ->
  0 <= x < pickable_width src -> 0 <= y < pickable_height src ->
  (2 * cells src + 1 <= fuel)%nat ->
  exists m m',
    gimp_image_contiguous_region_by_seed fuel (Some image) (Some drawable)
      sample_merged antialias threshold select_transparent select_criterion
      x y = Selected m /\
    gimp_image_contiguous_region_by_color (Some image) (Some drawable)
      sample_merged antialias threshold select_transparent select_criterion
      (Some (pickable_pixel src RGBA_float x y)) = Selected m' /\
    forall c r,
      (selected m c r <-> joined (selected m') x y c r) /\
      (selected m c r -> mask_cell m' c r = mask_cell m c r).
Proof.
  intros src Halpha Hbase Hx Hy Hfuel.
  destruct (seed_region image drawable sample_merged antialias threshold
              select_transparent select_criterion x y Hx Hy fuel Hfuel)
    as (m & E & Hok & Hsound & Hfull).
  exists m. eexists. split; [exact E|]. split; [reflexivity|].
  set (m' := scan_all _ _).
  set (sim := seed_similarity image drawable sample_merged antialias threshold
                select_transparent select_criterion x y).
  assert (Hf : seed_format image drawable sample_merged = RGBA_float).
  { unfold seed_format, comparison_format, babl_format_is_palette.
    fold src. destruct (pickable_format src) as [base alpha].
    simpl in *. subst alpha. destruct base; try reflexivity.
    now contradiction Hbase. }
  assert (Hin : forall c r,
             0 <= c < pickable_width src -> 0 <= r < pickable_height src ->
             mask_cell m' c r = sim c r).
  { intros c r Hc Hr. unfold m', sim, seed_similarity, similarity,
      seed_transparent, seed_color.
    rewrite Hf. fold src.
    rewrite (sample_inside src RGBA_float c r Hc Hr).
    rewrite (sample_inside src RGBA_float x y Hx Hy).
    cbn [scan_all mask_cell].
    change (if sample_merged then gimp_image_get_projection image
            else drawable) with src.
    rewrite (in_extent_true (pickable_width src) (pickable_height src) c r
               Hc Hr), Halpha.
    reflexivity. }
  assert (Hout : forall c r,
             selected m' c r ->
             0 <= c < pickable_width src /\ 0 <= r < pickable_height src).
  { intros c r. unfold selected, m'. cbn [scan_all mask_cell].
    change (if sample_merged then gimp_image_get_projection image
            else drawable) with src.
    unfold in_extent.
    destruct (Z.leb_spec 0 c), (Z.ltb_spec c (pickable_width src)),
      (Z.leb_spec 0 r), (Z.ltb_spec r (pickable_height src));
      cbn [andb]; try discriminate.
    intros _. lia. }
  assert (Hseed : forall c r,
             selected m c r ->
             0 <= c < pickable_width src /\ 0 <= r < pickable_height src /\
             mask_cell m c r = sim c r).
  { intros c r Hsel.
    pose proof (nonzero_written _ _ _ _ _ _ _ m c r Hok Hsel) as Hw.
    destruct (written_in_extent _ _ _ _ _ _ _ m c r Hok Hw) as [Hc Hr].
    split; [exact Hc|]. split; [exact Hr|].
    apply (written_cell _ _ _ _ _ _ _ m c r Hok Hw). }
  assert (Hsub : forall c r, selected m c r -> selected m' c r).
  { intros c r Hsel. destruct (Hseed c r Hsel) as (Hc & Hr & Hv).
    unfold selected in *. rewrite (Hin c r Hc Hr), <- Hv. exact Hsel. }
  intros c r. split; [split|].
  - intros Hsel. apply (joined_mono (selected m)); [exact Hsub|].
    now apply Hsound.
  - intros Hj. unfold selected. rewrite (Hfull c r).
    + destruct (Hout c r (joined_in _ _ _ _ _ Hj)) as [Hc Hr].
      fold (sim c r). rewrite <- (Hin c r Hc Hr).
      exact (joined_in _ _ _ _ _ Hj).
    + apply (joined_mono (selected m')); [|exact Hj].
      intros c' r' Hsel'. destruct (Hout c' r' Hsel') as [Hc Hr].
      split; [exact Hc|]. split; [exact Hr|].
      fold (seed_similarity image drawable sample_merged antialias threshold
              select_transparent select_criterion x y c' r').
      fold (sim c' r'). rewrite <- (Hin c' r' Hc Hr). exact Hsel'.
  - intros Hsel. destruct (Hseed c r Hsel) as (Hc & Hr & Hv).
    now rewrite (Hin c r Hc Hr), Hv.
Qed.

(** X7 on the image [hole], seed on its opaque pixel. *)
Lemma X7_witness :
  exists m m',
    gimp_image_contiguous_region_by_seed 5 (Some (image_of hole)) (Some hole)
      false true one true GIMP_SELECT_CRITERION_COMPOSITE 0 0 = Selected m /\
    gimp_image_contiguous_region_by_color (Some (image_of hole)) (Some hole)
      false true one true GIMP_SELECT_CRITERION_COMPOSITE
      (Some (pickable_pixel hole RGBA_float 0 0)) = Selected m' /\
    forall c r,
      (selected m c r <-> joined (selected m') 0 0 c r) /\
      (selected m c r -> mask_cell m' c r = mask_cell m c r).
Proof.
  apply (X7_seed_selection_is_component_of_color_selection (image_of hole)
           hole false true one true GIMP_SELECT_CRITERION_COMPOSITE 0 0 5).
  - reflexivity.
  - discriminate.
  - simpl. lia.
  - simpl. lia.
  - vm_compute. lia.
Defined.



(** X9.  The segment finder, called as the driver calls it at a position
    [(x, y)] of the buffer, returns FALSE exactly when the pixel at [(x, y)]
    does not match; otherwise the [start] and [end] it returns delimit the
    maximal run of matching pixels of row [y] around [x]: [start] lies left
    of [x] and is -1 or a column that does not match, [end] lies right of
    [x] and is the width or a column that does not match, and every column
    strictly between the two matches. *)
Theorem X9_segment_is_maximal_run
        (col : color) (src_buffer : GimpPickable) (mask_buffer : MaskBuffer)
        (format : Babl) (select_transparent : bool)
        (select_criterion : GimpSelectCriterion) (antialias : bool)
        (threshold : gfloat) (x y : Z) :
  let width := pickable_width src_buffer in
  let sim c := similarity src_buffer format select_transparent
                 select_criterion antialias threshold col c y in
  0 <= x < width -> 0 <= y < pickable_height src_buffer ->
  mask_width mask_buffer = width ->
  mask_height mask_buffer = pickable_height src_buffer ->
  match find_contiguous_segment col src_buffer mask_buffer format
          (babl_format_get_n_components format)
          (babl_format_has_alpha format) width select_transparent
          select_criterion antialias threshold x y with
  | None => nonzero (sim x) = false
  | Some (_, start, end_) =>
      nonzero (sim x) = true /\
      -1 <= start < x /\ x < end_ <= width /\
      (forall c, start < c < end_ -> nonzero (sim c) = true) /\
      (0 <= start -> nonzero (sim start) = false) /\
      (end_ < width -> nonzero (sim end_) = false)
  end.
Proof.
  intros width sim Hx Hy Hw Hh.
  pose proof (segment_spec src_buffer format select_transparent
                select_criterion antialias threshold col mask_buffer x y
                Hx Hy Hw Hh) as Hseg.
  unfold segment in Hseg. fold width in Hseg.
  destruct (find_contiguous_segment _ _ _ _ _ _ _ _ _ _ _ _ _)
    as [[[m' s] e]|]; [|exact Hseg].
  destruct Hseg as [H1 H2 H3 H4 H5 H6 _ _ _ _]. now repeat split.
Qed.

(** X9 on row 0 of the image [strip] (black, white, white), probed at
    column 1 with white as the reference color. *)
Lemma X9_witness :
  match find_contiguous_segment white strip (gimp_channel_new_mask 3 2)
          RGB_float 3 false 3 false GIMP_SELECT_CRITERION_COMPOSITE false
          zero 1 0 with
  | None =>
      nonzero (similarity strip RGB_float false
                 GIMP_SELECT_CRITERION_COMPOSITE false zero white 1 0) = false
  | Some (_, start, end_) =>
      nonzero (similarity strip RGB_float false
                 GIMP_SELECT_CRITERION_COMPOSITE false zero white 1 0) = true /\
      -1 <= start < 1 /\ 1 < end_ <= 3 /\
      (forall c, start < c < end_ ->
                 nonzero (similarity strip RGB_float false
                            GIMP_SELECT_CRITERION_COMPOSITE false zero white
                            c 0) = true) /\
      (0 <= start ->
       nonzero (similarity strip RGB_float false
                  GIMP_SELECT_CRITERION_COMPOSITE false zero white start 0)
       = false) /\
      (end_ < 3 ->
       nonzero (similarity strip RGB_float false
                  GIMP_SELECT_CRITERION_COMPOSITE false zero white end_ 0)
       = false)
  end.
Proof.
  apply (X9_segment_is_maximal_run white strip (gimp_channel_new_mask 3 2)
           RGB_float false GIMP_SELECT_CRITERION_COMPOSITE false zero 1 0).
  - simpl. lia.
  - simpl. lia.
  - reflexivity.
  - reflexivity.
Defined.

(** X10.  What a successful call of the segment finder does to the mask: the
    size is kept; every column strictly between the returned [start] and
    [end] of row [y] holds its similarity; the column [start] itself, when
    it is in the buffer, is overwritten too, with the similarity of its
    pixel, which is 0; and no other cell changes, in particular the column
    [end] and every other row. *)
Theorem X10_segment_write_footprint
        (col : color) (src_buffer : GimpPickable) (mask_buffer : MaskBuffer)
        (format : Babl) (select_transparent : bool)
        (select_criterion : GimpSelectCriterion) (antialias : bool)
        (threshold : gfloat) (x y : Z) (mask' : MaskBuffer) (start end_ : Z) :
  let width := pickable_width src_buffer in
  let sim c := similarity src_buffer format select_transparent
                 select_criterion antialias threshold col c y in
  0 <= x < width -> 0 <= y < pickable_height src_buffer ->
  mask_width mask_buffer = width ->
  mask_height mask_buffer = pickable_height src_buffer ->
  find_contiguous_segment col src_buffer mask_buffer format
    (babl_format_get_n_components format) (babl_format_has_alpha format)
    width select_transparent select_criterion antialias threshold x y
  = Some (mask', start, end_) ->
  mask_width mask' = width /\
  mask_height mask' = pickable_height src_buffer /\
  (forall c, start < c < end_ -> mask_cell mask' c y = sim c) /\
  (0 <= start ->
   mask_cell mask' start y = sim start /\ nonzero (sim start) = false) /\
  (forall c r, r <> y \/ c < start \/ end_ <= c ->
               mask_cell mask' c r = mask_cell mask_buffer c r).
Proof.
  intros width sim Hx Hy Hw Hh E.
  pose proof (segment_spec src_buffer format select_transparent
                select_criterion antialias threshold col mask_buffer x y
                Hx Hy Hw Hh) as Hseg.
  unfold segment in Hseg. fold width in Hseg. rewrite E in Hseg.
  destruct Hseg as [_ Hs He _ Hstop _ Hw' Hh' _ Hcells].
  split; [congruence|]. split; [congruence|]. split; [|split].
  - intros c Hc. rewrite Hcells. rewrite Z.eqb_refl.
    replace (start <=? c) with true by (symmetry; apply Z.leb_le; lia).
    replace (0 <=? c) with true by (symmetry; apply Z.leb_le; lia).
    replace (c <? end_) with true by (symmetry; apply Z.ltb_lt; lia).
    reflexivity.
  - intros H0. split; [|now apply Hstop].
    rewrite Hcells. rewrite Z.eqb_refl.
    replace (start <=? start) with true by (symmetry; apply Z.leb_le; lia).
    replace (0 <=? start) with true by (symmetry; apply Z.leb_le; lia).
    replace (start <? end_) with true by (symmetry; apply Z.ltb_lt; lia).
    reflexivity.
  - intros c r Hout. rewrite Hcells.
    destruct (Z.eqb_spec r y), (Z.leb_spec start c), (Z.ltb_spec c end_);
      simpl; try reflexivity; try lia.
    now rewrite andb_false_r.
Qed.

(** X10 on row 0 of the image [strip]: the probe at column 1 returns
    [start = 0] and [end = 3]. *)
Lemma X10_witness :
  exists mask',
    find_contiguous_segment white strip (gimp_channel_new_mask 3 2) RGB_float
      3 false 3 false GIMP_SELECT_CRITERION_COMPOSITE false zero 1 0
    = Some (mask', 0, 3) /\
    (mask_width mask' = 3 /\
     mask_height mask' = 2 /\
     (forall c, 0 < c < 3 ->
                mask_cell mask' c 0
                = similarity strip RGB_float false
                    GIMP_SELECT_CRITERION_COMPOSITE false zero white c 0) /\
     (0 <= 0 ->
      mask_cell mask' 0 0
      = similarity strip RGB_float false GIMP_SELECT_CRITERION_COMPOSITE
          false zero white 0 0 /\
      nonzero (similarity strip RGB_float false
                 GIMP_SELECT_CRITERION_COMPOSITE false zero white 0 0)
      = false) /\
     (forall c r, r <> 0 \/ c < 0 \/ 3 <= c ->
                  mask_cell mask' c r
                  = mask_cell (gimp_channel_new_mask 3 2) c r)).
Proof.
  eexists. split; [vm_compute; reflexivity|].
  apply (X10_segment_write_footprint white strip (gimp_channel_new_mask 3 2)
           RGB_float false GIMP_SELECT_CRITERION_COMPOSITE false zero 1 0).
  - simpl. lia.
  - simpl. lia.
  - reflexivity.
  - reflexivity.
  - vm_compute. reflexivity.
Defined.

(** X11.  Selection by color takes every pixel of exactly the reference
    color in full: for a threshold that is not negative, antialiasing on or
    off and for every criterion, the mask cell of a pixel whose "RGBA float"
    value is the reference color holds 1, unless the color is excluded as
    fully transparent (source with alpha, transparency selection off, alpha
    of the color 0). *)
Theorem X11_color_selects_its_own_pixels
        (image : GimpImage) (drawable : GimpDrawable)
        (sample_merged antialias : bool) (threshold : gfloat)
        (select_transparent : bool) (select_criterion : GimpSelectCriterion)
        (col : color) (c r : Z) :
  let src := seed_source image drawable sample_merged in
  0 <= c < pickable_width src -> 0 <= r < pickable_height src ->
  pickable_pixel src RGBA_float c r = col ->
  gt zero threshold = false ->
  babl_format_has_alpha (pickable_format src) = false \/
  select_transparent = true \/ eq (chan col 3) zero = false ->
  exists m,
    gimp_image_contiguous_region_by_color (Some image) (Some drawable)
      sample_merged antialias threshold select_transparent select_criterion
      (Some col) = Selected m /\
    mask_cell m c r = one.
Proof.
  intros src Hc Hr Hpix Ht Hopaque.
  eexists. split; [reflexivity|].
  cbn [scan_all mask_cell].
  change (if sample_merged then gimp_image_get_projection image else drawable)
    with src.
  rewrite (in_extent_true (pickable_width src) (pickable_height src) c r
             Hc Hr), Hpix.
  apply pixel_difference_same; [|exact Ht].
  unfold transparent_exit, color_select_transparent.
  destruct (babl_format_has_alpha (pickable_format src));
    [|now rewrite andb_false_r].
  cbn [Z.sub Z.add Z.opp Z.pos_sub Pos.pred_double].
  change (4 - 1) with 3.
  destruct select_transparent.
  - destruct (gt (chan col 3) zero) eqn:G; [|reflexivity].
    now rewrite (gt_zero_not_eq _ G).
  - destruct Hopaque as [Ha|[Hs|Hz]]; try discriminate.
    now rewrite Hz.
Qed.

(** X11 on the image [hole] and the color of its opaque pixel. *)
Lemma X11_witness :
  exists m,
    gimp_image_contiguous_region_by_color (Some (image_of hole)) (Some hole)
      false true one false GIMP_SELECT_CRITERION_G
      (Some [one; zero; zero; one]) = Selected m /\
    mask_cell m 0 0 = one.
Proof.
  apply (X11_color_selects_its_own_pixels (image_of hole) hole false true one
           false GIMP_SELECT_CRITERION_G [one; zero; zero; one] 0 0).
  - simpl. lia.
  - simpl. lia.
  - reflexivity.
  - reflexivity.
  - right. right. reflexivity.
Defined.

(** X12.  Under the hard cutoff (antialiasing off, or a threshold that is
    not greater than 0) the mask of a selection by color is binary: every
    cell holds exactly 0 or exactly 1. *)
Theorem X12_hard_color_selection_is_binary
        (image : GimpImage) (drawable : GimpDrawable)
        (sample_merged antialias : bool) (threshold : gfloat)
        (select_transparent : bool) (select_criterion : GimpSelectCriterion)
        (col : color) :
  antialias = false \/ gt threshold zero = false ->
  exists m,
    gimp_image_contiguous_region_by_color (Some image) (Some drawable)
      sample_merged antialias threshold select_transparent select_criterion
      (Some col) = Selected m /\
    forall c r, mask_cell m c r = zero \/ mask_cell m c r = one.
Proof.
  intros Hhard. eexists. split; [reflexivity|]. intros c r.
  cbn [scan_all mask_cell]. destruct (in_extent _ _ c r); [|now left].
  now apply pixel_difference_binary.
Qed.

(** X12 on the image [hole], threshold 0 with antialiasing requested. *)
Lemma X12_witness :
  exists m,
    gimp_image_contiguous_region_by_color (Some (image_of hole)) (Some hole)
      false true zero false GIMP_SELECT_CRITERION_COMPOSITE
      (Some [one; zero; zero; one]) = Selected m /\
    forall c r, mask_cell m c r = zero \/ mask_cell m c r = one.
Proof.
  apply (X12_hard_color_selection_is_binary (image_of hole) hole false true
           zero false GIMP_SELECT_CRITERION_COMPOSITE [one; zero; zero; one]).
  right. reflexivity.
Defined.

(** X13.  With antialiasing off, raising the threshold never shrinks a
    selection by color: every cell selected at threshold [t] holds 1 both at
    [t] and at every threshold [t'] with [t <= t'], for the same reference
    color and settings. *)
Theorem X13_color_selection_grows_with_threshold
        (image : GimpImage) (drawable : GimpDrawable)
        (sample_merged : bool) (t t' : gfloat)
        (select_transparent : bool) (select_criterion : GimpSelectCriterion)
        (col : color) :
  le t t' = true ->
  exists m m',
    gimp_image_contiguous_region_by_color (Some image) (Some drawable)
      sample_merged false t select_transparent select_criterion (Some col)
    = Selected m /\
    gimp_image_contiguous_region_by_color (Some image) (Some drawable)
      sample_merged false t' select_transparent select_criterion (Some col)
    = Selected m' /\
    forall c r, selected m c r ->
                mask_cell m c r = one /\ mask_cell m' c r = one.
Proof.
  intros Hle. eexists. eexists.
  split; [reflexivity|]. split; [reflexivity|].
  intros c r. unfold selected. cbn [scan_all mask_cell].
  destruct (in_extent _ _ c r); [|discriminate].
  intros Hsel.
  destruct (pixel_difference_threshold _ _ _ _ _ _ _ _ Hle Hsel) as [H' H0].
  now split.
Qed.

(** X13 on the image [hole], thresholds 0 and 1. *)
Lemma X13_witness :
  exists m m',
    gimp_image_contiguous_region_by_color (Some (image_of hole)) (Some hole)
      false false zero false GIMP_SELECT_CRITERION_COMPOSITE
      (Some [one; zero; zero; one]) = Selected m /\
    gimp_image_contiguous_region_by_color (Some (image_of hole)) (Some hole)
      false false one false GIMP_SELECT_CRITERION_COMPOSITE
      (Some [one; zero; zero; one]) = Selected m' /\
    forall c r, selected m c r ->
                mask_cell m c r = one /\ mask_cell m' c r = one.
Proof.
  apply (X13_color_selection_grows_with_threshold (image_of hole) hole false
           zero one false GIMP_SELECT_CRITERION_COMPOSITE
           [one; zero; zero; one]).
  reflexivity.
Defined.

(** X14.  The criteria H, S and V have no code: the raw difference keeps its
    initial 0.  So when the comparison is one of colors (not the alpha-only
    comparison of transparency selection) and the threshold is not negative,
    these criteria accept every sample in full, whatever the two colors,
    except a sample excluded as fully transparent. *)
Theorem X14_criteria_without_code_accept_everything
        (col1 col2 : color) (antialias : bool) (threshold : gfloat)
        (n_components : Z) (has_alpha select_transparent : bool)
        (select_criterion : GimpSelectCriterion) :
  select_criterion = GIMP_SELECT_CRITERION_H \/
  select_criterion = GIMP_SELECT_CRITERION_S \/
  select_criterion = GIMP_SELECT_CRITERION_V ->
  select_transparent && has_alpha = false ->
  gt zero threshold = false ->
  pixel_difference col1 col2 antialias threshold n_components has_alpha
    select_transparent select_criterion
  = if transparent_exit select_transparent has_alpha col2 n_components
    then zero else one.
Proof.
  intros Hcrit Hcolor Ht. unfold pixel_difference.
  destruct (transparent_exit _ _ _ _); [reflexivity|].
  unfold pixel_max. rewrite Hcolor.
  destruct Hcrit as [-> |[-> | ->]]; now apply pixel_result_zero.
Qed.

(** X14 on black against white, criterion H. *)
Lemma X14_witness :
  pixel_difference black white true half 3 false false
    GIMP_SELECT_CRITERION_H
  = if transparent_exit false false white 3 then zero else one.
Proof.
  apply (X14_criteria_without_code_accept_everything black white true half 3
           false false GIMP_SELECT_CRITERION_H).
  - left. reflexivity.
  - reflexivity.
  - reflexivity.
Defined.

(** X15.  Under the hard cutoff the composite criterion is the strictest of
    the four that have code: a sample that it accepts is accepted by each of
    the criteria R, G and B whose channel is one of the color channels that
    the composite loop runs over. *)
Theorem X15_composite_is_strictest
        (col1 col2 : color) (threshold : gfloat) (n_components : Z)
        (has_alpha select_transparent : bool) :
  let channels := if has_alpha then n_components - 1 else n_components in
  pixel_difference col1 col2 false threshold n_components has_alpha
    select_transparent GIMP_SELECT_CRITERION_COMPOSITE = one ->
  (0 < channels ->
   pixel_difference col1 col2 false threshold n_components has_alpha
     select_transparent GIMP_SELECT_CRITERION_R = one) /\
  (1 < channels ->
   pixel_difference col1 col2 false threshold n_components has_alpha
     select_transparent GIMP_SELECT_CRITERION_G = one) /\
  (2 < channels ->
   pixel_difference col1 col2 false threshold n_components has_alpha
     select_transparent GIMP_SELECT_CRITERION_B = one).
Proof.
  intros channels. unfold pixel_difference.
  destruct (transparent_exit _ _ _ _); [discriminate|].
  rewrite !pixel_result_hard.
  destruct (gt (pixel_max _ _ _ _ _ GIMP_SELECT_CRITERION_COMPOSITE) _)
    eqn:G; [discriminate|]. intros _.
  assert (Hone : forall (b : Z) (crit : GimpSelectCriterion),
             0 <= b < channels ->
             pixel_max col1 col2 n_components has_alpha select_transparent
               crit
             = (if select_transparent && has_alpha
                then fabs (sub32 (chan col1 (n_components - 1))
                             (chan col2 (n_components - 1)))
                else fabs (sub32 (chan col1 b) (chan col2 b))) ->
             (if gt (pixel_max col1 col2 n_components has_alpha
                       select_transparent crit) threshold
              then zero else one) = one).
  { intros b crit Hb Hmax.
    destruct (gt (pixel_max _ _ _ _ _ crit) _) eqn:G'; [|reflexivity].
    exfalso. rewrite Hmax in G'. unfold pixel_max in G.
    destruct (select_transparent && has_alpha); [congruence|].
    fold channels in G. unfold gt in G, G'.
    destruct (composite_loop_bound (Z.to_nat channels) 0 col1 col2 zero)
      as (_ & _ & Hall); [discriminate|].
    destruct (SFltb_not_nan _ _ G') as [_ Hd].
    destruct (Hall b ltac:(lia)) as [Hnan|Hle]; [contradiction|].
    rewrite (SFltb_leb_trans _ _ _ G' Hle) in G. discriminate. }
  split; [|split]; intros Hb.
  - apply (Hone 0); [lia|]. unfold pixel_max.
    now destruct (select_transparent && has_alpha).
  - apply (Hone 1); [lia|]. unfold pixel_max.
    now destruct (select_transparent && has_alpha).
  - apply (Hone 2); [lia|]. unfold pixel_max.
    now destruct (select_transparent && has_alpha).
Qed.

(** X15 on white against a color that differs from it by 1, 0.5 and 0 in its
    three channels, at threshold 1. *)
Lemma X15_witness :
  (0 < 3 ->
   pixel_difference white [zero; half; one] false one 3 false false
     GIMP_SELECT_CRITERION_R = one) /\
  (1 < 3 ->
   pixel_difference white [zero; half; one] false one 3 false false
     GIMP_SELECT_CRITERION_G = one) /\
  (2 < 3 ->
   pixel_difference white [zero; half; one] false one 3 false false
     GIMP_SELECT_CRITERION_B = one).
Proof.
  apply (X15_composite_is_strictest white [zero; half; one] one 3 false
           false).
  reflexivity.
Defined.

(** X16.  The similarity function returns a number between 0 and 1 for
    every input, whatever the colors (infinite or not-a-number components
    included), the threshold, the criterion and the switches: the result is
    never a NaN, never negative and never above 1. *)
Theorem X16_similarity_within_unit_range
        (col1 col2 : color) (antialias : bool) (threshold : gfloat)
        (n_components : Z) (has_alpha select_transparent : bool)
        (select_criterion : GimpSelectCriterion) :
  let result := pixel_difference col1 col2 antialias threshold n_components
                  has_alpha select_transparent select_criterion in
  le zero result = true /\ le result one = true.
Proof. intros result. apply pixel_difference_range. Qed.

(** X17.  In the middle zone of the antialias ramp, [0 < aa < 0.5], the
    returned [aa * 2.0] is exactly twice [aa]: the promotion to [double],
    the product and the conversion back to [gfloat] round nothing away, and
    the result is a positive number below 1. *)
Theorem X17_ramp_doubling_is_exact
        (col1 col2 : color) (threshold : gfloat) (n_components : Z)
        (has_alpha select_transparent : bool)
        (select_criterion : GimpSelectCriterion) (max : gfloat) :
  gt threshold zero = true ->
  raw_difference col1 col2 n_components has_alpha select_transparent
    select_criterion = Some max ->
  let aa := aa_of max threshold in
  le aa zero = false -> lt aa half = true ->
  let result := pixel_difference col1 col2 true threshold n_components
                  has_alpha select_transparent select_criterion in
  finite_positive result = true /\
  (value result == 2 * value aa)%Q /\
  lt result one = true.
Proof.
  intros HT Hraw aa Hpos Hlt result.
  assert (Hr : result = to_float (mul64 (to_double aa) d2_0)).
  { unfold result. rewrite (pixel_difference_raw _ _ _ _ _ _ _ _ _ Hraw).
    unfold pixel_result. rewrite HT. cbn [andb]. fold aa.
    now rewrite Hpos, Hlt. }
  destruct (ramp_doubling aa (to_float_valid _) Hpos Hlt)
    as (m & e & E & He & Hv).
  rewrite Hr, E. split; [reflexivity|]. split; [exact Hv|].
  unfold lt, one, SFltb, SFcompare.
  destruct (Z.compare_spec e (-23)); try lia; reflexivity.
Qed.

(** X17 on a red channel that differs by 1.25 at threshold 1: [aa] is 0.25
    and the result 0.5. *)
Lemma X17_witness :
  finite_positive
    (pixel_difference [f1_25; zero; zero] black true one 3 false false
       GIMP_SELECT_CRITERION_R) = true /\
  (value (pixel_difference [f1_25; zero; zero] black true one 3 false false
            GIMP_SELECT_CRITERION_R)
   == 2 * value (aa_of f1_25 one))%Q /\
  lt (pixel_difference [f1_25; zero; zero] black true one 3 false false
        GIMP_SELECT_CRITERION_R) one = true.
Proof.
  apply (X17_ramp_doubling_is_exact [f1_25; zero; zero] black one 3 false
           false GIMP_SELECT_CRITERION_R f1_25).
  - reflexivity.
  - reflexivity.
  - vm_compute. reflexivity.
  - vm_compute. reflexivity.
Defined.

(** X18.  Every cell of the mask that a seeded selection returns holds a
    number between 0 and 1, with antialiasing on or off, and the mask has
    the size of the source. *)
Theorem X18_seed_mask_within_unit_range
        (image : GimpImage) (drawable : GimpDrawable)
        (sample_merged antialias : bool) (threshold : gfloat)
        (select_transparent : bool) (select_criterion : GimpSelectCriterion)
        (x y : Z) (fuel : nat) :
  let src := seed_source image drawable sample_merged in
  0 <= x < pickable_width src -> 0 <= y < pickable_height src ->
  (2 * cells src + 1 <= fuel)%nat ->
  exists m,
    gimp_image_contiguous_region_by_seed fuel (Some image) (Some drawable)
      sample_merged antialias threshold select_transparent select_criterion
      x y = Selected m /\
    mask_width m = pickable_width src /\
    mask_height m = pickable_height src /\
    forall c r,
      le zero (mask_cell m c r) = true /\ le (mask_cell m c r) one = true.
Proof.
  intros src Hx Hy Hfuel.
  destruct (seed_returns image drawable sample_merged antialias threshold
              select_transparent select_criterion x y Hx Hy fuel Hfuel)
    as (m & E & Hok & _).
  exists m. split; [exact E|].
  split; [apply (ok_width m Hok)|]. split; [apply (ok_height m Hok)|].
  intros c r. destruct (written_dec m c r) as [Hw|Hn].
  - rewrite (written_cell _ _ _ _ _ _ _ m c r Hok Hw).
    apply pixel_difference_range.
  - rewrite (ok_blank m Hok c r Hn). split; reflexivity.
Qed.

(** X18 on the image [strip], seed at (1, 0), antialiasing on. *)
Lemma X18_witness :
  exists m,
    gimp_image_contiguous_region_by_seed 13 (Some (image_of strip))
      (Some strip) false true f1_5 false GIMP_SELECT_CRITERION_COMPOSITE
      1 0 = Selected m /\
    mask_width m = 3 /\
    mask_height m = 2 /\
    forall c r,
      le zero (mask_cell m c r) = true /\ le (mask_cell m c r) one = true.
Proof.
  apply (X18_seed_mask_within_unit_range (image_of strip) strip false true
           f1_5 false GIMP_SELECT_CRITERION_COMPOSITE 1 0 13).
  - simpl. lia.
  - simpl. lia.
  - vm_compute. lia.
Defined.

(** X19.  Every cell of the mask that a selection by color returns holds a
    number between 0 and 1, with antialiasing on or off, and the mask has
    the size of the source. *)
Theorem X19_color_mask_within_unit_range
        (image : GimpImage) (drawable : GimpDrawable)
        (sample_merged antialias : bool) (threshold : gfloat)
        (select_transparent : bool) (select_criterion : GimpSelectCriterion)
        (col : color) :
  let src := seed_source image drawable sample_merged in
  exists m,
    gimp_image_contiguous_region_by_color (Some image) (Some drawable)
      sample_merged antialias threshold select_transparent select_criterion
      (Some col) = Selected m /\
    mask_width m = pickable_width src /\
    mask_height m = pickable_height src /\
    forall c r,
      le zero (mask_cell m c r) = true /\ le (mask_cell m c r) one = true.
Proof.
  intros src. eexists. split; [reflexivity|].
  split; [reflexivity|]. split; [reflexivity|].
  intros c r. cbn [scan_all mask_cell].
  destruct (in_extent _ _ c r); [|split; reflexivity].
  apply pixel_difference_range.
Qed.

(** X20.  Selection by color of the transparent pixels.  On a source with
    alpha and with a fully transparent reference color, a fully transparent
    pixel is selected in full when transparency selection is requested
    (only the two alphas are compared; the color channels and the criterion
    play no part) and is left at 0 when it is not; the threshold is any that
    is not negative. *)
Theorem X20_color_selection_of_transparent_pixels
        (image : GimpImage) (drawable : GimpDrawable)
        (sample_merged antialias : bool) (threshold : gfloat)
        (select_transparent : bool) (select_criterion : GimpSelectCriterion)
        (col : color) (c r : Z) :
  let src := seed_source image drawable sample_merged in
  babl_format_has_alpha (pickable_format src) = true ->
  0 <= c < pickable_width src -> 0 <= r < pickable_height src ->
  eq (chan col 3) zero = true ->
  eq (chan (pickable_pixel src RGBA_float c r) 3) zero = true ->
  gt zero threshold = false ->
  exists m,
    gimp_image_contiguous_region_by_color (Some image) (Some drawable)
      sample_merged antialias threshold select_transparent select_criterion
      (Some col) = Selected m /\
    mask_cell m c r = if select_transparent then one else zero.
Proof.
  intros src Halpha Hc Hr Hcol Hpix Ht.
  eexists. split; [reflexivity|].
  cbn [scan_all mask_cell].
  change (if sample_merged then gimp_image_get_projection image else drawable)
    with src.
  rewrite (in_extent_true (pickable_width src) (pickable_height src) c r
             Hc Hr), Halpha.
  unfold color_select_transparent.
  assert (Hgt : gt (chan col 3) zero = false).
  { destruct (chan col 3) as [[]|[]| |[] ? ?]; try discriminate;
      reflexivity. }
  destruct select_transparent.
  - rewrite Hgt. unfold pixel_difference, transparent_exit.
    cbn [negb andb]. unfold pixel_max. cbn [andb]. change (4 - 1) with 3.
    replace (fabs (sub32 (chan col 3)
                     (chan (pickable_pixel src RGBA_float c r) 3)))
      with zero; [now apply pixel_result_zero|].
    destruct (chan col 3) as [[]|[]| |[] ? ?]; try discriminate;
      destruct (chan (pickable_pixel src RGBA_float c r) 3)
        as [[]|[]| |[] ? ?]; try discriminate; reflexivity.
  - now apply pixel_difference_transparent.
Qed.

(** X20 on the image [hole] and its transparent pixel, with a transparent
    reference color of another hue. *)
Lemma X20_witness :
  exists m,
    gimp_image_contiguous_region_by_color (Some (image_of hole)) (Some hole)
      false true half true GIMP_SELECT_CRITERION_COMPOSITE
      (Some [zero; one; zero; zero]) = Selected m /\
    mask_cell m 1 0 = if true then one else zero.
Proof.
  apply (X20_color_selection_of_transparent_pixels (image_of hole) hole false
           true half true GIMP_SELECT_CRITERION_COMPOSITE
           [zero; one; zero; zero] 1 0).
  - reflexivity.
  - simpl. lia.
  - simpl. lia.
  - reflexivity.
  - reflexivity.
  - reflexivity.
Defined.

(** X21.  A negative threshold rejects every sample whose raw difference is
    a number: the function returns 0, with antialiasing on or off (the
    antialias ramp is taken only for a threshold greater than 0). *)
Theorem X21_negative_threshold_rejects
        (col1 col2 : color) (antialias : bool) (threshold : gfloat)
        (n_components : Z) (has_alpha select_transparent : bool)
        (select_criterion : GimpSelectCriterion) :
  gt zero threshold = true ->
  pixel_max col1 col2 n_components has_alpha select_transparent
    select_criterion <> S754_nan ->
  pixel_difference col1 col2 antialias threshold n_components has_alpha
    select_transparent select_criterion = zero.
Proof.
  intros Ht Hnum. unfold pixel_difference.
  destruct (transparent_exit _ _ _ _); [reflexivity|].
  apply pixel_result_negative; [exact Ht|].
  now destruct (pixel_max_nonneg col1 col2 n_components has_alpha
                  select_transparent select_criterion).
Qed.

(** X21 on white against itself at threshold -1. *)
Lemma X21_witness :
  pixel_difference white white true (SFopp one) 3 false false
    GIMP_SELECT_CRITERION_COMPOSITE = zero.
Proof.
  apply (X21_negative_threshold_rejects white white true (SFopp one) 3 false
           false GIMP_SELECT_CRITERION_COMPOSITE).
  - reflexivity.
  - vm_compute. discriminate.
Defined.

(** X22.  A threshold that is +infinity or not a number accepts every
    sample in full, with antialiasing on or off and whatever the raw
    difference, except a sample excluded as fully transparent. *)
Theorem X22_unbounded_threshold_accepts
        (col1 col2 : color) (antialias : bool) (threshold : gfloat)
        (n_components : Z) (has_alpha select_transparent : bool)
        (select_criterion : GimpSelectCriterion) :
  threshold = S754_infinity false \/ threshold = S754_nan ->
  pixel_difference col1 col2 antialias threshold n_components has_alpha
    select_transparent select_criterion
  = if transparent_exit select_transparent has_alpha col2 n_components
    then zero else one.
Proof.
  intros Ht. unfold pixel_difference.
  destruct (transparent_exit _ _ _ _); [reflexivity|].
  now apply pixel_result_unbounded.
Qed.

(** X22 on black against white with a threshold that is not a number. *)
Lemma X22_witness :
  pixel_difference black white true S754_nan 3 false false
    GIMP_SELECT_CRITERION_COMPOSITE
  = if transparent_exit false false white 3 then zero else one.
Proof.
  apply (X22_unbounded_threshold_accepts black white true S754_nan 3 false
           false GIMP_SELECT_CRITERION_COMPOSITE).
  right. reflexivity.
Defined.

(** X23.  The work list of a seeded selection stays small and within the
    buffer.  After any number of passes of the driver, started at an
    in-bounds seed, the list holds at most 2 W H + 1 triples (two for each
    cell stored so far, and one), and every triple in it names a row of the
    buffer, a start not left of -1 and an end not right of the width: every
    column the driver goes on to probe lies inside the buffer. *)
Theorem X23_work_list_stays_bounded
        (image : GimpImage) (drawable : GimpDrawable)
        (sample_merged antialias : bool) (threshold : gfloat)
        (select_transparent : bool) (select_criterion : GimpSelectCriterion)
        (x y : Z) (n : nat) :
  let src := seed_source image drawable sample_merged in
  let state :=
    Nat.iter n
      (seed_pass image drawable sample_merged antialias threshold
         select_transparent select_criterion x y)
      (seed_start image drawable sample_merged x y) in
  0 <= x < pickable_width src -> 0 <= y < pickable_height src ->
  (length (coord_stack state)
   <= 2 * length (mask_writes (fill_mask state)) + 1)%nat /\
  (length (coord_stack state) <= 2 * cells src + 1)%nat /\
  forall row start end_,
    In (row, start, end_) (coord_stack state) ->
    0 <= row < pickable_height src /\ -1 <= start /\
    end_ <= pickable_width src.
Proof.
  intros src state Hx Hy.
  destruct (seed_iter_queue image drawable sample_merged antialias threshold
              select_transparent select_criterion x y Hx Hy n)
    as (Hm & Hq & Hl).
  fold state in Hm, Hq, Hl. unfold writes in Hl.
  pose proof (writes_bounded _ _ _ _ _ _ _ (fill_mask state) Hm) as Hb.
  split; [exact Hl|]. split; [|exact Hq].
  unfold cells, src. lia.
Qed.

(** X23 on the image [strip], seed at (1, 0), after two passes. *)
Lemma X23_witness :
  let state :=
    Nat.iter 2
      (seed_pass (image_of strip) strip false false zero false
         GIMP_SELECT_CRITERION_COMPOSITE 1 0)
      (seed_start (image_of strip) strip false 1 0) in
  (length (coord_stack state)
   <= 2 * length (mask_writes (fill_mask state)) + 1)%nat /\
  (length (coord_stack state) <= 2 * cells strip + 1)%nat /\
  forall row start end_,
    In (row, start, end_) (coord_stack state) ->
    0 <= row < 2 /\ -1 <= start /\ end_ <= 3.
Proof.
  apply (X23_work_list_stays_bounded (image_of strip) strip false false zero
           false GIMP_SELECT_CRITERION_COMPOSITE 1 0 2).
  - simpl. lia.
  - simpl. lia.
Defined.

(** X24.  Antialiasing never lowers a sample the hard cutoff accepts: for
    two colors and a threshold that are well-formed binary32 numbers, a
    comparison that is not 0 with antialiasing off returns exactly 1 with
    antialiasing on, the other arguments being equal. *)
Theorem X24_antialias_keeps_accepted_samples
        (col1 col2 : color) (threshold : gfloat) (n_components : Z)
        (has_alpha select_transparent : bool)
        (select_criterion : GimpSelectCriterion) :
  well_formed col1 -> well_formed col2 ->
  valid_binary 24 128 threshold = true ->
  nonzero (pixel_difference col1 col2 false threshold n_components has_alpha
             select_transparent select_criterion) = true ->
  pixel_difference col1 col2 true threshold n_components has_alpha
    select_transparent select_criterion = one.
Proof. apply pixel_difference_antialias. Qed.

(** X24 for white against a color a quarter below it in red, threshold
    0.5. *)
Lemma X24_witness :
  pixel_difference white [f0_75; one; one] true half 3 false false
    GIMP_SELECT_CRITERION_COMPOSITE = one.
Proof.
  apply (X24_antialias_keeps_accepted_samples white [f0_75; one; one] half 3
           false false GIMP_SELECT_CRITERION_COMPOSITE).
  - repeat constructor.
  - repeat constructor.
  - reflexivity.
  - vm_compute. reflexivity.
Defined.



(** X26.  Turning antialiasing on never drops a cell from a selection by
    color: for a well-formed reference color and threshold and a source whose
    pixels, read as "RGBA float", are well-formed, every cell selected with
    antialiasing off holds 1 there and holds 1 as well in the mask computed
    with antialiasing on. *)
Theorem X26_antialias_keeps_color_selection
        (image : GimpImage) (drawable : GimpDrawable)
        (sample_merged : bool) (threshold : gfloat)
        (select_transparent : bool) (select_criterion : GimpSelectCriterion)
        (col : color) :
  let src := if sample_merged then gimp_image_get_projection image
             else drawable in
  well_formed col ->
  valid_binary 24 128 threshold = true ->
  (forall c r, 0 <= c < pickable_width src -> 0 <= r < pickable_height src ->
               well_formed (pickable_pixel src RGBA_float c r)) ->
  exists m m',
    gimp_image_contiguous_region_by_color (Some image) (Some drawable)
      sample_merged false threshold select_transparent select_criterion
      (Some col) = Selected m /\
    gimp_image_contiguous_region_by_color (Some image) (Some drawable)
      sample_merged true threshold select_transparent select_criterion
      (Some col) = Selected m' /\
    forall c r, selected m c r ->
                mask_cell m c r = one /\ mask_cell m' c r = one.
Proof.
  intros src Hcol Vt Hpix. eexists. eexists.
  split; [reflexivity|]. split; [reflexivity|].
  intros c r. unfold selected. cbn [scan_all mask_cell]. fold src.
  destruct (in_extent _ _ c r) eqn:E; [|discriminate].
  apply in_extent_inv in E. destruct E as [Hc Hr].
  intros Hsel. split.
  - match goal with
    | |- pixel_difference ?a ?b ?aa ?t ?n ?ha ?st ?cr = one =>
        destruct (pixel_difference_binary a b aa t n ha st cr
                    (or_introl eq_refl)) as [E0|E1]; [|exact E1]
    end.
    rewrite E0 in Hsel. discriminate.
  - apply pixel_difference_antialias; try assumption. now apply Hpix.
Qed.

(** X26 on the image [strip], reference color white, threshold 0.75. *)
Lemma X26_witness :
  exists m m',
    gimp_image_contiguous_region_by_color (Some (image_of strip))
      (Some strip) false false f0_75 false GIMP_SELECT_CRITERION_COMPOSITE
      (Some white) = Selected m /\
    gimp_image_contiguous_region_by_color (Some (image_of strip))
      (Some strip) false true f0_75 false GIMP_SELECT_CRITERION_COMPOSITE
      (Some white) = Selected m' /\
    forall c r, selected m c r ->
                mask_cell m c r = one /\ mask_cell m' c r = one.
Proof.
  apply (X26_antialias_keeps_color_selection (image_of strip) strip false
           f0_75 false GIMP_SELECT_CRITERION_COMPOSITE white).
  - repeat constructor.
  - reflexivity.
  - intros c r _ _. simpl. destruct ((c =? 0) && (r =? 0)); repeat constructor.
Defined.



(** X28.  The comparison is symmetric for every criterion, the single
    channels and the alpha-only comparison of transparency selection
    included: swapping the two colors leaves the result unchanged whenever
    the early return of line 262, which looks at the second color only,
    treats the two colors alike. *)
Theorem X28_difference_is_symmetric
        (a b : color) (antialias : bool) (threshold : gfloat)
        (n_components : Z) (has_alpha select_transparent : bool)
        (select_criterion : GimpSelectCriterion) :
  transparent_exit select_transparent has_alpha a n_components
  = transparent_exit select_transparent has_alpha b n_components ->
  pixel_difference a b antialias threshold n_components has_alpha
    select_transparent select_criterion
  = pixel_difference b a antialias threshold n_components has_alpha
      select_transparent select_criterion.
Proof.
  intros Hexit. unfold pixel_difference.
  now rewrite Hexit, pixel_max_comm.
Qed.

(** X28 for the red channel of two opaque colors, with antialiasing. *)
Lemma X28_witness :
  pixel_difference [f0_75; zero; zero; one] [one; one; one; one] true one 4
    true false GIMP_SELECT_CRITERION_R
  = pixel_difference [one; one; one; one] [f0_75; zero; zero; one] true one 4
      true false GIMP_SELECT_CRITERION_R.
Proof.
  apply (X28_difference_is_symmetric [f0_75; zero; zero; one]
           [one; one; one; one] true one 4 true false
           GIMP_SELECT_CRITERION_R).
  reflexivity.
Defined.
